(** * snippet_gen: a shallow embedding of the keyword-driven snippet generator

    The development follows [snippet_gen.cpp]: character classes and string
    helpers, the on-disk macro store ([load_user_keywords] /
    [save_user_keywords]), the placeholder expander
    ([replace_all], [parts_from_user_snippet_with_params]), the generation
    context ([declare_variable]), the occurrence resolver, the program
    assembler ([make_program_from_body_lines]) and the parts of [main] that
    mutate the store or drive one input line.

    Conventions.
    - A [std::string] is a [list ascii] (all 256 byte values).
    - [<cctype>] predicates are those of the "C" locale: the program never
      calls [setlocale].
    - [std::map<string,_>] is a [gmap str _]; where the code iterates over a
      map or a [std::set<string>] the keys are visited in ascending
      byte-wise lexicographic order, which is written out with [merge_sort].
    - [int] values are [Z] with the 32-bit wrap of [static_cast<int>]
      written out; signed overflow of [suffix++] is undefined behaviour and
      is modelled as [None]. *)

From Stdlib Require Import Ascii String List ZArith Lia Bool.
From Stdlib Require Import DecimalString DecimalNat DecimalZ.
From stdpp Require Import base option list gmap sets strings sorting.

Local Open Scope char_scope.
Local Open Scope nat_scope.

(** ** Strings *)

Abbreviation str := (list ascii).

(** String literals of the source are written [lit "..."]. *)
Definition lit (s : string) : str := list_ascii_of_string s.
Global Arguments lit : simpl never.

Definition newline : ascii := "010".

(** *** <cctype> in the "C" locale *)

Definition code (c : ascii) : nat := nat_of_ascii c.

Definition between (lo hi n : nat) : bool := (lo <=? n) && (n <=? hi).

Definition isspace (c : ascii) : bool :=
  (code c =? 32) || between 9 13 (code c).

Definition ispunct (c : ascii) : bool :=
  between 33 47 (code c) || between 58 64 (code c)
  || between 91 96 (code c) || between 123 126 (code c).

Definition isalpha (c : ascii) : bool :=
  between 65 90 (code c) || between 97 122 (code c).

Definition tolower (c : ascii) : ascii :=
  if between 65 90 (code c) then ascii_of_nat (code c + 32) else c.

(** *** std::string members used by the program *)

(** [s.rfind(tok, 0) == 0]: [tok] is a prefix of [s]. *)
Fixpoint starts_with (tok s : str) : bool :=
  match tok, s with
  | [], _ => true
  | _ :: _, [] => false
  | a :: tok', b :: s' => Ascii.eqb a b && starts_with tok' s'
  end.

Fixpoint find_aux (tok s : str) (i : nat) : option nat :=
  if starts_with tok s then Some i
  else match s with
       | [] => None
       | _ :: s' => find_aux tok s' (S i)
       end.

(** [s.find(tok, pos)]; [None] is [npos]. *)
Definition find (tok s : str) (pos : nat) : option nat :=
  if pos <=? length s then find_aux tok (drop pos s) pos else None.

Fixpoint rfind_aux (tok s : str) (i : nat) : option nat :=
  match s with
  | [] => if starts_with tok [] then Some i else None
  | _ :: s' =>
      match rfind_aux tok s' (S i) with
      | Some j => Some j
      | None => if starts_with tok s then Some i else None
      end
  end.

(** [s.rfind(tok)]: the last position at which [tok] occurs. *)
Definition rfind (tok s : str) : option nat := rfind_aux tok s 0.

(** [s.substr(pos, n)] and [s.substr(pos)], for [pos <= s.size()]. *)
Definition substr (s : str) (pos n : nat) : str := take n (drop pos s).
Definition substr_from (s : str) (pos : nat) : str := drop pos s.

(** The two index loops of [trim] and [normalize_token]: [b] moves right
    over the characters satisfying [p], then [e] moves left, never past
    [b]. *)
Fixpoint strip_front (p : ascii -> bool) (s : str) : str :=
  match s with
  | [] => []
  | c :: s' => if p c then strip_front p s' else s
  end.

Definition strip_back (p : ascii -> bool) (s : str) : str :=
  rev (strip_front p (rev s)).

Definition trim (s : str) : str := strip_back isspace (strip_front isspace s).

Definition normalize_token (token : str) : str :=
  map tolower (strip_back ispunct (strip_front ispunct token)).

(** Repeated [std::getline(is, item, d)] until it fails: the pieces between
    delimiters; a final piece is produced only when it is not empty. *)
Fixpoint getlines_on (d : ascii) (s : str) : list str :=
  match s with
  | [] => []
  | c :: s' =>
      if Ascii.eqb c d then [] :: getlines_on d s'
      else match getlines_on d s' with
           | [] => [[c]]
           | l :: ls => (c :: l) :: ls
           end
  end.

Definition getlines : str -> list str := getlines_on newline.

Definition split_csv (s : str) : list str := map trim (getlines_on "," s).

(** Repeated [iss >> t]: maximal runs of non-whitespace characters. *)
Fixpoint tokenize (line : str) : list str :=
  match line with
  | [] => []
  | c :: s' =>
      if isspace c then tokenize s'
      else match s' with
           | [] => [[c]]
           | c' :: _ =>
               if isspace c' then [c] :: tokenize s'
               else match tokenize s' with
                    | [] => [[c]]
                    | t :: ts => (c :: t) :: ts
                    end
           end
  end.

(** [std::to_string(int)] and [os << int]: decimal, with a minus sign. *)
Definition to_string (z : Z) : str :=
  list_ascii_of_string (NilEmpty.string_of_int (Z.to_int z)).

(** [static_cast<int>(n)] of a [size_t]: reduction into [-2^31, 2^31). *)
Definition INT_MAX : Z := 2147483647.
Definition int_of_size (n : nat) : Z :=
  ((Z.of_nat n + 2147483648) mod 4294967296 - 2147483648)%Z.

(** Byte-wise lexicographic order of [std::string::compare]. *)
Fixpoint str_leb (a b : str) : bool :=
  match a, b with
  | [], _ => true
  | _ :: _, [] => false
  | x :: a', y :: b' =>
      if code x <? code y then true
      else if code y <? code x then false
      else str_leb a' b'
  end.

Definition str_le (a b : str) : Prop := str_leb a b = true.

Global Instance str_le_dec : RelDecision str_le.
Proof. intros a b. unfold str_le. apply _. Defined.

Definition nl : str := [newline].
Definition dquote : ascii := "034".

(** ** The C++17 keyword set ([cpp17_keywords]) *)

Definition cpp17_keyword_list : list str := map lit
  [ "alignas";"alignof";"and";"and_eq";"asm";"auto";"bitand";"bitor";"bool";"break";
    "case";"catch";"char";"char16_t";"char32_t";"class";"compl";"const";"constexpr";"const_cast";
    "continue";"decltype";"default";"delete";"do";"double";"dynamic_cast";"else";"enum";"explicit";
    "export";"extern";"false";"float";"for";"friend";"goto";"if";"inline";"int";
    "long";"mutable";"namespace";"new";"noexcept";"not";"not_eq";"nullptr";"operator";"or";
    "or_eq";"private";"protected";"public";"register";"reinterpret_cast";"return";"short";"signed";"sizeof";
    "static";"static_assert";"static_cast";"struct";"switch";"template";"this";"thread_local";"throw";"true";
    "try";"typedef";"typeid";"typename";"union";"unsigned";"using";"virtual";"void";"volatile";
    "wchar_t";"while";"xor";"xor_eq" ]%string.

Definition cpp17_keywords : gset str := list_to_set cpp17_keyword_list.

(** ** Persistence of user-defined keywords *)

Record UserKeyword := mkUserKeyword {
  snippet : str;                 (* raw multiline snippet *)
  params : list (str * str)      (* ordered list of (name, default) *)
}.

Global Instance UserKeyword_eq_dec : EqDecision UserKeyword.
Proof. solve_decision. Defined.

(** The local variables of [load_user_keywords]. *)
Record loader := mkLoader {
  in_entry : bool;
  current_key : str;
  current_params : list (str * str);
  buffer : str;
  out_map : gmap str UserKeyword
}.

(** The text between the first [':'] and the last ["==="] of a marker line,
    when [colon != npos && last != npos && last > colon+1]. *)
Definition marker_field (line : str) : option str :=
  match find (lit ":") line 0, rfind (lit "===") line with
  | Some colon, Some last =>
      if colon + 1 <? last
      then Some (substr line (colon + 1) (last - (colon + 1)))
      else None
  | _, _ => None
  end.

(** One [name=default] item: [None] when the trimmed name is empty. *)
Definition parse_param (p : str) : option (str * str) :=
  let eq := find (lit "=") p 0 in
  let name := trim (match eq with None => p | Some e => substr p 0 e end) in
  let def := trim (match eq with None => [] | Some e => substr_from p (e + 1) end) in
  match name with
  | [] => None
  | _ :: _ => Some (name, def)
  end.

Definition parse_params (paramstr : str) : list (str * str) :=
  omap parse_param (split_csv paramstr).

Definition commit_entry (st : loader) : gmap str UserKeyword :=
  <[trim (current_key st) :=
      {| snippet := buffer st; params := current_params st |}]> (out_map st).

(** The body of the [while (std::getline(ifs, line))] loop. *)
Definition load_step (st : loader) (line : str) : loader :=
  if negb (in_entry st) then
    if starts_with (lit "===KEYWORD:") line then
      match marker_field line with
      | Some f => {| in_entry := true; current_key := trim f;
                     current_params := []; buffer := [];
                     out_map := out_map st |}
      | None => st
      end
    else st
  else
    if starts_with (lit "===PARAMS:") line then
      match marker_field line with
      | Some f =>
          match trim f with
          | [] => st
          | paramstr =>
              {| in_entry := true; current_key := current_key st;
                 current_params := current_params st ++ parse_params paramstr;
                 buffer := buffer st; out_map := out_map st |}
          end
      | None => st
      end
    else if decide (line = lit "===END===") then
      {| in_entry := false; current_key := []; current_params := [];
         buffer := []; out_map := commit_entry st |}
    else
      {| in_entry := true; current_key := current_key st;
         current_params := current_params st;
         buffer := buffer st ++ line ++ nl; out_map := out_map st |}.

Definition loader_init : loader :=
  {| in_entry := false; current_key := []; current_params := [];
     buffer := []; out_map := ∅ |}.

(** Commit if the file ended mid-entry. *)
Definition load_finish (st : loader) : gmap str UserKeyword :=
  if in_entry st && negb (bool_decide (current_key st = []))
  then commit_entry st else out_map st.

(** [load_user_keywords]: the argument is the content of the file, [None]
    when it cannot be opened. *)
Definition load_user_keywords (file : option str) : gmap str UserKeyword :=
  match file with
  | None => ∅
  | Some content => load_finish (fold_left load_step (getlines content) loader_init)
  end.

Definition key_le (a b : str * UserKeyword) : Prop := str_le a.1 b.1.

Global Instance key_le_dec : RelDecision key_le.
Proof. intros a b. unfold key_le. apply _. Defined.

(** Iteration over a [std::map]: ascending key order. *)
Definition map_entries (m : gmap str UserKeyword) : list (str * UserKeyword) :=
  merge_sort key_le (map_to_list m).

(** The [bool first] loops that print [name=default] items with a
    separator between them. *)
Fixpoint join_with (sep : str) (ps : list (str * str)) : str :=
  match ps with
  | [] => []
  | [pp] => pp.1 ++ lit "=" ++ pp.2
  | pp :: rest => pp.1 ++ lit "=" ++ pp.2 ++ sep ++ join_with sep rest
  end.

Definition join_params : list (str * str) -> str := join_with (lit ",").

Definition ends_with_newline (s : str) : bool :=
  match last s with
  | Some c => Ascii.eqb c newline
  | None => false
  end.

Definition save_entry (kv : str * UserKeyword) : str :=
  lit "===KEYWORD:" ++ kv.1 ++ lit "===" ++ nl
  ++ (match params kv.2 with
      | [] => []
      | _ :: _ => lit "===PARAMS:" ++ join_params (params kv.2) ++ lit "===" ++ nl
      end)
  ++ snippet kv.2
  ++ (match snippet kv.2 with
      | [] => []
      | _ :: _ => if ends_with_newline (snippet kv.2) then [] else nl
      end)
  ++ lit "===END===" ++ nl.

(** What [save_user_keywords] writes once the stream is open. *)
Definition save_text (m : gmap str UserKeyword) : str :=
  concat (map save_entry (map_entries m)).

(** The file [user_keywords.db]: its content when it exists, and whether it
    can be opened for writing. *)
Record disk := mkDisk { file : option str; writable : bool }.

Definition save_user_keywords (m : gmap str UserKeyword) (d : disk) : bool * disk :=
  if writable d
  then (true, {| file := Some (save_text m); writable := true |})
  else (false, d).

(** ** Parts and Context *)

Record Parts := mkParts {
  includes : list str;
  top : list str;
  body : list str
}.

Record Context := mkContext {
  vars : gmap str str;
  types : gset str;
  last_var : str;
  last_type : str;
  meta : gmap str str
}.

Definition empty_parts : Parts := {| includes := []; top := []; body := [] |}.

Definition empty_context : Context :=
  {| vars := ∅; types := ∅; last_var := []; last_type := []; meta := ∅ |}.

(** Outcome of the [while (ctx.vars.find(name) != ctx.vars.end())] loop of
    [declare_variable]. [SignedOverflow] is [suffix++] at [INT_MAX]. *)
Inductive probe :=
  | Free (name : str)
  | SignedOverflow
  | FuelOut.

Fixpoint probe_name (fuel : nat) (vs : gmap str str) (base_name name : str)
    (suffix : Z) : probe :=
  match fuel with
  | 0 => FuelOut
  | S fuel' =>
      match vs !! name with
      | None => Free name
      | Some _ =>
          if (suffix =? INT_MAX)%Z then SignedOverflow
          else probe_name fuel' vs base_name
                 (base_name ++ to_string suffix) (suffix + 1)%Z
      end
  end.

(** [declare_variable]: the statement text and the updated context. The loop
    is run with [size vars + 1] steps, which it never exhausts
    ([probe_name_fuel]). *)
Definition declare_variable (ctx : Context) (type base_name init : str)
    : option (str * Context) :=
  match probe_name (S (size (vars ctx))) (vars ctx) base_name base_name 1 with
  | Free name =>
      Some (type ++ lit " " ++ name ++ lit " = " ++ init ++ lit ";",
            {| vars := <[name := type]> (vars ctx); types := types ctx;
               last_var := name; last_type := last_type ctx;
               meta := meta ctx |})
  | SignedOverflow | FuelOut => None
  end.

Definition append_parts (acc p : Parts) : Parts :=
  {| includes := includes acc ++ includes p;
     top := top acc ++ top p;
     body := body acc ++ body p |}.

(** ** Placeholder expansion *)

(** The loop of [replace_all]; [s.replace(p, token.size(), repl)] is written
    with [take] and [drop]. *)
Fixpoint replace_all_loop (fuel : nat) (token repl s : str) (pos : nat) : str :=
  match fuel with
  | 0 => s
  | S fuel' =>
      match find token s pos with
      | None => s
      | Some p =>
          replace_all_loop fuel' token repl
            (take p s ++ repl ++ drop (p + length token) s)
            (p + length repl)
      end
  end.

(** Every iteration consumes at least one character of the text that is
    still to be scanned, so [length s + 1] steps are enough
    ([replace_all_loop_spec]). *)
Definition replace_all (s token repl : str) : str :=
  match token with
  | [] => s
  | _ :: _ => replace_all_loop (S (length s)) token repl s 0
  end.

Definition param_value (values : gmap str str) (pp : str * str) : str :=
  match values !! pp.1 with
  | Some v => v
  | None => pp.2
  end.

Definition placeholder (pname : str) : str := lit "{" ++ pname ++ lit "}".

Definition substitute_params (ps : list (str * str)) (values : gmap str str)
    (s : str) : str :=
  fold_left (fun transformed pp =>
               replace_all transformed (placeholder pp.1) (param_value values pp))
            ps s.

Definition main_error_line (tag : str) : str :=
  lit "// (" ++ tag ++
  lit ") ERROR: user snippet contains 'int main('. This is disallowed for custom keywords.".

Definition main_error_hint : str :=
  lit "// Please redefine this custom keyword without a main() function.".

Definition snippet_header (tag : str) : str :=
  lit "// (" ++ tag ++ lit ") User-defined snippet (with parameter substitution):".

Definition push_include (p : Parts) (rem : str) : Parts :=
  match rem with
  | [] => p
  | _ :: _ => {| includes := includes p ++ [rem]; top := top p; body := body p |}
  end.

(** The body of the [while (std::getline(iss, line))] loop of
    [parts_from_user_snippet_with_params]. *)
Definition scan_line (p : Parts) (line : str) : Parts :=
  let tline := trim line in
  if starts_with (lit "#include") tline then
    push_include p (trim (substr_from tline 8))
  else if starts_with (lit "# include") tline then
    push_include p (trim (substr_from tline 8))
  else {| includes := includes p; top := top p; body := body p ++ [line] |}.

Definition parts_from_user_snippet_with_params (uk : UserKeyword)
    (values : gmap str str) (tag : str) : Parts :=
  let transformed := substitute_params (params uk) values (snippet uk) in
  match find (lit "int main(") transformed 0 with
  | Some _ =>
      {| includes := []; top := [];
         body := [main_error_line tag; main_error_hint] |}
  | None =>
      let p := fold_left scan_line (getlines transformed) empty_parts in
      {| includes := includes p; top := top p;
         body := snippet_header tag :: body p |}
  end.

(** ** Program assembly *)

Definition normalize_include_for_key (raw : str) : str :=
  let s := trim raw in
  match s, last s with
  | front :: _, Some back =>
      if Ascii.eqb front "<" && Ascii.eqb back ">" then s
      else if Ascii.eqb front dquote && Ascii.eqb back dquote then s
      else lit "<" ++ s ++ lit ">"
  | _, _ => s
  end.

(** The [std::set<string> uniq] built from [extra_includes]. *)
Definition include_keys (extra_includes : list str) : gset str :=
  fold_left (fun uniq h =>
               let key := normalize_include_for_key h in
               match key with
               | [] => uniq
               | _ :: _ =>
                   if decide (key = lit "<iostream>") then uniq
                   else {[ key ]} ∪ uniq
               end)
            extra_includes ∅.

(** Iteration over a [std::set<string>]: ascending order. *)
Definition set_elements (s : gset str) : list str := merge_sort str_le (elements s).

Definition make_program_from_body_lines (body_lines extra_includes extra_top : list str)
    : str :=
  lit "#include <iostream>" ++ nl
  ++ concat (map (fun h => lit "#include " ++ h ++ nl)
                 (set_elements (include_keys extra_includes)))
  ++ nl
  ++ concat (map (fun t => t ++ nl) extra_top)
  ++ nl ++ lit "using namespace std;" ++ nl ++ nl
  ++ lit "int main(int argc, char *argv[]) {" ++ nl
  ++ concat (map (fun line => lit "    " ++ line ++ nl) body_lines)
  ++ lit "    return 0;" ++ nl
  ++ lit "}" ++ nl.

(** ** Occurrences *)

Definition is_keyword (kwset : gset str) (user_keywords : gmap str UserKeyword)
    (norm : str) : bool :=
  bool_decide (norm ∈ kwset) || bool_decide (is_Some (user_keywords !! norm)).

(** The loop [for (size_t i = 0; i < tokens.size(); ++i)] that fills
    [occurrences], started at index [i] on the remaining tokens. *)
Fixpoint build_occurrences (kwset : gset str)
    (user_keywords : gmap str UserKeyword) (i : nat) (tokens : list str)
    : list (str * Z) :=
  match tokens with
  | [] => []
  | t :: rest =>
      let norm := normalize_token t in
      match norm with
      | [] => build_occurrences kwset user_keywords (S i) rest
      | _ :: _ =>
          if is_keyword kwset user_keywords norm
          then (norm, int_of_size (i + 1))
               :: build_occurrences kwset user_keywords (S i) rest
          else build_occurrences kwset user_keywords (S i) rest
      end
  end.

(** ** Console input and output

    [cin] is the list of lines that remain to be read (an empty list is end
    of input, which is sticky: the program never clears the stream state);
    [cout] is everything written so far. A computation returns a value or
    raises [EOFExit]; the state reached is kept in both cases. *)

Record console := mkConsole { cin : list str; cout : str }.

Inductive result (A : Type) : Type :=
  | Ok (a : A)
  | EOFExit.
Arguments Ok {A} a.
Arguments EOFExit {A}.

Definition prog (S A : Type) : Type := S -> result A * S.

Definition ret {S A : Type} (a : A) : prog S A := fun s => (Ok a, s).

Definition bind {S A B : Type} (m : prog S A) (k : A -> prog S B) : prog S B :=
  fun s =>
    match m s with
    | (Ok a, s') => k a s'
    | (EOFExit, s') => (EOFExit, s')
    end.

Notation "x <~ m ;; k" := (bind m (fun x => k))
  (at level 100, m at next level, right associativity).
Notation "m ;; k" := (bind m (fun _ => k))
  (at level 100, right associativity).

Definition io (A : Type) : Type := prog console A.

Definition print (s : str) : io unit :=
  fun c => (Ok tt, {| cin := cin c; cout := cout c ++ s |}).

(** [if (!getline(cin, line)) throw EOFExit();] *)
Definition getline_or_throw : io str :=
  fun c =>
    match cin c with
    | [] => (EOFExit, c)
    | line :: rest => (Ok line, {| cin := rest; cout := cout c |})
    end.

Definition prompt_opt (prompt : str) : io (option str) :=
  print prompt ;;
  line <~ getline_or_throw ;;
  match line with
  | [] => ret None
  | _ :: _ => ret (Some line)
  end.

Definition ask_prompt (prompt def : str) : str :=
  prompt ++ lit " [" ++ def ++ lit "]: ".

Definition ask (prompt def : str) : io str :=
  res <~ prompt_opt (ask_prompt prompt def) ;;
  match res with
  | None => ret def
  | Some line => ret line
  end.

(** The [while (true)] loop of [read_multiline_body], by recursion on the
    lines that remain on [cin]. *)
Fixpoint read_body_loop (input : list str) (out : str) (lines : list str)
    : result (list str) * console :=
  match input with
  | [] => (EOFExit, {| cin := []; cout := out ++ lit "> " |})
  | line :: rest =>
      if decide (line = lit ".")
      then (Ok lines, {| cin := rest; cout := out ++ lit "> " |})
      else read_body_loop rest (out ++ lit "> ") (lines ++ [line])
  end.

Definition read_multiline_body (instruction : str) : io (list str) :=
  fun c => read_body_loop (cin c) (cout c ++ instruction ++ nl) [].

(** ** The process state of [main]: console and keyword file *)

Record world := mkWorld { console_of : console; disk_of : disk }.

Definition app (A : Type) : Type := prog world A.

Definition liftc {A : Type} (m : io A) : app A :=
  fun w =>
    let (r, c') := m (console_of w) in
    (r, {| console_of := c'; disk_of := disk_of w |}).

Definition save_keywords (m : gmap str UserKeyword) : app bool :=
  fun w =>
    let (ok, d') := save_user_keywords m (disk_of w) in
    (Ok ok, {| console_of := console_of w; disk_of := d' |}).

(** How one pass through the body of [while (true)] in [main] ends:
    [continue] (or falling off the end) with the store as it then is,
    [return code], or an [EOFExit] that no handler catches. *)
Inductive outcome :=
  | Continue (user_keywords : gmap str UserKeyword)
  | Return (code : Z)
  | Uncaught.

(** [try { ... } catch (const EOFExit&) { cout << msg; return 0; }] *)
Definition try_catch_eof (m : app outcome) (msg : str) (w : world) : outcome * world :=
  match m w with
  | (Ok o, w') => (o, w')
  | (EOFExit, w') => (Return 0, snd (liftc (print msg) w'))
  end.

(** A block of [main] that is not inside any [try]. *)
Definition no_try (m : app outcome) (w : world) : outcome * world :=
  match m w with
  | (Ok o, w') => (o, w')
  | (EOFExit, w') => (Uncaught, w')
  end.

Definition is_yes (s : str) : bool :=
  bool_decide (s = lit "y") || bool_decide (s = lit "Y").

Definition unlines (ls : list str) : str := concat (map (fun l => l ++ nl) ls).

Definition size_to_string (n : nat) : str := to_string (Z.of_nat n).

(** The common tail of the two definition flows of [main]: parameters,
    snippet, insertion into the store and save. *)
Definition define_keyword (name : str) (user_keywords : gmap str UserKeyword)
    : app (gmap str UserKeyword) :=
  params_line <~ liftc (ask (lit "Provide parameters (format: name=default,other=val) or leave blank") []) ;;
  let ps := match params_line with
            | [] => []
            | _ :: _ => parse_params params_line
            end in
  liftc (print (lit "Paste the snippet that demonstrates this custom keyword. You may use placeholders {name}." ++ nl)) ;;
  snippet_lines <~ liftc (read_multiline_body (lit "End with a single '.' line:")) ;;
  let uk := {| snippet := unlines snippet_lines; params := ps |} in
  let user_keywords' := <[name := uk]> user_keywords in
  ok <~ save_keywords user_keywords' ;;
  liftc (print (if ok : bool
                then lit "Custom keyword '" ++ name ++ lit "' saved to disk with "
                     ++ size_to_string (length ps) ++ lit " parameter(s)." ++ nl
                else lit "Failed to save custom keywords to disk." ++ nl)) ;;
  ret user_keywords'.

Definition builtin_conflict_message : str :=
  lit "That name conflicts with a built-in C++17 keyword. Choose another name." ++ nl.

(** [:add] / [:define] *)
Definition add_flow (kwset : gset str) (user_keywords : gmap str UserKeyword)
    : app outcome :=
  name <~ liftc (ask (lit "Keyword name to define (single word, no punctuation)") (lit "mykw")) ;;
  let name := normalize_token name in
  match name with
  | [] => liftc (print (lit "Empty keyword name; aborting." ++ nl)) ;;
          ret (Continue user_keywords)
  | _ :: _ =>
      if bool_decide (name ∈ kwset) then
        liftc (print builtin_conflict_message) ;;
        ret (Continue user_keywords)
      else
        proceed <~ (if bool_decide (is_Some (user_keywords !! name)) then
                      over <~ liftc (ask (lit "Keyword already exists. Overwrite? (y/n)") (lit "n")) ;;
                      if is_yes over then ret true
                      else liftc (print (lit "Aborted." ++ nl)) ;; ret false
                    else ret true) ;;
        if proceed : bool then
          m <~ define_keyword name user_keywords ;;
          ret (Continue m)
        else ret (Continue user_keywords)
  end.

Definition cmd_add (kwset : gset str) (user_keywords : gmap str UserKeyword)
    : world -> outcome * world :=
  try_catch_eof (add_flow kwset user_keywords)
    (nl ++ lit "EOF during custom keyword definition. Cancelling and exiting." ++ nl).

(** [:remove <keyword>] *)
Definition cmd_remove (key : str) (user_keywords : gmap str UserKeyword)
    : world -> outcome * world :=
  no_try
    (match key with
     | [] => liftc (print (lit "Usage: :remove <keyword>" ++ nl)) ;;
             ret (Continue user_keywords)
     | _ :: _ =>
         let key := normalize_token key in
         match user_keywords !! key with
         | Some _ =>
             let m := delete key user_keywords in
             ok <~ save_keywords m ;;
             liftc (print (if ok : bool
                           then lit "Removed '" ++ key ++ lit "' and saved changes." ++ nl
                           else lit "Removed '" ++ key ++ lit "' but failed to save to disk." ++ nl)) ;;
             ret (Continue m)
         | None =>
             liftc (print (lit "No such custom keyword: '" ++ key ++ lit "'." ++ nl)) ;;
             ret (Continue user_keywords)
         end
     end).

(** [:edit <keyword>]: the loop over the current parameters. *)
Fixpoint edit_defaults (i : nat) (ps : list (str * str)) : io (list (str * str)) :=
  match ps with
  | [] => ret []
  | pp :: rest =>
      print (lit "  " ++ size_to_string (i + 1) ++ lit ") " ++ pp.1 ++ lit " = " ++ pp.2 ++ nl) ;;
      newval <~ ask (lit "    New default for parameter '" ++ pp.1 ++ lit "' (empty = keep)") [] ;;
      rest' <~ edit_defaults (S i) rest ;;
      ret ((pp.1, match newval with [] => pp.2 | _ :: _ => newval end) :: rest')
  end.

(** [:edit]: the [while (!addp.empty())] loop, by recursion on the lines
    that remain on [cin]; every round reads two of them. *)
Fixpoint add_params_loop (input : list str) (out : str) (addp : str)
    (ps : list (str * str)) {struct input} : result (list (str * str)) * console :=
  match addp with
  | [] => (Ok ps, {| cin := input; cout := out |})
  | _ :: _ =>
      let out1 := out ++ ask_prompt (lit "  Default value for '" ++ addp ++ lit "'") [] in
      match input with
      | [] => (EOFExit, {| cin := []; cout := out1 |})
      | defv :: input1 =>
          let out2 := out1 ++ ask_prompt (lit "Add another parameter? (enter name or leave empty to finish)") [] in
          match input1 with
          | [] => (EOFExit, {| cin := []; cout := out2 |})
          | next :: input2 => add_params_loop input2 out2 next (ps ++ [(addp, defv)])
          end
      end
  end.

Definition add_params (ps : list (str * str)) : io (list (str * str)) :=
  addp <~ ask (lit "Add a new parameter? (enter name or leave empty to skip)") [] ;;
  fun c => add_params_loop (cin c) (cout c) addp ps.

Fixpoint numbered_lines (idx : nat) (ls : list str) : str :=
  match ls with
  | [] => []
  | l :: rest => lit "  " ++ size_to_string idx ++ lit ": " ++ l ++ nl ++ numbered_lines (S idx) rest
  end.

Definition edit_flow (arg : str) (user_keywords : gmap str UserKeyword) : app outcome :=
  key <~ (match arg with
          | [] => liftc (ask (lit ":edit which custom keyword? (name)") [])
          | _ :: _ => ret arg
          end) ;;
  match key with
  | [] => liftc (print (lit "No keyword supplied; aborting." ++ nl)) ;;
          ret (Continue user_keywords)
  | _ :: _ =>
      match user_keywords !! key with
      | None =>
          liftc (print (lit "No such custom keyword '" ++ key ++ lit "'." ++ nl)) ;;
          ret (Continue user_keywords)
      | Some uk =>
          liftc (print (lit "Editing custom keyword '" ++ key ++ lit "'. Current parameters:"
                        ++ (match params uk with [] => lit " (none)" | _ :: _ => [] end) ++ nl)) ;;
          ps <~ liftc (edit_defaults 0 (params uk)) ;;
          ps <~ liftc (add_params ps) ;;
          liftc (print (lit "Current snippet (lines):" ++ nl
                        ++ numbered_lines 1 (getlines (snippet uk)))) ;;
          replace_snip <~ liftc (ask (lit "Replace snippet entirely? (y to replace / n to keep)") (lit "n")) ;;
          snip <~ (if is_yes replace_snip then
                     liftc (print (lit "Enter new snippet lines. Finish with a single '.' on its own line." ++ nl)) ;;
                     new_lines <~ liftc (read_multiline_body (lit "Enter new snippet lines, finish with '.'")) ;;
                     ret (unlines new_lines)
                   else ret (snippet uk)) ;;
          let m := <[key := {| snippet := snip; params := ps |}]> user_keywords in
          ok <~ save_keywords m ;;
          liftc (print (if ok : bool
                        then lit "Custom keyword '" ++ key ++ lit "' updated and saved ("
                             ++ size_to_string (length ps) ++ lit " parameter(s))." ++ nl
                        else lit "Failed to save custom keywords to disk." ++ nl)) ;;
          ret (Continue m)
      end
  end.

(** [:edit] is not inside a [try]: an [EOFExit] leaves [main]. *)
Definition cmd_edit (arg : str) (user_keywords : gmap str UserKeyword)
    : world -> outcome * world :=
  no_try (edit_flow arg user_keywords).

Definition params_suffix (ps : list (str * str)) : str :=
  match ps with
  | [] => []
  | _ :: _ => lit " (params: " ++ join_with (lit ", ") ps ++ lit ")"
  end.

(** [:list] *)
Definition list_text (user_keywords : gmap str UserKeyword) : str :=
  match map_entries user_keywords with
  | [] => lit "No custom keywords stored." ++ nl
  | entries =>
      lit "Stored custom keywords and parameters:" ++ nl
      ++ concat (map (fun kv => lit "  - " ++ kv.1 ++ params_suffix (params kv.2) ++ nl) entries)
  end.

(** [:search]: the probe string of one entry and what is printed for a hit. *)
Definition search_hay (kv : str * UserKeyword) : str :=
  kv.1 ++ lit " "
  ++ concat (map (fun pp => pp.1 ++ lit "=" ++ pp.2 ++ lit " ") (params kv.2))
  ++ lit " " ++ snippet kv.2.

Definition snippet_preview (snip : str) : str :=
  match filter (fun l => l <> []) (getlines snip) with
  | [] => []
  | l :: _ => lit "      snippet preview: " ++ l ++ nl
  end.

Definition search_text (term : str) (user_keywords : gmap str UserKeyword) : str :=
  match term with
  | [] => lit "Empty search term; aborting search." ++ nl
  | _ :: _ =>
      let hits := filter (fun kv => is_Some (find term (search_hay kv) 0))
                         (map_entries user_keywords) in
      concat (map (fun kv => lit "  - " ++ kv.1 ++ params_suffix (params kv.2) ++ nl
                             ++ snippet_preview (snippet kv.2)) hits)
      ++ match hits with
         | [] => lit "No custom keywords matched '" ++ term ++ lit "'." ++ nl
         | _ :: _ => []
         end
  end.

Definition help_commands : str :=
  lit "Commands:" ++ nl
  ++ lit "  :add / :define     - define a new custom keyword with parameters" ++ nl
  ++ lit "  :list              - list stored custom keywords" ++ nl
  ++ lit "  :search <term>     - search stored custom keywords (name or snippet text)" ++ nl
  ++ lit "  :edit <keyword>    - interactively edit a stored custom keyword (params & snippet)" ++ nl
  ++ lit "  :remove <keyword>  - remove a stored custom keyword" ++ nl
  ++ lit "  :help              - show this help (includes C++ standard keywords)" ++ nl ++ nl.

Fixpoint help_keywords (i n : nat) (ks : list str) : str :=
  match ks with
  | [] => []
  | k :: rest =>
      k ++ (if i + 1 <? n then lit ", " else [])
        ++ (if (i + 1) mod 8 =? 0 then nl else [])
        ++ help_keywords (S i) n rest
  end.

Definition help_text : str :=
  let ks := set_elements cpp17_keywords in
  help_commands ++ lit "C++17 standard keywords:" ++ nl
  ++ help_keywords 0 (length ks) ks ++ nl ++ nl.

(** ** Dispatch of one occurrence and the top-level loop

    The built-in handlers ([handle_type_like] ... [handle_volatile],
    [handle_generic_with_body]) and the chain of comparisons that selects
    one are fixed string templates with prompts. They read [cin], write
    [cout] and update the [Context]; none of them touches the keyword file
    or the store. They enter the development as one function of that
    type. The only exception they raise is [EOFExit] (every [std::stoi] is
    wrapped in [catch(...)]), so the [catch (const std::exception&)] arm of
    [main] has no counterpart here. *)
Section Dispatch.

Variable builtin_handler : str -> Context -> str -> io (Parts * Context).

Definition occurrence_tag (occurrence_index token_pos_in_input : Z) : str :=
  lit "occurrence " ++ to_string occurrence_index
  ++ lit " (token " ++ to_string token_pos_in_input ++ lit ")".

(** The loop that collects one value per declared parameter. *)
Fixpoint ask_params (tag : str) (ps : list (str * str)) (values : gmap str str)
    : io (gmap str str) :=
  match ps with
  | [] => ret values
  | pp :: rest =>
      val <~ ask (lit "[" ++ tag ++ lit "] Value for parameter '" ++ pp.1 ++ lit "'") pp.2 ;;
      ask_params tag rest (<[pp.1 := val]> values)
  end.

Definition generate_parts_for_keyword_occurrence (kw : str) (ctx : Context)
    (occurrence_index token_pos_in_input : Z)
    (user_keywords : gmap str UserKeyword) : io (Parts * Context) :=
  let tag := occurrence_tag occurrence_index token_pos_in_input in
  match user_keywords !! kw with
  | Some uk =>
      values <~ ask_params tag (params uk) ∅ ;;
      ret (parts_from_user_snippet_with_params uk values tag, ctx)
  | None => builtin_handler kw ctx tag
  end.

(** The loop of [main] that collects the parts of every occurrence. *)
Fixpoint dispatch_all (user_keywords : gmap str UserKeyword)
    (occurrences : list (str * Z)) (i : nat) (ctx : Context) (aggregated : Parts)
    : io Parts :=
  match occurrences with
  | [] => ret aggregated
  | occ :: rest =>
      let occ_index := int_of_size (i + 1) in
      print (lit "--- Asking about keyword occurrence " ++ to_string occ_index
             ++ lit ": '" ++ occ.1 ++ lit "' (token " ++ to_string occ.2 ++ lit ") ---" ++ nl) ;;
      pc <~ generate_parts_for_keyword_occurrence occ.1 ctx occ_index occ.2 user_keywords ;;
      print nl ;;
      dispatch_all user_keywords rest (S i) pc.2 (append_parts aggregated pc.1)
  end.

(** The loop of [main] that offers to define unknown identifier-like
    tokens. *)
Fixpoint define_unknown_tokens (tokens : list str)
    (user_keywords : gmap str UserKeyword) : app (gmap str UserKeyword) :=
  match tokens with
  | [] => ret user_keywords
  | raw :: rest =>
      let norm := normalize_token raw in
      match norm with
      | [] => define_unknown_tokens rest user_keywords
      | c :: _ =>
          if negb (bool_decide (norm ∈ cpp17_keywords))
             && negb (bool_decide (is_Some (user_keywords !! norm)))
             && (isalpha c || Ascii.eqb c "_")
          then
            choice <~ liftc (ask (lit "Token '" ++ norm ++ lit "' is not a C++17 or stored custom keyword. Define it now? (y to define / s to skip)") (lit "s")) ;;
            if is_yes choice then
              if bool_decide (norm ∈ cpp17_keywords) then
                liftc (print (lit "That name conflicts with a built-in C++17 keyword. Skipping." ++ nl)) ;;
                define_unknown_tokens rest user_keywords
              else
                m <~ define_keyword norm user_keywords ;;
                define_unknown_tokens rest m
            else
              liftc (print (lit "Skipping token '" ++ norm ++ lit "'." ++ nl)) ;;
              define_unknown_tokens rest user_keywords
          else define_unknown_tokens rest user_keywords
      end
  end.

Definition say (s : str) (w : world) : world :=
  {| console_of := {| cin := cin (console_of w); cout := cout (console_of w) ++ s |};
     disk_of := disk_of w |}.

Fixpoint detected_text (i : nat) (occurrences : list (str * Z)) : str :=
  match occurrences with
  | [] => []
  | occ :: rest =>
      lit " [" ++ size_to_string (i + 1) ++ lit "] '" ++ occ.1
      ++ lit "'(token " ++ to_string occ.2 ++ lit ")" ++ detected_text (S i) rest
  end.

Definition eof_followup_message : str :=
  nl ++ lit "EOF received during follow-up prompts. Cancelling and exiting." ++ nl.

Definition program_banner : str :=
  nl ++ lit "--- Generated C++17 program (single integrated example) ---" ++ nl.

(** An input line that is neither a command nor [exit]. *)
Definition process_line (trimmed : str) (user_keywords : gmap str UserKeyword)
    (w : world) : outcome * world :=
  let tokens := tokenize trimmed in
  match define_unknown_tokens tokens user_keywords w with
  | (EOFExit, w1) =>
      (Return 0, say (nl ++ lit "EOF received during custom-keyword definition prompt. Cancelling and exiting." ++ nl) w1)
  | (Ok user_keywords, w1) =>
      let occurrences := build_occurrences cpp17_keywords user_keywords 0 tokens in
      match occurrences with
      | [] =>
          (Continue user_keywords,
           say (lit "No recognized C++17 or user-defined keyword found in the input. Try again." ++ nl) w1)
      | _ :: _ =>
          let w2 := say (nl ++ lit "Detected occurrences in order:"
                         ++ detected_text 0 occurrences ++ nl ++ nl) w1 in
          match liftc (dispatch_all user_keywords occurrences 0 empty_context empty_parts) w2 with
          | (EOFExit, w3) => (Return 0, say eof_followup_message w3)
          | (Ok aggregated, w3) =>
              let final_program :=
                make_program_from_body_lines (body aggregated) (includes aggregated)
                                             (top aggregated) in
              (Continue user_keywords,
               say (program_banner ++ final_program ++ nl
                    ++ lit "Copy the program into a .cpp file and compile: g++ -std=c++17 yourfile.cpp"
                    ++ nl ++ nl) w3)
          end
      end
  end.

(** A line that starts with [':']. *)
Definition run_command (trimmed : str) (user_keywords : gmap str UserKeyword)
    (w : world) : outcome * world :=
  let cmd := nth 0 (tokenize trimmed) [] in
  let arg := nth 1 (tokenize trimmed) [] in
  if bool_decide (cmd = lit ":add") || bool_decide (cmd = lit ":define") then
    cmd_add cpp17_keywords user_keywords w
  else if bool_decide (cmd = lit ":list") then
    (Continue user_keywords, say (list_text user_keywords) w)
  else if bool_decide (cmd = lit ":search") then
    no_try (term <~ (match arg with
                     | [] => liftc (ask (lit ":search term (substring search over name and snippet)") [])
                     | _ :: _ => ret arg
                     end) ;;
            liftc (print (search_text term user_keywords)) ;;
            ret (Continue user_keywords)) w
  else if bool_decide (cmd = lit ":edit") then cmd_edit arg user_keywords w
  else if bool_decide (cmd = lit ":remove") then cmd_remove arg user_keywords w
  else if bool_decide (cmd = lit ":help") then
    (Continue user_keywords, say help_text w)
  else
    (Continue user_keywords,
     say (lit "Unknown command '" ++ cmd ++ lit "'. Type :help for commands." ++ nl) w).

(** One pass through the body of [while (true)] in [main]. *)
Definition main_step (user_keywords : gmap str UserKeyword) (w : world)
    : outcome * world :=
  let w0 := say (lit "Enter keyword(s)> ") w in
  match cin (console_of w0) with
  | [] => (Return 0, say (nl ++ lit "EOF received at top-level. Exiting cleanly." ++ nl) w0)
  | line :: rest =>
      let w1 := {| console_of := {| cin := rest; cout := cout (console_of w0) |};
                   disk_of := disk_of w0 |} in
      let trimmed := trim line in
      match trimmed with
      | [] => (Continue user_keywords, w1)
      | c :: _ =>
          if Ascii.eqb c ":" then run_command trimmed user_keywords w1
          else if bool_decide (trimmed = lit "exit") then
            (Return 0, say (lit "Exit requested. Goodbye." ++ nl) w1)
          else process_line trimmed user_keywords w1
      end
  end.

(** The store as [main] sees it: loaded once, then changed by the passes
    through the loop that end in [continue]. *)
Inductive reachable (file0 : option str) : gmap str UserKeyword -> Prop :=
  | reachable_load : reachable file0 (load_user_keywords file0)
  | reachable_step m m' w w' :
      reachable file0 m ->
      main_step m w = (Continue m', w') ->
      reachable file0 m'.

(** The stores reached from a given store by passes through the loop. *)
Inductive reachable_from (m0 : gmap str UserKeyword) : gmap str UserKeyword -> Prop :=
  | reachable_from_refl : reachable_from m0 m0
  | reachable_from_step m m' w w' :
      reachable_from m0 m ->
      main_step m w = (Continue m', w') ->
      reachable_from m0 m'.

End Dispatch.

(** ** Further functions of the program *)

(** [tail_name]: the text after the last [::]. *)
Definition tail_name (qualified : str) : str :=
  match rfind (lit "::") qualified with
  | None => qualified
  | Some pos => substr_from qualified (pos + 2)
  end.

(** The default initial value that [handle_type_like] offers. *)
Definition type_like_default (kw : str) : str :=
  let def_value := if bool_decide (kw = lit "char") then lit "'a'"
                   else if bool_decide (kw = lit "bool") then lit "true"
                   else lit "0" in
  let def_value := if bool_decide (kw = lit "double") then lit "3.14" else def_value in
  let def_value := if bool_decide (kw = lit "float") then lit "2.5f" else def_value in
  let def_value := if bool_decide (kw = lit "long") then lit "123456789L" else def_value in
  let def_value := if bool_decide (kw = lit "short") then lit "42" else def_value in
  let def_value := if bool_decide (kw = lit "wchar_t") then lit "L'a'" else def_value in
  let def_value := if bool_decide (kw = lit "char16_t") then lit "u'a'" else def_value in
  let def_value := if bool_decide (kw = lit "char32_t") then lit "U'a'" else def_value in
  def_value.

(** [cout << "<v><label>" << <v> << endl;] *)
Definition cout_named (v label : str) : str :=
  lit "cout << " ++ [dquote] ++ v ++ label ++ [dquote] ++ lit " << " ++ v ++ lit " << endl;".

(** [handle_type_like]. [None] is the undefined behaviour of
    [declare_variable] (overflow of its suffix counter). *)
Definition handle_type_like (ctx : Context) (kw tag : str)
    : io (option (Parts * Context)) :=
  name <~ ask (lit "[" ++ tag ++ lit "] Variable name for type '" ++ kw ++ lit "'") (lit "x") ;;
  init <~ ask (lit "[" ++ tag ++ lit "] Initial value for " ++ name) (type_like_default kw) ;;
  match declare_variable ctx kw name init with
  | None => ret None
  | Some (decl, ctx') =>
      ret (Some ({| includes := []; top := [];
                    body := [lit "// (" ++ tag ++ lit ") Demonstrate type: " ++ kw;
                             decl;
                             cout_named (last_var ctx') (lit " = ")] |},
                 ctx'))
  end.

(** [handle_auto], with its own copy of the probing loop. *)
Definition handle_auto (ctx : Context) (tag : str) : io (option (Parts * Context)) :=
  let init_default := match last_var ctx with
                      | [] => lit "42"
                      | _ :: _ => last_var ctx
                      end in
  init <~ ask (lit "[" ++ tag ++ lit "] Initializer expression for auto variable") init_default ;;
  name <~ ask (lit "[" ++ tag ++ lit "] Variable name") (lit "v") ;;
  match probe_name (S (size (vars ctx))) (vars ctx) name name 1 with
  | Free unique =>
      ret (Some ({| includes := []; top := [];
                    body := [lit "// (" ++ tag ++ lit ") Demonstrate auto (type deduction)";
                             lit "auto " ++ unique ++ lit " = " ++ init ++ lit ";";
                             cout_named unique (lit " (deduced) = ")] |},
                 {| vars := <[unique := lit "auto"]> (vars ctx); types := types ctx;
                    last_var := unique; last_type := last_type ctx;
                    meta := meta ctx |}))
  | SignedOverflow | FuelOut => ret None
  end.

Definition has_main_line (lines : list str) : bool :=
  existsb (fun l => bool_decide (is_Some (find (lit "int main(") l 0))) lines.

(** [handle_generic_with_body], the fallback of the dispatcher. *)
Definition handle_generic_with_body (ctx : Context) (kw tag : str)
    : io (Parts * Context) :=
  print (lit "[" ++ tag ++ lit "] No tailored snippet for '" ++ kw
         ++ lit "'. Please paste a small code fragment." ++ nl) ;;
  lines <~ read_multiline_body (lit "Finish the fragment with a single '.' on its own line:") ;;
  if has_main_line lines then
    ret ({| includes := []; top := [unlines lines];
            body := [lit "// (" ++ tag
                     ++ lit ") User provided a full program above; no extra main content added."] |},
         ctx)
  else ret ({| includes := []; top := []; body := lines |}, ctx).

(** ** Definitions used to state the properties

    The relations and predicates below follow the wording of the
    specification; the functions above are compared with them. *)

(** [tok] occurs in [s] at offset [k]. *)
Definition occurs_at (tok s : str) (k : nat) : Prop :=
  exists pre post, s = pre ++ tok ++ post /\ length pre = k.

(** Plain substring replacement of every occurrence of [tok] by [repl]:
    occurrences are taken from left to right, each starting after the end of
    the previous one, and replacement text is not scanned again. *)
Inductive Replaced (tok repl : str) : str -> str -> Prop :=
  | Replaced_none s :
      (forall k, ~ occurs_at tok s k) ->
      Replaced tok repl s s
  | Replaced_hit pre rest r :
      (forall k, k < length pre -> ~ occurs_at tok (pre ++ tok ++ rest) k) ->
      Replaced tok repl rest r ->
      Replaced tok repl (pre ++ tok ++ rest) (pre ++ repl ++ r).

(** Expansion: for every parameter in declared order, the override when one
    is supplied and the stored default otherwise replaces [{name}]. *)
Inductive Expanded (values : gmap str str) : list (str * str) -> str -> str -> Prop :=
  | Expanded_nil s : Expanded values [] s s
  | Expanded_param pname pdef ps s s' r :
      Replaced (lit "{" ++ pname ++ lit "}")
               (match values !! pname with Some v => v | None => pdef end) s s' ->
      Expanded values ps s' r ->
      Expanded values ((pname, pdef) :: ps) s r.

(** A token is recognised when its normalised form is not empty and is a
    built-in keyword or a stored macro name. *)
Definition recognised (kwset : gset str) (user_keywords : gmap str UserKeyword)
    (t : str) : Prop :=
  normalize_token t <> [] /\
  (normalize_token t ∈ kwset \/ is_Some (user_keywords !! normalize_token t)).

Global Instance recognised_dec kwset user_keywords t :
  Decision (recognised kwset user_keywords t).
Proof. unfold recognised. apply _. Defined.

(** A line of a snippet that is taken as an include directive. *)
Definition is_include_line (line : str) : bool :=
  starts_with (lit "#include") (trim line)
  || starts_with (lit "# include") (trim line).

(** The key of an include is printable and kept: not empty and not the core
    include. *)
Definition kept_key (k : str) : Prop := k <> [] /\ k <> lit "<iostream>".

(** The fixed texts of the program around a given list of include forms. *)
Definition program_layout (include_forms body_lines extra_top : list str) : str :=
  lit "#include <iostream>" ++ nl
  ++ concat (map (fun h => lit "#include " ++ h ++ nl) include_forms)
  ++ nl
  ++ concat (map (fun t => t ++ nl) extra_top)
  ++ nl ++ lit "using namespace std;" ++ nl ++ nl
  ++ lit "int main(int argc, char *argv[]) {" ++ nl
  ++ concat (map (fun line => lit "    " ++ line ++ nl) body_lines)
  ++ lit "    return 0;" ++ nl
  ++ lit "}" ++ nl.

(** Deduplication by exact textual match, every include kept in the form
    and at the place where it is first seen. *)
Fixpoint first_seen (seen incs : list str) : list str :=
  match incs with
  | [] => []
  | h :: rest =>
      if decide (h ∈ seen) then first_seen seen rest
      else h :: first_seen (h :: seen) rest
  end.

(** The assembler in the words of the specification. *)
Definition assemble_as_specified (body_lines extra_includes extra_top : list str) : str :=
  program_layout (first_seen [] extra_includes) body_lines extra_top.

Definition END_MARK : str := lit "===END===".

(** The loader inside a block and between blocks. *)
Definition in_block (key : str) (ps : list (str * str)) (buf : str)
    (m : gmap str UserKeyword) : loader :=
  {| in_entry := true; current_key := key; current_params := ps;
     buffer := buf; out_map := m |}.

Definition outside (m : gmap str UserKeyword) : loader :=
  {| in_entry := false; current_key := []; current_params := [];
     buffer := []; out_map := m |}.

(** A line that opens a block under the (trimmed) name [key]. *)
Definition opens_block (line key : str) : Prop :=
  starts_with (lit "===KEYWORD:") line = true /\
  exists f, marker_field line = Some f /\ trim f = key.

(** What one line inside a block adds to the parameters and to the body. *)
Definition line_params (line : str) : list (str * str) :=
  if starts_with (lit "===PARAMS:") line then
    match marker_field line with
    | Some f => match trim f with
                | [] => []
                | paramstr => parse_params paramstr
                end
    | None => []
    end
  else [].

Definition line_body (line : str) : str :=
  if starts_with (lit "===PARAMS:") line then [] else line ++ nl.

(** What the lines of a block accumulate. *)
Definition block_params (ls : list str) : list (str * str) :=
  concat (map line_params ls).

Definition block_body (ls : list str) : str := concat (map line_body ls).

Definition block_entry (ls : list str) : UserKeyword :=
  {| snippet := block_body ls; params := block_params ls |}.

(** The text contains no literal [tok]. *)
Definition free_of (tok s : str) : Prop := forall k, ~ occurs_at tok s k.

(** Names, parameters and bodies that the file format carries unchanged. *)
Definition storable_name (n : str) : Prop :=
  n <> [] /\ trim n = n /\ newline ∉ n.

Definition storable_param (pp : str * str) : Prop :=
  (fst pp <> [] /\ trim (fst pp) = fst pp /\ (newline ∉ fst pp)
   /\ ("," ∉ fst pp) /\ ("=" ∉ fst pp))
  /\ (trim (snd pp) = snd pp /\ (newline ∉ snd pp) /\ ("," ∉ snd pp)).

Definition storable_body (s : str) : Prop :=
  (s = [] \/ ends_with_newline s = true)
  /\ Forall (fun l => l <> lit "===END===" /\ starts_with (lit "===PARAMS:") l = false)
            (getlines s).

Definition storable (m : gmap str UserKeyword) : Prop :=
  forall name uk, m !! name = Some uk ->
    storable_name name /\ Forall storable_param (params uk)
    /\ storable_body (snippet uk).

(** The lines written for one entry. *)
Definition param_item (pp : str * str) : str := pp.1 ++ lit "=" ++ pp.2.

Definition entry_lines (kv : str * UserKeyword) : list str :=
  (lit "===KEYWORD:" ++ kv.1 ++ lit "===")
  :: (match params kv.2 with
      | [] => []
      | _ :: _ => [lit "===PARAMS:" ++ join_params (params kv.2) ++ lit "==="]
      end
      ++ getlines (snippet kv.2))
  ++ [lit "===END==="].

Definition head_ok (s : str) : Prop := forall c s', s = c :: s' -> isspace c = false.
Definition last_ok (s : str) : Prop := forall c, last s = Some c -> isspace c = false.

(** The condition of the claim on macro names and parameter names: no
    literal [===], no [,], no leading or trailing whitespace. *)
Definition reserved_free_name (n : str) : Prop :=
  free_of (lit "===") n /\ ("," ∉ n) /\ trim n = n.

Definition reserved_free (m : gmap str UserKeyword) : Prop :=
  forall name uk, m !! name = Some uk ->
    reserved_free_name name
    /\ Forall (fun pp => reserved_free_name (fst pp)) (params uk).

(** No name is both a built-in keyword and a key of the store. *)
Definition disjoint_from_builtins (m : gmap str UserKeyword) : Prop :=
  forall k, k ∈ cpp17_keywords -> m !! k = None.

(** Every value a computation can return satisfies [Q]. *)
Definition post {S A : Type} (c : prog S A) (Q : A -> Prop) : Prop :=
  forall s a s', c s = (Ok a, s') -> Q a.

(** The outcome, when it is [continue], leaves a store that satisfies [Q]. *)
Definition continues_with (Q : gmap str UserKeyword -> Prop) (o : outcome) : Prop :=
  match o with
  | Continue m' => Q m'
  | Return _ | Uncaught => True
  end.

(** A handler that asks nothing and returns no parts, for the closed
    examples below (none of them reaches a built-in handler). *)
Definition idle_handler : str -> Context -> str -> io (Parts * Context) :=
  fun _ ctx _ => ret (empty_parts, ctx).

(** ** Definitions used to state the further properties *)

(** A complete block of the keyword file: the lines passed over before it,
    the line that opens it, the name it is stored under and the lines up to
    its end marker. *)
Record file_block := mkFileBlock {
  skipped : list str;
  opener : str;
  block_key : str;
  block_lines : list str
}.

Definition block_text (b : file_block) : list str :=
  skipped b ++ opener b :: block_lines b ++ [END_MARK].

(** A line that opens no block. *)
Definition no_opener (line : str) : Prop := forall key, ~ opens_block line key.

Definition well_formed_block (b : file_block) : Prop :=
  Forall no_opener (skipped b)
  /\ opens_block (opener b) (block_key b)
  /\ END_MARK ∉ block_lines b.
(** The [> ] prompts of [read_multiline_body] after [n] reads. *)
Definition body_prompts (n : nat) : str := concat (replicate n (lit "> ")).

(** What [ask] returns for a line that was read. *)
Definition answer (def line : str) : str :=
  match line with
  | [] => def
  | _ :: _ => line
  end.

(** Everything [define_keyword] prints, given whether the save succeeded. *)
Definition define_keyword_output (name params_line : str) (body_lines : list str)
    (saved : bool) : str :=
  ask_prompt (lit "Provide parameters (format: name=default,other=val) or leave blank") []
  ++ lit "Paste the snippet that demonstrates this custom keyword. You may use placeholders {name}." ++ nl
  ++ lit "End with a single '.' line:" ++ nl
  ++ body_prompts (S (length body_lines))
  ++ (if saved
      then lit "Custom keyword '" ++ name ++ lit "' saved to disk with "
           ++ size_to_string (length (parse_params params_line))
           ++ lit " parameter(s)." ++ nl
      else lit "Failed to save custom keywords to disk." ++ nl).


(** The values collected for the parameters [ps] from the lines
    [answers], one line per parameter in declared order. *)
Definition collect_values (ps : list (str * str)) (answers : list str)
    (values : gmap str str) : gmap str str :=
  fold_left (fun v pa => <[fst (fst pa) := answer (snd (fst pa)) (snd pa)]> v)
            (zip ps answers) values.


(** The keyword file right after a successful save of [m]. *)
Definition saved_as (m : gmap str UserKeyword) : disk :=
  {| file := Some (save_text m); writable := true |}.

(** Store and file after a step, against store and file before it: nothing
    changed, or the file holds the store as it now is. *)
Definition in_step (m : gmap str UserKeyword) (d : disk)
    (m' : gmap str UserKeyword) (d' : disk) : Prop :=
  (m' = m /\ d' = d) \/ d' = saved_as m'.

(** * Properties *)

(** ** Strings *)

Lemma starts_with_app tok r : starts_with tok (tok ++ r) = true.
Proof.
  induction tok as [|a tok IH]; simpl; [done|].
  by rewrite Ascii.eqb_refl, IH.
Qed.

Lemma starts_with_true tok s :
  starts_with tok s = true <-> exists r, s = tok ++ r.
Proof.
  split.
  - revert s. induction tok as [|a tok IH]; intros s H; simpl in *.
    + by exists s.
    + destruct s as [|b s]; [done|].
      apply andb_true_iff in H as [Hab H].
      apply Ascii.eqb_eq in Hab as ->.
      destruct (IH _ H) as [r ->]. by exists r.
  - intros [r ->]. apply starts_with_app.
Qed.

Lemma occurs_at_starts_with tok s k :
  occurs_at tok s k <-> k <= length s /\ starts_with tok (drop k s) = true.
Proof.
  split.
  - intros (pre & post & -> & <-). split.
    + rewrite length_app. lia.
    + rewrite drop_app_length. apply starts_with_app.
  - intros [Hk H]. apply starts_with_true in H as [r Hr].
    exists (take k s), r. split.
    + by rewrite <- Hr, take_drop.
    + rewrite length_take. lia.
Qed.

Lemma find_aux_Some tok u i p :
  find_aux tok u i = Some p ->
  exists pre rest, u = pre ++ tok ++ rest /\ p = i + length pre /\
    forall k, k < length pre -> ~ occurs_at tok u k.
Proof.
  revert i. induction u as [|c u IH]; intros i; simpl.
  - destruct (starts_with tok []) eqn:E; [|done].
    intros [= <-]. apply starts_with_true in E as [r Hr].
    exists [], r. repeat split; [done|simpl; lia|simpl; lia].
  - destruct (starts_with tok (c :: u)) eqn:E.
    + intros [= <-]. apply starts_with_true in E as [r Hr].
      exists [], r. repeat split; [done|simpl; lia|simpl; lia].
    + intros H. destruct (IH _ H) as (pre & rest & -> & -> & Hno).
      exists (c :: pre), rest. repeat split; [simpl; lia|].
      intros [|k] Hk Hocc.
      * apply occurs_at_starts_with in Hocc as [_ Hs]. simpl in Hs. congruence.
      * apply (Hno k); [simpl in Hk; lia|].
        apply occurs_at_starts_with in Hocc as [Hl Hs].
        apply occurs_at_starts_with. split; [simpl in Hl; lia|done].
Qed.

Lemma find_aux_None tok u i :
  find_aux tok u i = None -> forall k, ~ occurs_at tok u k.
Proof.
  revert i. induction u as [|c u IH]; intros i; simpl.
  - destruct (starts_with tok []) eqn:E; [done|]. intros _ k Hocc.
    apply occurs_at_starts_with in Hocc as [Hl Hs]. simpl in Hl.
    assert (k = 0) as -> by lia. simpl in Hs. congruence.
  - destruct (starts_with tok (c :: u)) eqn:E; [done|]. intros H [|k] Hocc.
    + apply occurs_at_starts_with in Hocc as [_ Hs]. simpl in Hs. congruence.
    + apply (IH _ H k). apply occurs_at_starts_with in Hocc as [Hl Hs].
      apply occurs_at_starts_with. split; [simpl in Hl; lia|done].
Qed.

Lemma find_Some tok s pos p :
  find tok s pos = Some p ->
  exists pre rest, drop pos s = pre ++ tok ++ rest /\ p = pos + length pre /\
    pos <= length s /\
    forall k, k < length pre -> ~ occurs_at tok (drop pos s) k.
Proof.
  unfold find. destruct (pos <=? length s) eqn:E; [|done].
  apply Nat.leb_le in E. intros H.
  destruct (find_aux_Some _ _ _ _ H) as (pre & rest & ? & ? & ?).
  by exists pre, rest.
Qed.

Lemma find_None tok s pos :
  pos <= length s -> find tok s pos = None ->
  forall k, ~ occurs_at tok (drop pos s) k.
Proof.
  unfold find. intros Hle. apply Nat.leb_le in Hle. rewrite Hle.
  apply find_aux_None.
Qed.

Lemma find_0_None tok s : find tok s 0 = None <-> forall k, ~ occurs_at tok s k.
Proof.
  split.
  - intros H. apply (find_None tok s 0); [lia|done].
  - intros H. destruct (find tok s 0) as [p|] eqn:E; [|done].
    destruct (find_Some _ _ _ _ E) as (pre & rest & Hd & -> & _ & _).
    simpl in Hd. exfalso. apply (H (length pre)). by exists pre, rest.
Qed.

(** ** Placeholder substitution *)

Lemma replace_all_loop_spec tok repl :
  tok <> [] ->
  forall fuel s pos,
    pos <= length s -> length s - pos < fuel ->
    exists r, Replaced tok repl (drop pos s) r /\
              replace_all_loop fuel tok repl s pos = take pos s ++ r.
Proof.
  intros Htok. induction fuel as [|fuel IH]; intros s pos Hpos Hfuel; [lia|].
  simpl. destruct (find tok s pos) as [p|] eqn:Hfind.
  - destruct (find_Some _ _ _ _ Hfind) as (pre & rest & Hd & -> & _ & Hleft).
    assert (Htok_len : 0 < length tok) by (destruct tok; [done|simpl; lia]).
    assert (Ha : length (take pos s) = pos) by (rewrite length_take; lia).
    revert Ha. generalize (take_drop pos s). rewrite Hd.
    generalize (take pos s). intros a Hs Ha. subst s pos.
    rewrite length_app in Hfuel. rewrite !length_app in Hfuel.
    replace (take (length a + length pre) (a ++ pre ++ tok ++ rest))
      with (a ++ pre)
      by (rewrite (app_assoc a pre); symmetry; apply take_app_length';
          by rewrite length_app).
    replace (drop (length a + length pre + length tok) (a ++ pre ++ tok ++ rest))
      with rest
      by (rewrite (app_assoc pre tok), (app_assoc a); symmetry;
          apply drop_app_length'; rewrite !length_app; lia).
    destruct (IH ((a ++ pre) ++ repl ++ rest) (length a + length pre + length repl))
      as (r & Hr & Heq).
    + rewrite !length_app. lia.
    + rewrite !length_app. lia.
    + rewrite (app_assoc _ repl rest) in Hr, Heq.
      rewrite drop_app_length' in Hr by (rewrite !length_app; lia).
      rewrite take_app_length' in Heq by (rewrite !length_app; lia).
      exists (pre ++ repl ++ r). split.
      * rewrite Hd in Hleft. by apply Replaced_hit.
      * rewrite (app_assoc _ repl rest), Heq. by rewrite <- !app_assoc.
  - exists (drop pos s). split.
    + apply Replaced_none. by apply find_None.
    + by rewrite take_drop.
Qed.

Lemma replace_all_Replaced s tok repl :
  tok <> [] -> Replaced tok repl s (replace_all s tok repl).
Proof.
  intros Htok. unfold replace_all. destruct tok as [|c tok]; [done|].
  destruct (replace_all_loop_spec (c :: tok) repl Htok (S (length s)) s 0)
    as (r & Hr & ->); [lia|lia|]. done.
Qed.

Lemma Replaced_functional tok repl s r1 r2 :
  Replaced tok repl s r1 -> Replaced tok repl s r2 -> r1 = r2.
Proof.
  intros H1. revert r2.
  induction H1 as [s Hnone|pre rest r Hleft Hrest IH]; intros r2 H2.
  - inversion H2 as [s' _ |pre' rest' r' _ _ Hs]; subst; [done|].
    exfalso. apply (Hnone (length pre')). by exists pre', rest'.
  - inversion H2 as [s' Hnone Hs|pre' rest' r' Hleft' Hrest' Hs]; subst.
    + exfalso. apply (Hnone (length pre)). by exists pre, rest.
    + assert (Hlen : length pre' = length pre).
      { destruct (Nat.lt_trichotomy (length pre') (length pre)) as [Hlt|[Heq|Hgt]];
          [|done|].
        - exfalso. apply (Hleft _ Hlt). by exists pre', rest'.
        - exfalso. rewrite Hs in Hleft'. apply (Hleft' _ Hgt). by exists pre, rest. }
      apply app_inj_1 in Hs as [-> Hs]; [|done].
      apply app_inv_head in Hs as ->. f_equal. f_equal. by apply IH.
Qed.

Lemma substitute_params_Expanded values ps s :
  Expanded values ps s (substitute_params ps values s).
Proof.
  revert s. induction ps as [|[pname pdef] ps IH]; intros s.
  - constructor.
  - unfold substitute_params. simpl. econstructor; [|apply IH].
    apply (replace_all_Replaced s (placeholder pname)). done.
Qed.

Lemma Expanded_functional values ps s r1 r2 :
  Expanded values ps s r1 -> Expanded values ps s r2 -> r1 = r2.
Proof.
  intros H1. revert r2. induction H1 as [s|pname pdef ps s s' r Hs _ IH]; intros r2 H2.
  - by inversion H2.
  - inversion H2 as [|? ? ? ? s'' ? Hs'' Hr2]; subst.
    apply IH. by rewrite (Replaced_functional _ _ _ _ _ Hs Hs'').
Qed.

(** The replacements are made one parameter after the other on the text
    reached so far: a value that holds the placeholder of a later parameter
    is expanded again. *)
Lemma substitution_is_sequential :
  substitute_params [(lit "a", lit "{b}"); (lit "b", lit "2")] ∅ (lit "{a}+{b}")
  = lit "2+2".
Proof. reflexivity. Qed.

(** C3. Expansion replaces, parameter by parameter in declared order, every
    occurrence of [{name}] by the override when one is supplied and by the
    stored default otherwise; the result is the only text that relates to
    the body in this way. With parameters a=1, b=2 and body "x={a} y={b}"
    the body text is "x=1 y=2" with no overrides and "x=9 y=2" with the
    override a=9. *)
Theorem expansion_substitutes_parameters :
  (forall (uk : UserKeyword) (values : gmap str str) (r : str),
      Expanded values (params uk) (snippet uk) r <->
      r = substitute_params (params uk) values (snippet uk))
  /\ (forall tag,
        let uk := {| snippet := lit "x={a} y={b}";
                     params := [(lit "a", lit "1"); (lit "b", lit "2")] |} in
        body (parts_from_user_snippet_with_params uk ∅ tag)
          = [snippet_header tag; lit "x=1 y=2"]
        /\ body (parts_from_user_snippet_with_params uk {[ lit "a" := lit "9" ]} tag)
          = [snippet_header tag; lit "x=9 y=2"]).
Proof.
  split.
  - intros uk values r. split.
    + intros H. eapply Expanded_functional; [exact H|].
      apply substitute_params_Expanded.
    + intros ->. apply substitute_params_Expanded.
  - intros tag. split; reflexivity.
Qed.

(** ** Snippets that contain [int main(] *)

(** C4. When the body contains [int main(] after substitution, the fragment
    has no includes and no top-level declarations, and its body is the two
    error-comment lines, which depend on the tag only; appending it to an
    aggregate adds these two lines and nothing of the snippet. *)
Theorem main_in_body_yields_error_fragment
    (uk : UserKeyword) (values : gmap str str) (tag : str) :
  (exists k, occurs_at (lit "int main(")
               (substitute_params (params uk) values (snippet uk)) k) ->
  let p := parts_from_user_snippet_with_params uk values tag in
  p = {| includes := []; top := [];
         body := [main_error_line tag; main_error_hint] |}
  /\ Forall (fun l => starts_with (lit "//") l = true) (body p)
  /\ forall acc, append_parts acc p =
       {| includes := includes acc; top := top acc;
          body := body acc ++ [main_error_line tag; main_error_hint] |}.
Proof.
  intros [k Hk] p.
  assert (Hp : p = {| includes := []; top := [];
                      body := [main_error_line tag; main_error_hint] |}).
  { unfold p, parts_from_user_snippet_with_params.
    destruct (find (lit "int main(") _ 0) eqn:E; [done|].
    exfalso. by apply (proj1 (find_0_None _ _) E k). }
  split; [done|]. rewrite Hp. split.
  - repeat constructor.
  - intros acc. unfold append_parts. simpl. by rewrite !app_nil_r.
Qed.

Lemma main_in_body_yields_error_fragment_witness :
  let uk := {| snippet := lit "int main() { return {a}; }" ++ nl;
               params := [(lit "a", lit "0")] |} in
  (exists k, occurs_at (lit "int main(")
               (substitute_params (params uk) ∅ (snippet uk)) k)
  /\ parts_from_user_snippet_with_params uk ∅ (lit "occurrence 1 (token 1)")
     = {| includes := []; top := [];
          body := [main_error_line (lit "occurrence 1 (token 1)"); main_error_hint] |}.
Proof.
  intros uk.
  assert (H : exists k, occurs_at (lit "int main(")
                          (substitute_params (params uk) ∅ (snippet uk)) k).
  { exists 0, [], (lit ") { return 0; }" ++ nl). split; reflexivity. }
  split; [exact H|].
  exact (proj1 (main_in_body_yields_error_fragment uk ∅
                  (lit "occurrence 1 (token 1)") H)).
Defined.

(** ** Include lines of a snippet *)

Lemma scan_line_hash_include p line r :
  trim line = lit "#include" ++ r ->
  scan_line p line = push_include p (trim r).
Proof.
  intros H. unfold scan_line. rewrite H. by rewrite starts_with_app.
Qed.

(** For the spaced form the code also drops eight characters, one fewer
    than the nine of [# include]. *)
Lemma scan_line_spaced_include p line r :
  trim line = lit "# include" ++ r ->
  scan_line p line = push_include p (trim ("e" :: r)).
Proof.
  intros H. unfold scan_line. rewrite H. done.
Qed.

Lemma scan_lines_body ls : forall p,
  body (fold_left scan_line ls p)
    = body p ++ filter (fun l => is_include_line l = false) ls
  /\ top (fold_left scan_line ls p) = top p.
Proof.
  induction ls as [|l ls IH]; intros p; [by rewrite app_nil_r|].
  cbn [fold_left]. destruct (IH (scan_line p l)) as [-> ->].
  rewrite filter_cons. unfold scan_line, is_include_line, push_include.
  destruct (starts_with (lit "#include") (trim l)); cbn [orb].
  - rewrite decide_False by done. by destruct (trim (substr_from (trim l) 8)).
  - destruct (starts_with (lit "# include") (trim l)).
    + rewrite decide_False by done. by destruct (trim (substr_from (trim l) 8)).
    + rewrite decide_True by done. cbn [body top]. by rewrite <- app_assoc.
Qed.

(** Without [int main(] in the expanded text, the body lines are the
    header comment followed by the lines that are not include lines, as
    they are and in their order; there are no top-level declarations. *)
Lemma snippet_body_lines uk values tag :
  find (lit "int main(") (substitute_params (params uk) values (snippet uk)) 0 = None ->
  body (parts_from_user_snippet_with_params uk values tag)
    = snippet_header tag
      :: filter (fun l => is_include_line l = false)
                (getlines (substitute_params (params uk) values (snippet uk)))
  /\ top (parts_from_user_snippet_with_params uk values tag) = [].
Proof.
  intros H. unfold parts_from_user_snippet_with_params. rewrite H. cbn [body top].
  by destruct (scan_lines_body
                 (getlines (substitute_params (params uk) values (snippet uk)))
                 empty_parts) as [-> ->].
Qed.

(** C7 (evaluation at the failing input). For the body line
    [# include <vector>] the captured include entry is [e <vector>]: the
    remainder is taken after eight characters although the token
    [# include] has nine; the [#include] form of the same line gives
    [<vector>]. *)
Theorem spaced_include_keeps_last_token_letter :
  forall tag,
    parts_from_user_snippet_with_params
      {| snippet := lit "# include <vector>" ++ nl; params := [] |} ∅ tag
    = {| includes := [lit "e <vector>"]; top := []; body := [snippet_header tag] |}
    /\ parts_from_user_snippet_with_params
      {| snippet := lit "#include <vector>" ++ nl; params := [] |} ∅ tag
    = {| includes := [lit "<vector>"]; top := []; body := [snippet_header tag] |}.
Proof. intros tag. split; reflexivity. Qed.

(** ** Tokens *)

(** The tokens are not empty and hold no whitespace; together they are the
    non-whitespace characters of the line, in order. *)
Lemma tokenize_tokens line :
  Forall (fun t => t <> [] /\ Forall (fun c => isspace c = false) t) (tokenize line).
Proof.
  induction line as [|c s IH]; [constructor|]. cbn [tokenize].
  destruct (isspace c) eqn:Ec; [exact IH|].
  destruct s as [|c' s']; [by repeat constructor|].
  destruct (isspace c') eqn:Ec'; [by repeat constructor|].
  destruct (tokenize (c' :: s')) as [|t ts]; [by repeat constructor|].
  inversion IH as [|? ? [Ht Hall] Hts]; subst.
  constructor; [|exact Hts]. split; [done|by constructor].
Qed.

Lemma tokenize_concat line :
  concat (tokenize line) = filter (fun c => isspace c = false) line.
Proof.
  induction line as [|c s IH]; [done|]. cbn [tokenize].
  rewrite filter_cons. destruct (isspace c) eqn:Ec.
  - rewrite decide_False by done. exact IH.
  - rewrite decide_True by done.
    destruct s as [|c' s']; [done|].
    destruct (isspace c') eqn:Ec'; [simpl; by rewrite <- IH|].
    destruct (tokenize (c' :: s')) as [|t ts]; simpl in *; by rewrite <- IH.
Qed.

(** ** The occurrence list *)

Lemma int_of_size_small n :
  (Z.of_nat n < 2147483648)%Z -> int_of_size n = Z.of_nat n.
Proof.
  intros H. unfold int_of_size. rewrite Z.mod_small; lia.
Qed.

Lemma is_keyword_true kwset user_keywords n :
  is_keyword kwset user_keywords n = true <->
  n ∈ kwset \/ is_Some (user_keywords !! n).
Proof.
  unfold is_keyword. rewrite orb_true_iff, !bool_decide_eq_true. done.
Qed.

Lemma build_occurrences_cons kwset user_keywords i t rest :
  build_occurrences kwset user_keywords i (t :: rest) =
  (if decide (recognised kwset user_keywords t)
   then [(normalize_token t, int_of_size (i + 1))] else [])
  ++ build_occurrences kwset user_keywords (S i) rest.
Proof.
  simpl. destruct (decide (recognised kwset user_keywords t)) as [[Hn Hk]|Hnot].
  - apply is_keyword_true in Hk.
    destruct (normalize_token t) as [|c n]; [done|]. by rewrite Hk.
  - unfold recognised in Hnot. rewrite <- is_keyword_true in Hnot.
    destruct (normalize_token t) as [|c n]; [done|].
    destruct (is_keyword kwset user_keywords (c :: n)); [|done].
    exfalso. by apply Hnot.
Qed.

Lemma build_occurrences_elem kwset user_keywords tokens : forall i n p,
  (Z.of_nat (i + length tokens) < 2147483648)%Z ->
  (n, p) ∈ build_occurrences kwset user_keywords i tokens <->
  exists j t, tokens !! j = Some t /\ p = Z.of_nat (i + j + 1) /\
              n = normalize_token t /\ recognised kwset user_keywords t.
Proof.
  induction tokens as [|t rest IH]; intros i n p Hlen.
  - simpl. split; [by intros ?%elem_of_nil|]. by intros (j & t & ? & _).
  - rewrite build_occurrences_cons, elem_of_app. simpl in Hlen.
    rewrite (IH (S i)) by lia. split.
    + intros [H|(j & t' & Hj & -> & -> & Hrec)].
      * destruct (decide (recognised kwset user_keywords t)) as [Hrec|];
          [|by apply elem_of_nil in H].
        apply list_elem_of_singleton in H as [= -> ->].
        exists 0, t. rewrite int_of_size_small by lia.
        repeat split; [f_equal; lia|apply Hrec|apply Hrec].
      * exists (S j), t'. repeat split; [done|f_equal; lia|apply Hrec|apply Hrec].
    + intros ([|j] & t' & Hj & -> & -> & Hrec); simpl in Hj.
      * injection Hj as ->. left. rewrite decide_True by done.
        apply list_elem_of_singleton. rewrite int_of_size_small by lia.
        do 2 f_equal. lia.
      * right. exists j, t'. repeat split; [done|f_equal; lia|apply Hrec|apply Hrec].
Qed.

Lemma build_occurrences_sorted kwset user_keywords tokens : forall i,
  (Z.of_nat (i + length tokens) < 2147483648)%Z ->
  StronglySorted Z.lt (build_occurrences kwset user_keywords i tokens).*2.
Proof.
  induction tokens as [|t rest IH]; intros i Hlen; [constructor|].
  rewrite build_occurrences_cons. simpl in Hlen.
  specialize (IH (S i) ltac:(lia)).
  destruct (decide (recognised kwset user_keywords t)); [|done].
  simpl. constructor; [done|].
  apply Forall_forall. intros p Hp.
  apply list_elem_of_fmap in Hp as ([n p'] & -> & Hin).
  apply build_occurrences_elem in Hin as (j & t' & _ & -> & _); [|lia].
  rewrite int_of_size_small by lia. simpl. lia.
Qed.

Lemma build_occurrences_length kwset user_keywords tokens : forall i,
  length (build_occurrences kwset user_keywords i tokens) =
  length (filter (recognised kwset user_keywords) tokens).
Proof.
  induction tokens as [|t rest IH]; intros i; [done|].
  rewrite build_occurrences_cons, length_app, IH, filter_cons.
  by destruct (decide (recognised kwset user_keywords t)).
Qed.

(** C2. For a line of fewer than 2^31 tokens (positions are [int]), the
    occurrence list has exactly the pairs (normalised name, 1-based
    position) of the whitespace-separated tokens whose normalised form is
    not empty and is a built-in keyword or a macro name: one pair per such
    token, positions strictly increasing, repeated names kept. *)
Theorem occurrences_resolved
    (kwset : gset str) (user_keywords : gmap str UserKeyword) (line : str) :
  (Z.of_nat (length (tokenize line)) < 2147483648)%Z ->
  let tokens := tokenize line in
  let occurrences := build_occurrences kwset user_keywords 0 tokens in
  (forall n p, (n, p) ∈ occurrences <->
     exists i t, tokens !! i = Some t /\ p = Z.of_nat (i + 1) /\
                 n = normalize_token t /\ n <> [] /\
                 (n ∈ kwset \/ is_Some (user_keywords !! n)))
  /\ StronglySorted Z.lt occurrences.*2
  /\ NoDup occurrences.*2
  /\ length occurrences = length (filter (recognised kwset user_keywords) tokens).
Proof.
  intros Hlen tokens occurrences.
  assert (Hsorted : StronglySorted Z.lt occurrences.*2)
    by (apply build_occurrences_sorted; exact Hlen).
  repeat split.
  - intros H. apply build_occurrences_elem in H as (i & t & Ht & -> & -> & Hn & Hk);
      [|exact Hlen].
    by exists i, t.
  - intros (i & t & Ht & -> & -> & Hn & Hk).
    apply build_occurrences_elem; [exact Hlen|].
    exists i, t. repeat split; done.
  - done.
  - clear -Hsorted. induction Hsorted as [|p ps _ IH Hall]; constructor; [|done].
    intros Hin. rewrite Forall_forall in Hall. specialize (Hall _ Hin). lia.
  - apply build_occurrences_length.
Qed.

Lemma occurrences_resolved_witness :
  (Z.of_nat (length (tokenize (lit "int foo (FOR); ... int"))) < 2147483648)%Z
  /\ build_occurrences cpp17_keywords ∅ 0 (tokenize (lit "int foo (FOR); ... int"))
     = [(lit "int", 1%Z); (lit "for", 3%Z); (lit "int", 5%Z)]
  /\ StronglySorted Z.lt
       (build_occurrences cpp17_keywords ∅ 0 (tokenize (lit "int foo (FOR); ... int"))).*2.
Proof.
  assert (H : (Z.of_nat (length (tokenize (lit "int foo (FOR); ... int"))) < 2147483648)%Z)
    by (vm_compute; reflexivity).
  split; [exact H|]. split; [vm_compute; reflexivity|].
  exact (proj1 (proj2 (occurrences_resolved cpp17_keywords ∅
                         (lit "int foo (FOR); ... int") H))).
Defined.

(** ** Collision-free declarations *)

Lemma to_string_inj a b : to_string a = to_string b -> a = b.
Proof.
  unfold to_string. intros H.
  apply (f_equal string_of_list_ascii) in H.
  rewrite !string_of_list_ascii_of_string in H.
  apply (f_equal NilEmpty.int_of_string) in H.
  rewrite !NilEmpty.isi in H. injection H as H.
  by apply DecimalZ.to_int_inj.
Qed.

Lemma to_string_nonempty z : to_string z <> [].
Proof.
  unfold to_string. intros H.
  apply (f_equal string_of_list_ascii) in H.
  rewrite string_of_list_ascii_of_string in H.
  apply (f_equal NilEmpty.int_of_string) in H.
  rewrite NilEmpty.isi in H. simpl in H. injection H as H.
  destruct z; simpl in H; try discriminate.
  - unfold Pos.to_int in H. injection H as H.
    by destruct (DecimalPos.Unsigned.to_uint_nonnil p).
Qed.

Lemma suffixed_name_inj base a b :
  base ++ to_string a = base ++ to_string b -> a = b.
Proof. intros H. apply app_inv_head in H. by apply to_string_inj. Qed.

Lemma suffixed_name_ne base a : base ++ to_string a <> base.
Proof.
  intros H. rewrite <- (app_nil_r base) in H at 2.
  apply app_inv_head in H. by apply to_string_nonempty in H.
Qed.

(** What the probing loop returns, as long as [suffix] stays below
    [INT_MAX]. *)
Lemma probe_name_spec vs base : forall fuel name k,
  (1 <= k)%Z -> (k + Z.of_nat fuel <= INT_MAX)%Z ->
  match probe_name fuel vs base name k with
  | Free n =>
      vs !! n = None /\
      ((n = name) \/
       (is_Some (vs !! name) /\
        exists j, (k <= j)%Z /\ n = base ++ to_string j /\
          forall j', (k <= j' < j)%Z -> is_Some (vs !! (base ++ to_string j'))))
  | SignedOverflow => False
  | FuelOut =>
      (0 < fuel -> is_Some (vs !! name)) /\
      forall j', (k <= j' < k + Z.of_nat fuel - 1)%Z ->
                 is_Some (vs !! (base ++ to_string j'))
  end.
Proof.
  induction fuel as [|fuel IH]; intros name k Hk Hmax; simpl.
  - split; [lia|]. intros j' Hj'. lia.
  - destruct (vs !! name) as [ty|] eqn:Hname; [|by auto].
    destruct (Z.eqb_spec k INT_MAX) as [->|Hne]; [lia|].
    specialize (IH (base ++ to_string k) (k + 1)%Z ltac:(lia) ltac:(lia)).
    destruct (probe_name fuel vs base (base ++ to_string k) (k + 1)) as [n| |].
    + destruct IH as [Hfree [->|[Hocc (j & Hj & -> & Hbelow)]]].
      * split; [done|]. right. split; [done|].
        exists k. split; [lia|]. split; [done|]. intros j' Hj'. lia.
      * split; [done|]. right. split; [done|].
        exists j. split; [lia|]. split; [done|]. intros j' Hj'.
        destruct (decide (j' = k)) as [->|]; [done|]. apply Hbelow. lia.
    + done.
    + destruct IH as [Hfirst Hrest]. split; [done|]. intros j' Hj'.
      destruct (decide (j' = k)) as [->|].
      * apply Hfirst. lia.
      * apply Hrest. lia.
Qed.

(** [size vs + 1] steps are never exhausted: otherwise the base name and
    [size vs] distinct suffixed names would all be keys of [vs]. *)
Lemma probe_name_fuel vs base :
  (Z.of_nat (size vs) + 1 < INT_MAX)%Z ->
  probe_name (S (size vs)) vs base base 1 <> FuelOut.
Proof.
  intros Hsize Hout.
  pose proof (probe_name_spec vs base (S (size vs)) base 1 ltac:(lia) ltac:(lia)) as H.
  rewrite Hout in H. destruct H as [Hbase Hall].
  set (names := base :: ((fun j => base ++ to_string (1 + Z.of_nat j)) <$> seq 0 (size vs))).
  assert (Hnodup : NoDup names).
  { constructor.
    - intros Hin. apply list_elem_of_fmap in Hin as (j & Hj & _).
      symmetry in Hj. by apply suffixed_name_ne in Hj.
    - apply NoDup_fmap_2_strong; [|apply NoDup_seq].
      intros x y _ _ Hxy. apply suffixed_name_inj in Hxy. lia. }
  assert (Hsub : forall x, x ∈ names -> x ∈ (map_to_list vs).*1).
  { intros x Hx. apply list_elem_of_fmap.
    assert (Hsome : is_Some (vs !! x)).
    { apply elem_of_cons in Hx as [->|Hx]; [apply Hbase; lia|].
      apply list_elem_of_fmap in Hx as (j & -> & Hj).
      apply elem_of_seq in Hj. apply Hall. lia. }
    destruct Hsome as [ty Hty]. exists (x, ty). split; [done|].
    by apply elem_of_map_to_list. }
  pose proof (submseteq_length _ _ (NoDup_submseteq _ _ Hnodup Hsub)) as Hlen.
  unfold names in Hlen. simpl in Hlen.
  rewrite !length_fmap, length_seq, length_map_to_list in Hlen. lia.
Qed.

(** The context after a declaration under the name [name]. *)
Lemma declare_variable_spec ctx type base init :
  (Z.of_nat (size (vars ctx)) + 1 < INT_MAX)%Z ->
  exists name,
    declare_variable ctx type base init =
      Some (type ++ lit " " ++ name ++ lit " = " ++ init ++ lit ";",
            {| vars := <[name := type]> (vars ctx); types := types ctx;
               last_var := name; last_type := last_type ctx; meta := meta ctx |})
    /\ vars ctx !! name = None
    /\ (vars ctx !! base = None -> name = base)
    /\ (is_Some (vars ctx !! base) ->
        exists k, (1 <= k)%Z /\ name = base ++ to_string k /\
          forall j, (1 <= j < k)%Z -> is_Some (vars ctx !! (base ++ to_string j))).
Proof.
  intros Hsize. unfold declare_variable.
  pose proof (probe_name_fuel (vars ctx) base Hsize) as Hfuel.
  pose proof (probe_name_spec (vars ctx) base (S (size (vars ctx))) base 1
                ltac:(lia) ltac:(lia)) as Hspec.
  destruct (probe_name (S (size (vars ctx))) (vars ctx) base base 1) as [name| |];
    [|done|done].
  exists name. split; [done|]. destruct Hspec as [Hfree Hcases]. split; [done|].
  split.
  - intros Hbase. destruct Hcases as [->|[[ty Hty] _]]; [done|congruence].
  - intros Hbase. destruct Hcases as [->|[_ (k & Hk & -> & Hbelow)]].
    + rewrite Hfree in Hbase. by destruct Hbase.
    + by exists k.
Qed.

(** C5. In a context with fewer than 2^31 - 2 variables (the suffix is an
    [int]), a declaration returns; its final name is free in the map, is the
    base name when that is free and otherwise the base name followed by the
    first integer 1, 2, 3, ... whose suffixed name is free; the final name
    is recorded with its type and becomes the last variable. A later
    declaration with the same base name, in a context that still holds the
    variables of the first, gets a different final name, which is suffixed,
    the suffixes being tried from 1. *)
Theorem declare_variable_distinct_names
    (ctx : Context) (type base init : str) :
  (Z.of_nat (size (vars ctx)) + 1 < INT_MAX)%Z ->
  exists name ctx',
    declare_variable ctx type base init =
      Some (type ++ lit " " ++ name ++ lit " = " ++ init ++ lit ";", ctx')
    /\ vars ctx' = <[name := type]> (vars ctx)
    /\ last_var ctx' = name
    /\ vars ctx !! name = None
    /\ (vars ctx !! base = None -> name = base)
    /\ (is_Some (vars ctx !! base) ->
        exists k, (1 <= k)%Z /\ name = base ++ to_string k /\
          forall j, (1 <= j < k)%Z -> is_Some (vars ctx !! (base ++ to_string j)))
    /\ forall (ctx2 : Context) (type2 init2 : str),
        (forall x, is_Some (vars ctx' !! x) -> is_Some (vars ctx2 !! x)) ->
        (Z.of_nat (size (vars ctx2)) + 1 < INT_MAX)%Z ->
        exists name2 ctx2' k,
          declare_variable ctx2 type2 base init2 =
            Some (type2 ++ lit " " ++ name2 ++ lit " = " ++ init2 ++ lit ";", ctx2')
          /\ name2 <> name
          /\ (1 <= k)%Z /\ name2 = base ++ to_string k
          /\ (forall j, (1 <= j < k)%Z -> is_Some (vars ctx2 !! (base ++ to_string j)))
          /\ vars ctx2' = <[name2 := type2]> (vars ctx2)
          /\ last_var ctx2' = name2.
Proof.
  intros Hsize.
  destruct (declare_variable_spec ctx type base init Hsize)
    as (name & Hdecl & Hfree & Hbase & Hsuffix).
  eexists name, _. split; [exact Hdecl|]. simpl.
  do 5 (split; [done|]).
  intros ctx2 type2 init2 Hkeep Hsize2.
  destruct (declare_variable_spec ctx2 type2 base init2 Hsize2)
    as (name2 & Hdecl2 & Hfree2 & _ & Hsuffix2).
  assert (Hname : is_Some (vars ctx2 !! name)).
  { apply Hkeep. rewrite lookup_insert_eq. by eexists. }
  assert (Hb : is_Some (vars ctx2 !! base)).
  { apply Hkeep. destruct (vars ctx !! base) as [ty|] eqn:E.
    - destruct (decide (name = base)) as [->|Hne]; [congruence|].
      rewrite lookup_insert_ne by done. rewrite E. by eexists.
    - rewrite (Hbase eq_refl), lookup_insert_eq. by eexists. }
  destruct (Hsuffix2 Hb) as (k & Hk & -> & Hbelow).
  eexists _, _, k. split; [exact Hdecl2|]. simpl.
  split; [|done].
  intros Heq. rewrite <- Heq, Hfree2 in Hname. by destruct Hname.
Qed.

Lemma declare_variable_distinct_names_witness :
  (Z.of_nat (size (vars empty_context)) + 1 < INT_MAX)%Z
  /\ (exists name ctx',
        declare_variable empty_context (lit "int") (lit "x") (lit "0") =
          Some (lit "int" ++ lit " " ++ name ++ lit " = " ++ lit "0" ++ lit ";", ctx')
        /\ last_var ctx' = name)
  /\ (exists ctx' ctx'',
        declare_variable empty_context (lit "int") (lit "x") (lit "0") =
          Some (lit "int x = 0;", ctx')
        /\ declare_variable ctx' (lit "int") (lit "x") (lit "7") =
          Some (lit "int x1 = 7;", ctx'')
        /\ last_var ctx'' = lit "x1").
Proof.
  assert (H : (Z.of_nat (size (vars empty_context)) + 1 < INT_MAX)%Z)
    by (vm_compute; reflexivity).
  split; [exact H|]. split.
  - destruct (declare_variable_distinct_names empty_context (lit "int") (lit "x")
                (lit "0") H) as (name & ctx' & Hd & _ & Hl & _).
    exists name, ctx'. split; [exact Hd|exact Hl].
  - eexists _, _. split; [vm_compute; reflexivity|].
    split; vm_compute; reflexivity.
Defined.

(** ** The assembled program *)

Lemma str_leb_total a b : str_leb a b = true \/ str_leb b a = true.
Proof.
  revert b. induction a as [|x a IH]; intros [|y b]; simpl; auto.
  destruct (Nat.ltb_spec (code x) (code y)), (Nat.ltb_spec (code y) (code x));
    auto; lia.
Qed.

Lemma str_leb_trans a b c :
  str_leb a b = true -> str_leb b c = true -> str_leb a c = true.
Proof.
  revert b c. induction a as [|x a IH]; intros [|y b] [|z c]; simpl; auto;
    try discriminate.
  destruct (Nat.ltb_spec (code x) (code y)), (Nat.ltb_spec (code y) (code x)),
           (Nat.ltb_spec (code y) (code z)), (Nat.ltb_spec (code z) (code y)),
           (Nat.ltb_spec (code x) (code z)), (Nat.ltb_spec (code z) (code x));
    try discriminate; try lia; eauto.
Qed.

Global Instance str_le_total : Total str_le.
Proof. intros a b. apply str_leb_total. Qed.

Global Instance str_le_trans : Transitive str_le.
Proof. intros a b c. apply str_leb_trans. Qed.

Lemma elem_of_set_elements (s : gset str) k : k ∈ set_elements s <-> k ∈ s.
Proof.
  unfold set_elements. rewrite merge_sort_Permutation. apply elem_of_elements.
Qed.

Lemma NoDup_set_elements (s : gset str) : NoDup (set_elements s).
Proof.
  unfold set_elements. rewrite merge_sort_Permutation. apply NoDup_elements.
Qed.

Lemma sorted_set_elements (s : gset str) : StronglySorted str_le (set_elements s).
Proof. apply StronglySorted_merge_sort; apply _. Qed.

Lemma elem_of_include_keys incs k :
  k ∈ include_keys incs <->
  exists h, h ∈ incs /\ k = normalize_include_for_key h /\ kept_key k.
Proof.
  unfold include_keys.
  assert (Hgen : forall (acc : gset str),
    k ∈ fold_left (fun uniq h =>
           let key := normalize_include_for_key h in
           match key with
           | [] => uniq
           | _ :: _ => if decide (key = lit "<iostream>") then uniq
                       else {[ key ]} ∪ uniq
           end) incs acc
    <-> k ∈ acc \/ exists h, h ∈ incs /\ k = normalize_include_for_key h /\ kept_key k).
  { induction incs as [|h incs IH]; intros acc; simpl.
    - split; [auto|]. intros [H|(h & Hh & _)]; [done|]. by apply elem_of_nil in Hh.
    - rewrite IH. unfold kept_key. split.
      + intros [H|(h' & Hh' & Hk)].
        * destruct (normalize_include_for_key h) as [|c key] eqn:En; [auto|].
          destruct (decide (c :: key = lit "<iostream>")); [auto|].
          apply elem_of_union in H as [H|H]; [|auto].
          apply elem_of_singleton in H as ->. right. exists h.
          rewrite En. repeat split; [apply elem_of_cons; auto|done|done].
        * right. exists h'. split; [apply elem_of_cons; auto|done].
      + intros [H|(h' & Hh' & -> & Hne & Hio)].
        * left. destruct (normalize_include_for_key h) as [|c key]; [done|].
          destruct (decide (c :: key = lit "<iostream>")); [done|].
          apply elem_of_union. auto.
        * apply elem_of_cons in Hh' as [->|Hh'].
          -- left. destruct (normalize_include_for_key h) as [|c key]; [done|].
             rewrite decide_False by done. apply elem_of_union. left.
             by apply elem_of_singleton.
          -- right. exists h'. done. }
  rewrite Hgen. split; [|auto]. intros [H|H]; [|done]. by apply elem_of_empty in H.
Qed.

(** C8 (as stated) fails: the aggregated includes [vector] and [<vector>]
    differ as texts, yet the program has the single directive
    [#include <vector>], and no directive in the form [vector]. *)
Lemma assembler_merges_textually_distinct_includes :
  let incs := [lit "vector"; lit "<vector>"] in
  first_seen [] incs = incs
  /\ make_program_from_body_lines [] incs []
     = lit "#include <iostream>" ++ nl ++ lit "#include <vector>" ++ nl ++ nl ++ nl
       ++ lit "using namespace std;" ++ nl ++ nl
       ++ lit "int main(int argc, char *argv[]) {" ++ nl
       ++ lit "    return 0;" ++ nl ++ lit "}" ++ nl
  /\ make_program_from_body_lines [] incs [] <> assemble_as_specified [] incs [].
Proof.
  split; [reflexivity|]. split; [vm_compute; reflexivity|].
  vm_compute. discriminate.
Qed.

(** C8 (amended). The program is the core include, one directive per
    include key in ascending order of the keys, a blank line, the top-level
    declarations verbatim in aggregation order, the using-directive, and one
    entry point around the body lines, each indented by four spaces, before
    [return 0;]. The keys are the normalised forms of the aggregated
    includes, without the empty key and without [<iostream>], each once:
    [<vector>] and the quoted [local.h] are their own keys and differ, the
    plain [vector] has the key [<vector>]. *)
Theorem assembled_program_layout (body_lines extra_includes extra_top : list str) :
  let keys := set_elements (include_keys extra_includes) in
  make_program_from_body_lines body_lines extra_includes extra_top
    = program_layout keys body_lines extra_top
  /\ (forall k, k ∈ keys <->
        exists h, h ∈ extra_includes /\ k = normalize_include_for_key h
                  /\ k <> [] /\ k <> lit "<iostream>")
  /\ NoDup keys
  /\ StronglySorted str_le keys
  /\ normalize_include_for_key (lit "<vector>") = lit "<vector>"
  /\ normalize_include_for_key (dquote :: lit "local.h" ++ [dquote])
     = dquote :: lit "local.h" ++ [dquote]
  /\ normalize_include_for_key (lit "vector") = lit "<vector>".
Proof.
  intros keys. split; [reflexivity|]. split.
  - intros k. unfold keys. rewrite elem_of_set_elements.
    apply elem_of_include_keys.
  - split; [apply NoDup_set_elements|].
    split; [apply sorted_set_elements|].
    repeat split; reflexivity.
Qed.

(** ** Trimming and line splitting *)

Lemma strip_front_id p s :
  (forall c s', s = c :: s' -> p c = false) -> strip_front p s = s.
Proof.
  destruct s as [|c s']; [done|]. intros H. simpl. by rewrite (H c s').
Qed.

Lemma strip_front_length p s : length (strip_front p s) <= length s.
Proof.
  induction s as [|c s IH]; simpl; [done|]. destruct (p c); simpl; lia.
Qed.

Lemma strip_back_length p s : length (strip_back p s) <= length s.
Proof.
  unfold strip_back. rewrite length_rev.
  etrans; [apply strip_front_length|]. by rewrite length_rev.
Qed.

Lemma strip_back_id p s :
  (forall c, last s = Some c -> p c = false) -> strip_back p s = s.
Proof.
  intros H. unfold strip_back. rewrite strip_front_id; [apply rev_involutive|].
  intros c s' Hs. apply H.
  rewrite <- (rev_involutive s), Hs. simpl. by rewrite last_snoc.
Qed.

Lemma trim_id s :
  (forall c s', s = c :: s' -> isspace c = false) ->
  (forall c, last s = Some c -> isspace c = false) ->
  trim s = s.
Proof.
  intros Hh Hl. unfold trim. rewrite (strip_front_id _ _ Hh).
  by apply strip_back_id.
Qed.

Lemma trimmed_head s c s' : trim s = s -> s = c :: s' -> isspace c = false.
Proof.
  intros Ht ->. destruct (isspace c) eqn:E; [|done]. exfalso.
  apply (f_equal length) in Ht. unfold trim in Ht. simpl in Ht. rewrite E in Ht.
  pose proof (strip_back_length isspace (strip_front isspace s')).
  pose proof (strip_front_length isspace s'). lia.
Qed.

Lemma strip_front_head p s c s' : strip_front p s = c :: s' -> p c = false.
Proof.
  induction s as [|x s IH]; simpl; [done|].
  destruct (p x) eqn:E; [done|]. by intros [= <- <-].
Qed.

Lemma trimmed_last s c : trim s = s -> last s = Some c -> isspace c = false.
Proof.
  intros Ht Hl. unfold trim, strip_back in Ht.
  destruct (strip_front isspace (rev (strip_front isspace s))) as [|x r] eqn:E.
  - simpl in Ht. subst s. done.
  - apply strip_front_head in E as Hx. simpl in Ht. rewrite <- Ht in Hl.
    rewrite last_snoc in Hl. by injection Hl as <-.
Qed.

Lemma getlines_on_app d l r :
  d ∉ l -> getlines_on d (l ++ d :: r) = l :: getlines_on d r.
Proof.
  induction l as [|c l IH]; intros Hd; simpl.
  - by rewrite Ascii.eqb_refl.
  - apply not_elem_of_cons in Hd as [Hc Hd].
    destruct (Ascii.eqb_spec c d) as [->|_]; [done|]. by rewrite IH.
Qed.

Lemma getlines_on_single d l :
  d ∉ l -> l <> [] -> getlines_on d l = [l].
Proof.
  induction l as [|c l IH]; intros Hd Hne; [done|]. simpl.
  apply not_elem_of_cons in Hd as [Hc Hd].
  destruct (Ascii.eqb_spec c d) as [->|_]; [done|].
  destruct l as [|c' l]; [done|]. by rewrite IH.
Qed.

Lemma getlines_on_nonempty d s : s <> [] -> getlines_on d s <> [].
Proof.
  destruct s as [|c s]; [done|]. intros _. simpl.
  destruct (Ascii.eqb c d); [done|]. by destruct (getlines_on d s).
Qed.

Lemma getlines_on_no_delim d s : Forall (fun l => d ∉ l) (getlines_on d s).
Proof.
  induction s as [|c s IH]; simpl; [constructor|].
  destruct (Ascii.eqb_spec c d) as [->|Hne].
  - constructor; [apply not_elem_of_nil|done].
  - destruct (getlines_on d s) as [|l ls].
    + constructor; [|done]. intros H. apply list_elem_of_singleton in H. done.
    + inversion IH as [|? ? Hl Hls]; subst. constructor; [|done].
      by apply not_elem_of_cons.
Qed.

Lemma getlines_unlines ls :
  Forall (fun l => newline ∉ l) ls -> getlines (unlines ls) = ls.
Proof.
  unfold getlines, unlines. induction 1 as [|l ls Hl _ IH]; [done|]. simpl.
  rewrite <- app_assoc. simpl. rewrite getlines_on_app by done. by rewrite IH.
Qed.

Lemma ends_with_newline_cons c s :
  s <> [] -> ends_with_newline (c :: s) = ends_with_newline s.
Proof.
  intros Hs. unfold ends_with_newline. by rewrite last_cons_cons' || destruct s.
Qed.

(** What [save_user_keywords] writes for a snippet is the snippet line by
    line. *)
Lemma unlines_getlines s :
  unlines (getlines s) =
  s ++ match s with
       | [] => []
       | _ :: _ => if ends_with_newline s then [] else nl
       end.
Proof.
  unfold getlines, unlines. induction s as [|c s IH]; [done|]. simpl.
  destruct (Ascii.eqb_spec c newline) as [->|Hne].
  - simpl. rewrite IH. unfold nl. simpl. f_equal.
    destruct s as [|c' s]; [done|].
    by rewrite (ends_with_newline_cons newline (c' :: s)).
  - destruct s as [|c' s].
    + simpl. unfold ends_with_newline. simpl.
      destruct (Ascii.eqb_spec c newline); done.
    + pose proof (getlines_on_nonempty newline (c' :: s) ltac:(done)) as Hne'.
      destruct (getlines_on newline (c' :: s)) as [|l ls]; [done|].
      simpl in *. rewrite <- app_assoc in IH. simpl in IH. rewrite <- app_assoc.
      simpl. f_equal. rewrite IH.
      by rewrite (ends_with_newline_cons c (c' :: s)).
Qed.

(** ** The loader *)

Lemma strip_front_suffix p s : exists t, s = t ++ strip_front p s.
Proof.
  induction s as [|c s [t IH]]; [by exists []|]. simpl.
  destruct (p c); [|by exists []]. exists (c :: t). simpl. by f_equal.
Qed.

Lemma strip_back_prefix p s : exists t, s = strip_back p s ++ t.
Proof.
  unfold strip_back. destruct (strip_front_suffix p (rev s)) as [t Ht].
  exists (rev t). rewrite <- rev_app_distr, <- Ht. by rewrite rev_involutive.
Qed.

Lemma strip_back_last p s c : last (strip_back p s) = Some c -> p c = false.
Proof.
  unfold strip_back. destruct (strip_front p (rev s)) as [|x r] eqn:E; [done|].
  simpl. rewrite last_snoc. intros [= <-]. by apply strip_front_head in E.
Qed.

Lemma trim_idempotent s : trim (trim s) = trim s.
Proof.
  apply trim_id.
  - intros c s' Hs. unfold trim in Hs.
    destruct (strip_back_prefix isspace (strip_front isspace s)) as [t Ht].
    rewrite Hs in Ht. simpl in Ht. by apply strip_front_head in Ht.
  - intros c. apply strip_back_last.
Qed.

Lemma load_step_in_block line key ps buf m :
  line <> END_MARK ->
  load_step (in_block key ps buf m) line =
  in_block key (ps ++ line_params line) (buf ++ line_body line) m.
Proof.
  intros Hne. unfold load_step, line_params, line_body, in_block.
  cbn [in_entry current_key current_params buffer out_map negb].
  destruct (starts_with (lit "===PARAMS:") line).
  - destruct (marker_field line) as [f|]; [|by rewrite !app_nil_r].
    destruct (trim f); [by rewrite !app_nil_r|]. by rewrite app_nil_r.
  - rewrite decide_False by done. by rewrite app_nil_r.
Qed.

Lemma fold_in_block ls : forall key ps buf m,
  END_MARK ∉ ls ->
  fold_left load_step ls (in_block key ps buf m) =
  in_block key (ps ++ block_params ls) (buf ++ block_body ls) m.
Proof.
  induction ls as [|l ls IH]; intros key ps buf m Hno.
  - unfold block_params, block_body. simpl. by rewrite !app_nil_r.
  - apply not_elem_of_cons in Hno as [Hl Hno]. simpl.
    rewrite load_step_in_block by done. rewrite IH by done.
    unfold block_params, block_body. simpl. by rewrite !app_assoc.
Qed.

Lemma load_step_end key ps buf m :
  load_step (in_block key ps buf m) END_MARK =
  outside (<[trim key := {| snippet := buf; params := ps |}]> m).
Proof. reflexivity. Qed.

Lemma load_step_open line key m :
  opens_block line key -> load_step (outside m) line = in_block key [] [] m.
Proof.
  intros [Hs (f & Hf & <-)]. unfold load_step, outside.
  cbn [in_entry current_key current_params buffer out_map negb].
  by rewrite Hs, Hf.
Qed.

(** A whole block: opening line, lines without the end marker, end marker. *)
Lemma load_block line key ls m :
  opens_block line key -> END_MARK ∉ ls ->
  fold_left load_step (line :: ls ++ [END_MARK]) (outside m) =
  outside (<[key := block_entry ls]> m).
Proof.
  intros Hopen Hno. simpl. rewrite (load_step_open _ _ _ Hopen).
  rewrite fold_left_app, fold_in_block by done. simpl.
  rewrite load_step_end. destruct Hopen as [_ (f & _ & <-)].
  by rewrite trim_idempotent.
Qed.

(** C9 (as stated) fails on two files, each a well-formed block followed by
    a truncated one. In the first the opening line of the truncated block
    passes the loader's test but its name is blank: the block is dropped at
    end of file. In the second both blocks have the name [a]: the only
    entry holds the truncated block, not the well-formed one. *)
Lemma truncated_block_not_always_committed :
  let file1 := lit "===KEYWORD:a===" ++ nl ++ lit "x" ++ nl ++ lit "===END===" ++ nl
               ++ lit "===KEYWORD: ===" ++ nl ++ lit "y" ++ nl in
  let file2 := lit "===KEYWORD:a===" ++ nl ++ lit "x" ++ nl ++ lit "===END===" ++ nl
               ++ lit "===KEYWORD:a===" ++ nl ++ lit "y" ++ nl in
  opens_block (lit "===KEYWORD: ===") []
  /\ load_user_keywords (Some file1)
     = {[ lit "a" := {| snippet := lit "x" ++ nl; params := [] |} ]}
  /\ load_user_keywords (Some file2)
     = {[ lit "a" := {| snippet := lit "y" ++ nl; params := [] |} ]}.
Proof.
  intros file1 file2. split.
  - split; [reflexivity|]. exists (lit " "). split; reflexivity.
  - split; vm_compute; reflexivity.
Qed.

(** C9 (amended). For a file made of a well-formed block followed by a
    block that is opened but not closed before end of file, where the
    trimmed name of the truncated block is not empty, Load commits both: the
    mapping has for the truncated block the parameters and body accumulated
    up to end of file, and the well-formed entry when its name differs from
    that of the truncated block; it has no other entry. *)
Theorem truncated_block_is_committed
    (content kw1 kw2 key1 key2 : str) (blk1 blk2 : list str) :
  getlines content = kw1 :: blk1 ++ [END_MARK] ++ kw2 :: blk2 ->
  opens_block kw1 key1 -> END_MARK ∉ blk1 ->
  opens_block kw2 key2 -> END_MARK ∉ blk2 ->
  key2 <> [] ->
  let m := load_user_keywords (Some content) in
  m = <[key2 := block_entry blk2]> (<[key1 := block_entry blk1]> ∅)
  /\ m !! key2 = Some (block_entry blk2)
  /\ (key1 <> key2 -> m !! key1 = Some (block_entry blk1))
  /\ (forall k, k <> key1 -> k <> key2 -> m !! k = None).
Proof.
  intros Hlines Hopen1 Hno1 Hopen2 Hno2 Hkey m.
  assert (Hm : m = <[key2 := block_entry blk2]> (<[key1 := block_entry blk1]> ∅)).
  { unfold m, load_user_keywords. rewrite Hlines.
    change loader_init with (outside ∅).
    rewrite (app_comm_cons blk1), (app_assoc (kw1 :: blk1)), fold_left_app.
    rewrite <- app_comm_cons, (load_block _ _ _ _ Hopen1 Hno1).
    simpl. rewrite (load_step_open _ _ _ Hopen2).
    rewrite fold_in_block by done. unfold load_finish, commit_entry, in_block.
    cbn [in_entry current_key current_params buffer out_map].
    rewrite bool_decide_eq_false_2 by done. simpl.
    destruct Hopen2 as [_ (f & _ & <-)]. by rewrite trim_idempotent. }
  split; [done|]. rewrite Hm. split; [apply lookup_insert_eq|]. split.
  - intros Hne. rewrite lookup_insert_ne by done. apply lookup_insert_eq.
  - intros k Hk1 Hk2. by rewrite !lookup_insert_ne.
Qed.

Lemma truncated_block_is_committed_witness :
  let content := lit "===KEYWORD:a===" ++ nl ++ lit "x" ++ nl ++ lit "===END===" ++ nl
                 ++ lit "===KEYWORD:b===" ++ nl ++ lit "===PARAMS:p=1===" ++ nl ++ lit "y" in
  getlines content
    = lit "===KEYWORD:a===" :: [lit "x"] ++ [END_MARK]
      ++ lit "===KEYWORD:b===" :: [lit "===PARAMS:p=1==="; lit "y"]
  /\ load_user_keywords (Some content) !! lit "b"
     = Some {| snippet := lit "y" ++ nl; params := [(lit "p", lit "1")] |}
  /\ load_user_keywords (Some content) !! lit "a"
     = Some {| snippet := lit "x" ++ nl; params := [] |}.
Proof.
  intros content.
  assert (Hlines : getlines content
    = lit "===KEYWORD:a===" :: [lit "x"] ++ [END_MARK]
      ++ lit "===KEYWORD:b===" :: [lit "===PARAMS:p=1==="; lit "y"])
    by (vm_compute; reflexivity).
  assert (Ha : opens_block (lit "===KEYWORD:a===") (lit "a")).
  { split; [reflexivity|]. exists (lit "a"). split; reflexivity. }
  assert (Hb : opens_block (lit "===KEYWORD:b===") (lit "b")).
  { split; [reflexivity|]. exists (lit "b"). split; reflexivity. }
  assert (H1 : END_MARK ∉ [lit "x"])
    by (apply (bool_decide_unpack _); vm_compute; exact I).
  assert (H2 : END_MARK ∉ [lit "===PARAMS:p=1==="; lit "y"])
    by (apply (bool_decide_unpack _); vm_compute; exact I).
  assert (Hk : lit "b" <> []) by discriminate.
  destruct (truncated_block_is_committed content _ _ _ _ _ _ Hlines Ha H1 Hb H2 Hk)
    as (_ & Hkey2 & Hkey1 & _).
  split; [exact Hlines|]. split; [exact Hkey2|].
  apply Hkey1. discriminate.
Defined.

(** ** Round trip through the keyword file *)

Lemma starts_with_length tok s : starts_with tok s = true -> length tok <= length s.
Proof.
  intros H. apply starts_with_true in H as [r ->]. rewrite length_app. lia.
Qed.

Lemma rfind_aux_short tok s : forall i,
  length s < length tok -> rfind_aux tok s i = None.
Proof.
  induction s as [|c s IH]; intros i Hlen; simpl.
  - destruct tok; [simpl in Hlen; lia|done].
  - rewrite IH by (simpl in Hlen; lia).
    destruct (starts_with tok (c :: s)) eqn:E; [|done].
    apply starts_with_length in E. lia.
Qed.

Lemma rfind_aux_suffix tok x : forall i,
  tok <> [] -> rfind_aux tok (x ++ tok) i = Some (i + length x).
Proof.
  induction x as [|c x IH]; intros i Htok.
  - simpl. destruct tok as [|c tok]; [done|].
    cbn [rfind_aux]. rewrite rfind_aux_short by (simpl; lia).
    pose proof (starts_with_app (c :: tok) []) as H. rewrite app_nil_r in H.
    rewrite H. f_equal. lia.
  - simpl. rewrite IH by done. f_equal. lia.
Qed.

Lemma rfind_suffix tok x : tok <> [] -> rfind tok (x ++ tok) = Some (length x).
Proof. intros H. unfold rfind. by rewrite rfind_aux_suffix. Qed.

Lemma find_aux_first_char c pre rest : forall i,
  c ∉ pre -> find_aux [c] (pre ++ c :: rest) i = Some (i + length pre).
Proof.
  induction pre as [|x pre IH]; intros i Hc; simpl.
  - rewrite Ascii.eqb_refl. simpl. f_equal. lia.
  - apply not_elem_of_cons in Hc as [Hx Hc].
    destruct (Ascii.eqb_spec c x) as [->|_]; [done|]. simpl.
    rewrite IH by done. f_equal. lia.
Qed.

Lemma find_first_char c pre rest :
  c ∉ pre -> find [c] (pre ++ c :: rest) 0 = Some (length pre).
Proof.
  intros H. unfold find. cbn [Nat.leb]. rewrite drop_0.
  by rewrite find_aux_first_char.
Qed.

Lemma find_aux_no_char c s : forall i, c ∉ s -> find_aux [c] s i = None.
Proof.
  induction s as [|x s IH]; intros i Hc; simpl; [done|].
  apply not_elem_of_cons in Hc as [Hx Hc].
  destruct (Ascii.eqb_spec c x) as [->|_]; [done|]. simpl. by apply IH.
Qed.

(** The field of a marker line written by [save_user_keywords]. *)
Lemma marker_field_keyword f :
  f <> [] -> marker_field (lit "===KEYWORD:" ++ f ++ lit "===") = Some f.
Proof.
  intros Hf. unfold marker_field.
  replace (find (lit ":") (lit "===KEYWORD:" ++ f ++ lit "===") 0) with (Some 10)
    by reflexivity.
  rewrite (app_assoc _ f), rfind_suffix by done.
  rewrite length_app. change (length (lit "===KEYWORD:")) with 11.
  destruct (Nat.ltb_spec (10 + 1) (11 + length f)) as [_|Hge].
  - unfold substr. rewrite <- app_assoc.
    change (10 + 1) with (length (lit "===KEYWORD:")).
    rewrite drop_app_length.
    replace (11 + length f - length (lit "===KEYWORD:")) with (length f)
      by (change (length (lit "===KEYWORD:")) with 11; lia).
    by rewrite take_app_length.
  - destruct f; [done|simpl in Hge; lia].
Qed.

Lemma marker_field_params f :
  f <> [] -> marker_field (lit "===PARAMS:" ++ f ++ lit "===") = Some f.
Proof.
  intros Hf. unfold marker_field.
  replace (find (lit ":") (lit "===PARAMS:" ++ f ++ lit "===") 0) with (Some 9)
    by reflexivity.
  rewrite (app_assoc _ f), rfind_suffix by done.
  rewrite length_app. change (length (lit "===PARAMS:")) with 10.
  destruct (Nat.ltb_spec (9 + 1) (10 + length f)) as [_|Hge].
  - unfold substr. rewrite <- app_assoc.
    change (9 + 1) with (length (lit "===PARAMS:")).
    rewrite drop_app_length.
    replace (10 + length f - length (lit "===PARAMS:")) with (length f)
      by (change (length (lit "===PARAMS:")) with 10; lia).
    by rewrite take_app_length.
  - destruct f; [done|simpl in Hge; lia].
Qed.

Lemma head_ok_app a b : a <> [] -> head_ok a -> head_ok (a ++ b).
Proof.
  intros Ha H c s' Hs. destruct a as [|x a]; [done|].
  injection Hs as -> _. by eapply H.
Qed.

Lemma last_ok_app a b : b <> [] -> last_ok b -> last_ok (a ++ b).
Proof.
  intros Hb H c Hc. apply H. rewrite last_app in Hc.
  destruct (last b) eqn:E; [done|]. apply last_None in E. done.
Qed.

Lemma last_ok_cons c s : isspace c = false -> last_ok s -> last_ok (c :: s).
Proof.
  intros Hc H x Hx. destruct s as [|y s]; [by injection Hx as <-|].
  apply H. by rewrite last_cons_cons in Hx.
Qed.

Lemma param_item_tight pp :
  storable_param pp -> head_ok (param_item pp) /\ last_ok (param_item pp).
Proof.
  intros [(Hne & Ht & _) (Hd & _)]. unfold param_item. split.
  - apply head_ok_app; [done|]. intros c s'. by apply trimmed_head.
  - apply last_ok_app; [done|]. apply last_ok_cons; [done|].
    intros c. by apply trimmed_last.
Qed.

Lemma param_item_nonempty pp : storable_param pp -> param_item pp <> [].
Proof.
  intros [(Hne & _) _]. unfold param_item. by destruct (pp.1).
Qed.

Lemma join_with_cons sep pp q rest :
  join_with sep (pp :: q :: rest) = param_item pp ++ sep ++ join_with sep (q :: rest).
Proof. unfold param_item. simpl. by rewrite <- !app_assoc. Qed.

Lemma join_params_nonempty ps :
  ps <> [] -> Forall storable_param ps -> join_params ps <> [].
Proof.
  intros Hne Hall. destruct ps as [|pp ps]; [done|].
  inversion Hall as [|? ? Hpp _]; subst.
  pose proof (param_item_nonempty _ Hpp) as Hi. unfold join_params.
  destruct ps as [|q rest].
  - exact Hi.
  - rewrite join_with_cons. by destruct (param_item pp).
Qed.

Lemma join_params_tight ps :
  ps <> [] -> Forall storable_param ps ->
  head_ok (join_params ps) /\ last_ok (join_params ps).
Proof.
  intros Hne Hall. unfold join_params.
  induction Hall as [|pp ps Hpp Hall IH]; [done|].
  destruct (param_item_tight _ Hpp) as [Hh Hl].
  destruct ps as [|q rest]; [done|].
  rewrite join_with_cons. destruct (IH ltac:(done)) as [_ IHl]. split.
  - apply head_ok_app; [by apply param_item_nonempty|done].
  - apply last_ok_app; [by destruct (param_item pp)|].
    apply last_ok_app; [|done].
    by apply (join_params_nonempty (q :: rest)).
Qed.

Lemma param_item_no_comma pp : storable_param pp -> "," ∉ param_item pp.
Proof.
  intros [(_ & _ & _ & Hc & _) (_ & _ & Hd)]. unfold param_item.
  rewrite !elem_of_app. intros [H|[H|H]]; [done| |done].
  apply list_elem_of_singleton in H. discriminate.
Qed.

Lemma getlines_join ps :
  Forall storable_param ps ->
  getlines_on "," (join_params ps) = map param_item ps.
Proof.
  unfold join_params. induction 1 as [|pp ps Hpp Hall IH]; [done|].
  destruct ps as [|q rest].
  - simpl. apply getlines_on_single;
      [by apply param_item_no_comma|by apply param_item_nonempty].
  - rewrite join_with_cons.
    change (lit "," ++ join_with (lit ",") (q :: rest))
      with ("," :: join_with (lit ",") (q :: rest)).
    rewrite getlines_on_app by (by apply param_item_no_comma).
    by rewrite IH.
Qed.

Lemma parse_param_item pp :
  storable_param pp -> parse_param (param_item pp) = Some pp.
Proof.
  intros [(Hne & Ht & _ & _ & Heq) (Hd & _)]. unfold parse_param, param_item.
  change (lit "=" ++ pp.2) with ("=" :: pp.2).
  change (lit "=") with ["="].
  rewrite find_first_char by done.
  unfold substr, substr_from. rewrite drop_0, take_app_length.
  replace (length pp.1 + 1) with (length (pp.1 ++ ["="])) by (rewrite length_app; done).
  rewrite (cons_middle "=" pp.1 pp.2), app_assoc, drop_app_length.
  rewrite Ht, Hd. destruct pp as [n d]. simpl in *. by destruct n.
Qed.

Lemma parse_params_join ps :
  Forall storable_param ps -> parse_params (join_params ps) = ps.
Proof.
  intros Hall. unfold parse_params, split_csv. rewrite getlines_join by done.
  induction Hall as [|pp ps Hpp Hall IH]; [done|]. simpl.
  destruct (param_item_tight _ Hpp) as [Hh Hl].
  rewrite (trim_id _ Hh Hl), (parse_param_item _ Hpp). f_equal. exact IH.
Qed.

Lemma unlines_app a b : unlines (a ++ b) = unlines a ++ unlines b.
Proof. unfold unlines. by rewrite map_app, concat_app. Qed.

Lemma unlines_concat xs : unlines (concat xs) = concat (map unlines xs).
Proof.
  induction xs as [|x xs IH]; [done|]. simpl. by rewrite unlines_app, IH.
Qed.

Lemma unlines_cons a l : unlines (a :: l) = a ++ nl ++ unlines l.
Proof. unfold unlines. simpl. by rewrite <- app_assoc. Qed.

Lemma save_entry_lines kv : save_entry kv = unlines (entry_lines kv).
Proof.
  unfold save_entry, entry_lines.
  rewrite unlines_cons, !unlines_app, unlines_getlines, unlines_cons.
  destruct (params kv.2) as [|pp ps].
  - unfold unlines. simpl. by rewrite <- !app_assoc.
  - rewrite unlines_cons. unfold unlines. simpl. by rewrite <- !app_assoc.
Qed.

Lemma save_text_lines m : save_text m = unlines (concat (map entry_lines (map_entries m))).
Proof.
  unfold save_text. rewrite unlines_concat, map_map. f_equal.
  apply map_ext. intros kv. apply save_entry_lines.
Qed.

Lemma newline_not_in_literal (w : str) :
  bool_decide (newline ∉ w) = true -> newline ∉ w.
Proof. apply bool_decide_eq_true_1. Qed.

Lemma join_params_no_newline ps :
  Forall storable_param ps -> newline ∉ join_params ps.
Proof.
  unfold join_params. induction 1 as [|pp ps Hpp Hall IH].
  - apply not_elem_of_nil.
  - assert (Hitem : newline ∉ param_item pp).
    { destruct Hpp as [(_ & _ & Hn & _) (_ & Hd & _)]. unfold param_item.
      rewrite !elem_of_app. intros [H|[H|H]]; [done| |done].
      apply list_elem_of_singleton in H. discriminate. }
    destruct ps as [|q rest]; [exact Hitem|].
    rewrite join_with_cons, !elem_of_app. intros [H|[H|H]]; [done| |done].
    apply list_elem_of_singleton in H. discriminate.
Qed.

Lemma entry_lines_no_newline name uk :
  storable_name name -> Forall storable_param (params uk) ->
  Forall (fun l => newline ∉ l) (entry_lines (name, uk)).
Proof.
  intros (_ & _ & Hn) Hps. unfold entry_lines. cbn [fst snd].
  constructor.
  - rewrite !elem_of_app. intros [H|[H|H]]; [|done|].
    + revert H. by apply newline_not_in_literal.
    + revert H. by apply newline_not_in_literal.
  - apply Forall_app. split; [apply Forall_app; split|].
    + destruct (params uk) as [|pp ps] eqn:E; [constructor|].
      constructor; [|constructor]. rewrite <- E in *.
      rewrite !elem_of_app. intros [H|[H|H]].
      * revert H. by apply newline_not_in_literal.
      * by apply join_params_no_newline in H.
      * revert H. by apply newline_not_in_literal.
    + apply getlines_on_no_delim.
    + constructor; [|constructor]. by apply newline_not_in_literal.
Qed.

Lemma block_params_app a b : block_params (a ++ b) = block_params a ++ block_params b.
Proof. unfold block_params. by rewrite map_app, concat_app. Qed.

Lemma block_body_app a b : block_body (a ++ b) = block_body a ++ block_body b.
Proof. unfold block_body. by rewrite map_app, concat_app. Qed.

Lemma block_plain_lines ls :
  Forall (fun l => l <> lit "===END===" /\ starts_with (lit "===PARAMS:") l = false) ls ->
  block_params ls = [] /\ block_body ls = unlines ls /\ END_MARK ∉ ls.
Proof.
  induction 1 as [|l ls [Hend Hpre] _ (IHp & IHb & IHe)].
  - repeat split. apply not_elem_of_nil.
  - assert (Hp : block_params (l :: ls) = line_params l ++ block_params ls) by done.
    assert (Hb : block_body (l :: ls) = line_body l ++ block_body ls) by done.
    rewrite Hp, Hb, IHp, IHb, unlines_cons. unfold line_params, line_body.
    rewrite Hpre. rewrite <- app_assoc. repeat split. by apply not_elem_of_cons.
Qed.

Lemma params_line_parsed ps :
  ps <> [] -> Forall storable_param ps ->
  line_params (lit "===PARAMS:" ++ join_params ps ++ lit "===") = ps
  /\ line_body (lit "===PARAMS:" ++ join_params ps ++ lit "===") = [].
Proof.
  intros Hne Hall. unfold line_params, line_body.
  rewrite starts_with_app. split; [|done].
  rewrite marker_field_params by (by apply join_params_nonempty).
  destruct (join_params_tight ps Hne Hall) as [Hh Hl].
  rewrite (trim_id _ Hh Hl). rewrite <- (parse_params_join ps Hall) at 2.
  by destruct (join_params ps).
Qed.

(** Loading the lines written for one entry inserts that entry. *)
Lemma load_entry_lines name uk m :
  storable_name name -> Forall storable_param (params uk) ->
  storable_body (snippet uk) ->
  fold_left load_step (entry_lines (name, uk)) (outside m) =
  outside (<[name := uk]> m).
Proof.
  intros (Hne & Htrim & Hnl) Hps [Hend Hbody]. unfold entry_lines.
  cbn [fst snd].
  destruct (block_plain_lines _ Hbody) as (Hbp & Hbb & Hbe).
  set (pl := match params uk with
             | [] => []
             | _ :: _ => [lit "===PARAMS:" ++ join_params (params uk) ++ lit "==="]
             end).
  assert (Hpl : block_params pl = params uk /\ block_body pl = [] /\ END_MARK ∉ pl).
  { unfold pl. destruct (params uk) as [|pp ps] eqn:E.
    - repeat split. apply not_elem_of_nil.
    - rewrite <- E in *.
      destruct (params_line_parsed (params uk)) as [Hp Hb]; [by rewrite E|done|].
      change (block_params [?l]) with (line_params l ++ []).
      change (block_body [?l]) with (line_body l ++ []).
      rewrite Hp, Hb, !app_nil_r.
      repeat split. intros Hin. apply list_elem_of_singleton in Hin.
      apply (f_equal (starts_with (lit "===PARAMS:"))) in Hin.
      rewrite starts_with_app in Hin. discriminate. }
  destruct Hpl as (Hpp & Hpb & Hpe).
  rewrite load_block with (key := name).
  - f_equal. f_equal. unfold block_entry.
    rewrite block_params_app, block_body_app, Hpp, Hpb, Hbp, Hbb, app_nil_r.
    rewrite unlines_getlines. destruct uk as [snip ps]. simpl in *. f_equal.
    destruct Hend as [->|Hnl']; [done|]. rewrite Hnl'.
    destruct snip; by rewrite ?app_nil_r.
  - split; [apply starts_with_app|]. exists name.
    split; [by apply marker_field_keyword|done].
  - rewrite elem_of_app. by intros [H|H].
Qed.

Lemma load_entries l : forall m0 : gmap str UserKeyword,
  Forall (fun kv => storable_name kv.1 /\ Forall storable_param (params kv.2)
                    /\ storable_body (snippet kv.2)) l ->
  fold_left load_step (concat (map entry_lines l)) (outside m0) =
  outside (fold_left (fun m kv => <[kv.1 := kv.2]> m) l m0).
Proof.
  induction l as [|[name uk] l IH]; intros m0 Hall; [done|].
  inversion Hall as [|? ? (Hn & Hp & Hb) Hall']; subst.
  change (concat (map entry_lines ((name, uk) :: l)))
    with (entry_lines (name, uk) ++ concat (map entry_lines l)).
  rewrite fold_left_app, load_entry_lines by done. by apply IH.
Qed.

Lemma foldr_insert_absent (l : list (str * UserKeyword)) (k : str)
    (v : UserKeyword) (m0 : gmap str UserKeyword) :
  k ∉ l.*1 ->
  foldr (fun kv m => <[kv.1 := kv.2]> m) (<[k := v]> m0) l =
  <[k := v]> (foldr (fun kv m => <[kv.1 := kv.2]> m) m0 l).
Proof.
  induction l as [|[k' v'] l IH]; intros Hk; [done|]. simpl in *.
  apply not_elem_of_cons in Hk as [Hne Hk].
  rewrite IH by done. by apply insert_insert_ne.
Qed.

Lemma fold_left_insert_list_to_map (l : list (str * UserKeyword)) :
  forall m0 : gmap str UserKeyword,
  NoDup l.*1 ->
  fold_left (fun m kv => <[kv.1 := kv.2]> m) l m0 =
  foldr (fun kv m => <[kv.1 := kv.2]> m) m0 l.
Proof.
  induction l as [|[k v] l IH]; intros m0 Hnd; [done|]. simpl in *.
  apply NoDup_cons in Hnd as [Hk Hnd].
  rewrite IH by done. by apply foldr_insert_absent.
Qed.

Lemma map_entries_to_map (m : gmap str UserKeyword) :
  fold_left (fun m kv => <[kv.1 := kv.2]> m) (map_entries m) ∅ = m.
Proof.
  assert (Hperm : map_entries m ≡ₚ map_to_list m) by apply merge_sort_Permutation.
  rewrite fold_left_insert_list_to_map
    by (rewrite Hperm; apply NoDup_fst_map_to_list).
  change (foldr _ ∅ (map_entries m)) with (list_to_map (map_entries m) : gmap _ _).
  rewrite (list_to_map_proper (map_entries m) (map_to_list m));
    [apply list_to_map_to_list| |done].
  rewrite Hperm. apply NoDup_fst_map_to_list.
Qed.

(** Every storable store is read back as it was written. *)
Lemma save_load_storable m :
  storable m -> load_user_keywords (Some (save_text m)) = m.
Proof.
  intros Hm.
  assert (Hall : Forall (fun kv => storable_name kv.1 /\ Forall storable_param (params kv.2)
                                   /\ storable_body (snippet kv.2)) (map_entries m)).
  { apply Forall_forall. intros [name uk] Hin. apply Hm.
    apply elem_of_map_to_list. revert Hin. unfold map_entries.
    by rewrite merge_sort_Permutation. }
  unfold load_user_keywords. rewrite save_text_lines, getlines_unlines.
  - change loader_init with (outside ∅). rewrite load_entries by done.
    unfold load_finish. simpl. apply map_entries_to_map.
  - apply Forall_concat, Forall_forall. intros ls Hls.
    apply list_elem_of_fmap in Hls as ([name uk] & -> & Hin).
    rewrite Forall_forall in Hall. destruct (Hall _ Hin) as (Hn & Hp & _).
    by apply entry_lines_no_newline.
Qed.

Lemma free_of_find tok s : find tok s 0 = None -> free_of tok s.
Proof. intros H. unfold free_of. by apply find_0_None. Qed.

(** C1 (as stated) fails. The names of both stores satisfy the condition of
    the claim. A body without a final newline comes back with one (the
    writer adds it), and a default value with a comma comes back as two
    parameters. *)
Lemma round_trip_changes_body_and_defaults :
  let m1 : gmap str UserKeyword :=
    {[ lit "k" := {| snippet := lit "x"; params := [] |} ]} in
  let m2 : gmap str UserKeyword :=
    {[ lit "k" := {| snippet := []; params := [(lit "p", lit "1,2")] |} ]} in
  (reserved_free m1
   /\ load_user_keywords (Some (save_text m1))
      = {[ lit "k" := {| snippet := lit "x" ++ nl; params := [] |} ]}
   /\ load_user_keywords (Some (save_text m1)) <> m1)
  /\ (reserved_free m2
      /\ load_user_keywords (Some (save_text m2))
         = {[ lit "k" := {| snippet := [];
                            params := [(lit "p", lit "1"); (lit "2", [])] |} ]}
      /\ load_user_keywords (Some (save_text m2)) <> m2).
Proof.
  intros m1 m2.
  assert (Hname : reserved_free_name (lit "k")).
  { split; [by apply free_of_find|]. split; [|reflexivity].
    apply (bool_decide_unpack _). vm_compute. exact I. }
  split; split.
  - intros name uk H. apply lookup_singleton_Some in H as [<- <-].
    split; [exact Hname|constructor].
  - split; [vm_compute; reflexivity|]. intros H.
    apply (f_equal (fun m => m !! lit "k")) in H. vm_compute in H. discriminate.
  - intros name uk H. apply lookup_singleton_Some in H as [<- <-].
    split; [exact Hname|]. constructor; [|constructor].
    split; [by apply free_of_find|]. split; [|reflexivity].
    apply (bool_decide_unpack _). vm_compute. exact I.
  - split; [vm_compute; reflexivity|]. intros H.
    apply (f_equal (fun m => m !! lit "k")) in H. vm_compute in H. discriminate.
Qed.

(** C1 (amended). Let the macro names and parameter names of M contain no
    literal [===], no [,] and no leading or trailing whitespace, and let
    moreover macro names be non-empty and free of newlines, parameter names
    be non-empty and free of [=] and newlines, default values be free of
    [,] and newlines and have no leading or trailing whitespace, and bodies
    be empty or end with a newline, with no line equal to [===END===] and
    no line starting with [===PARAMS:]. Then loading the file produced by
    saving M yields M. *)
Theorem save_load_round_trip (m : gmap str UserKeyword) :
  reserved_free m -> storable m ->
  load_user_keywords (Some (save_text m)) = m
  /\ forall d, writable d = true ->
       fst (save_user_keywords m d) = true
       /\ load_user_keywords (file (snd (save_user_keywords m d))) = m.
Proof.
  intros _ Hm. pose proof (save_load_storable m Hm) as Hload.
  split; [exact Hload|]. intros d Hd. unfold save_user_keywords. rewrite Hd.
  split; [reflexivity|exact Hload].
Qed.

Lemma save_load_round_trip_witness :
  let m : gmap str UserKeyword :=
    {[ lit "swap" := {| snippet := lit "#include <utility>" ++ nl
                                   ++ lit "std::swap({var1},{var2});" ++ nl;
                        params := [(lit "var1", lit "x"); (lit "var2", lit "y")] |} ]} in
  reserved_free m /\ storable m /\ load_user_keywords (Some (save_text m)) = m.
Proof.
  intros m.
  assert (Hok : forall w : str,
            bool_decide (w <> [] /\ trim w = w /\ (newline ∉ w) /\ ("," ∉ w) /\ ("=" ∉ w))
              = true ->
            find (lit "===") w 0 = None ->
            reserved_free_name w
            /\ (w <> [] /\ trim w = w /\ (newline ∉ w) /\ ("," ∉ w) /\ ("=" ∉ w))).
  { intros w Hw Hf. apply bool_decide_eq_true_1 in Hw.
    destruct Hw as (H1 & H2 & H3 & H4 & H5).
    split; [|done]. split; [by apply free_of_find|done]. }
  destruct (Hok (lit "swap") eq_refl eq_refl) as [Hs (Hs1 & Hs2 & Hs3 & _)].
  destruct (Hok (lit "var1") eq_refl eq_refl) as [Hv1 Hv1'].
  destruct (Hok (lit "var2") eq_refl eq_refl) as [Hv2 Hv2'].
  destruct (Hok (lit "x") eq_refl eq_refl) as [_ (_ & Hx1 & Hx2 & Hx3 & _)].
  destruct (Hok (lit "y") eq_refl eq_refl) as [_ (_ & Hy1 & Hy2 & Hy3 & _)].
  assert (Hfree : reserved_free m).
  { intros name uk H. apply lookup_singleton_Some in H as [<- <-].
    split; [exact Hs|].
    constructor; [exact Hv1|constructor; [exact Hv2|constructor]]. }
  assert (Hstore : storable m).
  { intros name uk H. apply lookup_singleton_Some in H as [<- <-].
    split; [done|]. split.
    - constructor; [|constructor; [|constructor]]; split; done.
    - split; [right; reflexivity|].
      repeat constructor; (discriminate || reflexivity). }
  split; [exact Hfree|]. split; [exact Hstore|].
  exact (proj1 (save_load_round_trip m Hfree Hstore)).
Defined.

(** ** The store and the built-in keywords *)

Opaque cpp17_keywords.

Lemma post_ret {S A : Type} (a : A) (Q : A -> Prop) : Q a -> post (@ret S A a) Q.
Proof. intros H s a' s' [= <- _]. exact H. Qed.

Lemma post_bind {S A B : Type} (m : prog S A) (k : A -> prog S B)
    (P : A -> Prop) (Q : B -> Prop) :
  post m P -> (forall a, P a -> post (k a) Q) -> post (bind m k) Q.
Proof.
  intros Hm Hk s b s'. unfold bind.
  destruct (m s) as [[a|] s1] eqn:E; [|discriminate].
  intros H. exact (Hk a (Hm _ _ _ E) _ _ _ H).
Qed.

Lemma post_bind_any {S A B : Type} (m : prog S A) (k : A -> prog S B)
    (Q : B -> Prop) :
  (forall a, post (k a) Q) -> post (bind m k) Q.
Proof.
  intros Hk. apply (post_bind m k (fun _ => True)); [done|]. intros a _. apply Hk.
Qed.

Ltac post_step :=
  lazymatch goal with
  | |- post (ret _) _ => apply post_ret
  | |- post (bind _ _) _ => apply post_bind_any; intros ?
  | |- post (let _ := _ in _) _ => cbv zeta
  end.

Lemma define_keyword_post name m :
  post (define_keyword name m) (fun m' => exists uk, m' = <[name := uk]> m).
Proof. unfold define_keyword. repeat post_step. eauto. Qed.

Lemma disjoint_insert m name uk :
  name ∉ cpp17_keywords -> disjoint_from_builtins m ->
  disjoint_from_builtins (<[name := uk]> m).
Proof.
  intros Hn Hm k Hk. rewrite lookup_insert_ne; [exact (Hm k Hk)|].
  intros ->. exact (Hn Hk).
Qed.

Lemma disjoint_insert_present m key uk :
  is_Some (m !! key) -> disjoint_from_builtins m ->
  disjoint_from_builtins (<[key := uk]> m).
Proof.
  intros Hkey Hm. apply disjoint_insert; [|done].
  intros Hin. rewrite (Hm _ Hin) in Hkey. destruct Hkey as [? Hkey].
  discriminate Hkey.
Qed.

Lemma disjoint_delete m key :
  disjoint_from_builtins m -> disjoint_from_builtins (delete key m).
Proof.
  intros Hm k Hk. apply lookup_delete_None. right. exact (Hm k Hk).
Qed.

Lemma add_flow_post m :
  disjoint_from_builtins m ->
  post (add_flow cpp17_keywords m) (continues_with disjoint_from_builtins).
Proof.
  intros Hm. unfold add_flow. apply post_bind_any. intros name. cbv zeta.
  destruct (normalize_token name) as [|c n] eqn:En.
  - repeat post_step. exact Hm.
  - destruct (bool_decide (c :: n ∈ cpp17_keywords)) eqn:Ek.
    + repeat post_step. exact Hm.
    + apply bool_decide_eq_false in Ek.
      apply post_bind_any. intros [|].
      * eapply post_bind; [apply define_keyword_post|].
        intros m' [uk ->]. apply post_ret. exact (disjoint_insert _ _ _ Ek Hm).
      * apply post_ret. exact Hm.
Qed.

Lemma edit_flow_post arg m :
  disjoint_from_builtins m ->
  post (edit_flow arg m) (continues_with disjoint_from_builtins).
Proof.
  intros Hm. unfold edit_flow. apply post_bind_any. intros key.
  destruct key as [|c key]; [repeat post_step; exact Hm|].
  destruct (m !! (c :: key)) as [uk|] eqn:E; [|repeat post_step; exact Hm].
  repeat post_step. apply disjoint_insert_present; [by eexists|exact Hm].
Qed.

Lemma try_catch_eof_continue c msg w m' w' :
  try_catch_eof c msg w = (Continue m', w') -> c w = (Ok (Continue m'), w').
Proof.
  unfold try_catch_eof. destruct (c w) as [[o|] w1]; [|discriminate].
  by intros [= -> ->].
Qed.

Lemma no_try_continue c w m' w' :
  no_try c w = (Continue m', w') -> c w = (Ok (Continue m'), w').
Proof.
  unfold no_try. destruct (c w) as [[o|] w1]; [|discriminate].
  by intros [= -> ->].
Qed.

Lemma cmd_remove_post arg m :
  disjoint_from_builtins m ->
  post (match arg with
        | [] => liftc (print (lit "Usage: :remove <keyword>" ++ nl)) ;;
                ret (Continue m)
        | _ :: _ =>
            let key := normalize_token arg in
            match m !! key with
            | Some _ =>
                let m' := delete key m in
                ok <~ save_keywords m' ;;
                liftc (print (if ok : bool
                              then lit "Removed '" ++ key ++ lit "' and saved changes." ++ nl
                              else lit "Removed '" ++ key ++ lit "' but failed to save to disk." ++ nl)) ;;
                ret (Continue m')
            | None =>
                liftc (print (lit "No such custom keyword: '" ++ key ++ lit "'." ++ nl)) ;;
                ret (Continue m)
            end
        end) (continues_with disjoint_from_builtins).
Proof.
  intros Hm. destruct arg as [|c arg]; [repeat post_step; exact Hm|].
  cbv zeta. destruct (m !! normalize_token (c :: arg)).
  - repeat post_step. exact (disjoint_delete _ _ Hm).
  - repeat post_step. exact Hm.
Qed.

Lemma define_unknown_tokens_post tokens : forall m,
  disjoint_from_builtins m ->
  post (define_unknown_tokens tokens m) disjoint_from_builtins.
Proof.
  induction tokens as [|raw rest IH]; intros m Hm; cbn [define_unknown_tokens].
  - apply post_ret. exact Hm.
  - cbv zeta. destruct (normalize_token raw) as [|c n]; [exact (IH m Hm)|].
    destruct (negb (bool_decide (c :: n ∈ cpp17_keywords))
              && negb (bool_decide (is_Some (m !! (c :: n))))
              && (isalpha c || Ascii.eqb c "_")) eqn:Eguard; [|exact (IH m Hm)].
    apply andb_true_iff in Eguard as [Eguard _].
    apply andb_true_iff in Eguard as [Ekw _].
    apply negb_true_iff in Ekw. rewrite Ekw.
    apply bool_decide_eq_false in Ekw.
    apply post_bind_any. intros choice. destruct (is_yes choice).
    + eapply post_bind; [apply define_keyword_post|].
      intros m' [uk ->]. apply IH. exact (disjoint_insert _ _ _ Ekw Hm).
    + apply post_bind_any. intros _. exact (IH m Hm).
Qed.

Section Invariant.

Variable builtin_handler : str -> Context -> str -> io (Parts * Context).

Lemma process_line_preserves trimmed m m' w w' :
  disjoint_from_builtins m ->
  process_line builtin_handler trimmed m w = (Continue m', w') ->
  disjoint_from_builtins m'.
Proof.
  intros Hm. unfold process_line. cbv zeta.
  destruct (define_unknown_tokens (tokenize trimmed) m w) as [[m1|] w1] eqn:E;
    [|intros H; discriminate H].
  pose proof (define_unknown_tokens_post _ _ Hm _ _ _ E) as Hm1.
  destruct (build_occurrences cpp17_keywords m1 0 (tokenize trimmed)) as [|occ occs].
  - intros [= <- _]. exact Hm1.
  - destruct (liftc _ _) as [[agg|] w3]; [|intros H; discriminate H]. intros [= <- _]. exact Hm1.
Qed.

Lemma run_command_preserves trimmed m m' w w' :
  disjoint_from_builtins m ->
  run_command trimmed m w = (Continue m', w') ->
  disjoint_from_builtins m'.
Proof.
  intros Hm. unfold run_command. cbv zeta.
  repeat match goal with
         | |- context [if ?b || ?c then _ else _] => destruct (b || c)
         | |- context [if bool_decide ?P then _ else _] => destruct (bool_decide P)
         end.
  - unfold cmd_add. intros H%try_catch_eof_continue.
    exact (add_flow_post m Hm _ _ _ H).
  - intros [= <- _]. exact Hm.
  - intros H%no_try_continue.
    match type of H with
    | ?c _ = _ =>
        assert (Hp : post c (fun o => o = Continue m))
          by (repeat post_step; reflexivity)
    end.
    specialize (Hp _ _ _ H). injection Hp as ->. exact Hm.
  - unfold cmd_edit. intros H%no_try_continue.
    exact (edit_flow_post _ m Hm _ _ _ H).
  - unfold cmd_remove. intros H%no_try_continue.
    exact (cmd_remove_post _ m Hm _ _ _ H).
  - intros [= <- _]. exact Hm.
  - intros [= <- _]. exact Hm.
Qed.

Lemma main_step_preserves m m' w w' :
  disjoint_from_builtins m ->
  main_step builtin_handler m w = (Continue m', w') ->
  disjoint_from_builtins m'.
Proof.
  intros Hm. unfold main_step. cbv zeta.
  destruct (cin (console_of (say (lit "Enter keyword(s)> ") w))) as [|line rest];
    [intros H; discriminate H|].
  destruct (trim line) as [|c t] eqn:Et; [intros [= <- _]; exact Hm|].
  destruct (Ascii.eqb c ":").
  - apply run_command_preserves. exact Hm.
  - destruct (bool_decide (c :: t = lit "exit")); [intros H; discriminate H|].
    apply process_line_preserves. exact Hm.
Qed.

Lemma reachable_from_disjoint m0 m :
  disjoint_from_builtins m0 -> reachable_from builtin_handler m0 m ->
  disjoint_from_builtins m.
Proof.
  intros H0. induction 1 as [|m m' w w' _ IH Hstep]; [exact H0|].
  exact (main_step_preserves _ _ _ _ IH Hstep).
Qed.

Lemma reachable_disjoint file0 m :
  disjoint_from_builtins (load_user_keywords file0) ->
  reachable builtin_handler file0 m ->
  disjoint_from_builtins m.
Proof.
  intros H0. induction 1 as [|m m' w w' _ IH Hstep]; [exact H0|].
  exact (main_step_preserves _ _ _ _ IH Hstep).
Qed.

End Invariant.

Lemma bind_step {S A B : Type} (m : prog S A) (k : A -> prog S B) s a s1 :
  m s = (Ok a, s1) -> bind m k s = k a s1.
Proof. intros H. unfold bind. by rewrite H. Qed.

Lemma ask_line prompt def c line rest :
  cin c = line :: rest -> line <> [] ->
  ask prompt def c =
  (Ok line, {| cin := rest; cout := cout c ++ ask_prompt prompt def |}).
Proof.
  intros Hc Hne. unfold ask, prompt_opt, bind, print, getline_or_throw. simpl.
  rewrite Hc. by destruct line.
Qed.

Lemma empty_not_keyword : [] ∉ cpp17_keywords.
Proof. apply (bool_decide_unpack _). vm_compute. exact I. Qed.

(** A definition whose normalised name is a built-in keyword is refused:
    the message is printed, the store and the file are as before. *)
Lemma cmd_add_rejects_builtin m w line rest :
  cin (console_of w) = line :: rest ->
  normalize_token line ∈ cpp17_keywords ->
  cmd_add cpp17_keywords m w =
  (Continue m,
   {| console_of :=
        {| cin := rest;
           cout := cout (console_of w)
                   ++ ask_prompt (lit "Keyword name to define (single word, no punctuation)")
                                 (lit "mykw")
                   ++ builtin_conflict_message |};
      disk_of := disk_of w |}).
Proof.
  intros Hc Hk.
  assert (Hline : line <> []).
  { intros ->. apply empty_not_keyword. exact Hk. }
  unfold cmd_add, try_catch_eof, add_flow.
  erewrite bind_step; [|unfold liftc; erewrite ask_line by eassumption; reflexivity].
  cbv zeta. destruct (normalize_token line) as [|c n] eqn:En.
  - exfalso. apply empty_not_keyword. exact Hk.
  - rewrite bool_decide_eq_true_2 by exact Hk.
    unfold bind, liftc, print, ret. simpl. by rewrite <- app_assoc.
Qed.

(** C6 (as stated) fails: the loader takes the names of the file as they
    are, so the store loaded from a file with a block named [int] holds the
    built-in keyword [int]; that store is a reachable state. *)
Lemma loaded_store_can_hold_builtin_name :
  let file0 := lit "===KEYWORD:int===" ++ nl ++ lit "int y = 0;" ++ nl
               ++ lit "===END===" ++ nl in
  lit "int" ∈ cpp17_keywords
  /\ load_user_keywords (Some file0)
     = {[ lit "int" := {| snippet := lit "int y = 0;" ++ nl; params := [] |} ]}
  /\ reachable idle_handler (Some file0) (load_user_keywords (Some file0))
  /\ ~ disjoint_from_builtins (load_user_keywords (Some file0)).
Proof.
  intros file0.
  assert (Hint : lit "int" ∈ cpp17_keywords)
    by (apply (bool_decide_unpack _); vm_compute; exact I).
  assert (Hload : load_user_keywords (Some file0)
     = {[ lit "int" := {| snippet := lit "int y = 0;" ++ nl; params := [] |} ]})
    by (vm_compute; reflexivity).
  split; [exact Hint|]. split; [exact Hload|]. split; [constructor|].
  intros Hd. specialize (Hd _ Hint). rewrite Hload, lookup_singleton_eq in Hd.
  discriminate Hd.
Qed.

(** C6 (amended). A definition whose normalised name is a built-in keyword
    is refused with the conflict message and leaves store and file as they
    were; every pass through the main loop (define, inline define, edit,
    remove, and the commands that do not change the store) keeps the store
    disjoint from the built-in keywords. Hence every state reached from a
    disjoint store is disjoint, and every reachable state is disjoint when
    the store loaded from disk is. *)
Theorem store_stays_disjoint_from_builtins
    (handler : str -> Context -> str -> io (Parts * Context)) :
  (forall m w line rest,
      cin (console_of w) = line :: rest ->
      normalize_token line ∈ cpp17_keywords ->
      cmd_add cpp17_keywords m w =
      (Continue m,
       {| console_of :=
            {| cin := rest;
               cout := cout (console_of w)
                       ++ ask_prompt (lit "Keyword name to define (single word, no punctuation)")
                                     (lit "mykw")
                       ++ builtin_conflict_message |};
          disk_of := disk_of w |}))
  /\ (forall m m' w w',
        disjoint_from_builtins m ->
        main_step handler m w = (Continue m', w') ->
        disjoint_from_builtins m')
  /\ (forall m0 m,
        disjoint_from_builtins m0 -> reachable_from handler m0 m ->
        disjoint_from_builtins m)
  /\ (forall file0 m,
        disjoint_from_builtins (load_user_keywords file0) ->
        reachable handler file0 m ->
        disjoint_from_builtins m).
Proof.
  split; [exact cmd_add_rejects_builtin|].
  split; [exact (main_step_preserves handler)|].
  split; [exact (reachable_from_disjoint handler)|].
  exact (reachable_disjoint handler).
Qed.

Lemma store_stays_disjoint_from_builtins_witness :
  let w := {| console_of := {| cin := [lit ":add"; lit "Swap!"; lit "a=x, b=y";
                                       lit "std::swap({a},{b});"; lit "."];
                               cout := [] |};
              disk_of := {| file := None; writable := true |} |} in
  disjoint_from_builtins ∅
  /\ exists m' w',
       main_step idle_handler ∅ w = (Continue m', w')
       /\ m' !! lit "swap"
          = Some {| snippet := lit "std::swap({a},{b});" ++ nl;
                    params := [(lit "a", lit "x"); (lit "b", lit "y")] |}
       /\ disjoint_from_builtins m'.
Proof.
  intros w.
  assert (H0 : disjoint_from_builtins ∅) by (intros k _; apply lookup_empty).
  split; [exact H0|].
  destruct (main_step idle_handler ∅ w) as [o w'] eqn:E.
  pose proof E as E'. vm_compute in E'. injection E' as <- <-.
  eexists _, _. split; [reflexivity|]. split; [vm_compute; reflexivity|].
  exact (proj1 (proj2 (store_stays_disjoint_from_builtins idle_handler)) _ _ _ _ H0 E).
Defined.

(** ** End of input during the follow-up prompts *)

(** C10 (as stated) fails: with the macro [foo] stored and the input
    [foo] followed by end of input, the prompt for the parameter meets end
    of input and the pass through the loop ends in [return 0]: the program
    terminates, control does not go back to the top-level loop. *)
Lemma eof_during_follow_up_ends_program :
  let m : gmap str UserKeyword :=
    {[ lit "foo" := {| snippet := lit "x = {a};" ++ nl; params := [(lit "a", lit "1")] |} ]} in
  let w := {| console_of := {| cin := [lit "foo"]; cout := [] |};
              disk_of := {| file := None; writable := true |} |} in
  main_step idle_handler m w =
    (Return 0,
     {| console_of :=
          {| cin := [];
             cout := lit "Enter keyword(s)> " ++ nl
                     ++ lit "Detected occurrences in order: [1] 'foo'(token 1)" ++ nl ++ nl
                     ++ lit "--- Asking about keyword occurrence 1: 'foo' (token 1) ---" ++ nl
                     ++ lit "[occurrence 1 (token 1)] Value for parameter 'a' [1]: "
                     ++ eof_followup_message |};
        disk_of := {| file := None; writable := true |} |})
  /\ forall m', fst (main_step idle_handler m w) <> Continue m'.
Proof.
  intros m w.
  assert (H : main_step idle_handler m w =
    (Return 0,
     {| console_of :=
          {| cin := [];
             cout := lit "Enter keyword(s)> " ++ nl
                     ++ lit "Detected occurrences in order: [1] 'foo'(token 1)" ++ nl ++ nl
                     ++ lit "--- Asking about keyword occurrence 1: 'foo' (token 1) ---" ++ nl
                     ++ lit "[occurrence 1 (token 1)] Value for parameter 'a' [1]: "
                     ++ eof_followup_message |};
        disk_of := {| file := None; writable := true |} |}))
    by (vm_compute; reflexivity).
  split; [exact H|]. intros m'. rewrite H. simpl. discriminate.
Qed.

(** C10 (amended). When a prompt meets end of input while the occurrences
    of an input line are processed, the pass through the loop ends in
    [return 0]: nothing is printed after what the prompts printed but the
    cancellation message (no program is assembled or displayed), and the
    keyword file is as it was when the processing of the occurrences
    began. *)
Theorem eof_during_follow_up_exits
    (handler : str -> Context -> str -> io (Parts * Context))
    (m m1 : gmap str UserKeyword) (w w1 : world) (line : str) (rest : list str)
    (c : ascii) (t : str) (c3 : console) :
  cin (console_of w) = line :: rest ->
  trim line = c :: t -> c <> ":"%char -> c :: t <> lit "exit" ->
  define_unknown_tokens (tokenize (c :: t)) m
    {| console_of := {| cin := rest;
                        cout := cout (console_of w) ++ lit "Enter keyword(s)> " |};
       disk_of := disk_of w |} = (Ok m1, w1) ->
  let occurrences := build_occurrences cpp17_keywords m1 0 (tokenize (c :: t)) in
  occurrences <> [] ->
  dispatch_all handler m1 occurrences 0 empty_context empty_parts
    {| cin := cin (console_of w1);
       cout := cout (console_of w1)
               ++ (nl ++ lit "Detected occurrences in order:"
                   ++ detected_text 0 occurrences ++ nl ++ nl) |}
    = (EOFExit, c3) ->
  main_step handler m w =
    (Return 0,
     {| console_of := {| cin := cin c3; cout := cout c3 ++ eof_followup_message |};
        disk_of := disk_of w1 |}).
Proof.
  intros Hcin Htrim Hcolon Hexit Hdefine occurrences Hocc Hdispatch.
  unfold main_step. cbv zeta.
  cbn [say console_of cin cout disk_of]. rewrite Hcin, Htrim.
  destruct (Ascii.eqb_spec c ":") as [->|_]; [done|].
  rewrite bool_decide_eq_false_2 by exact Hexit.
  unfold process_line. cbv zeta. rewrite Hdefine. fold occurrences.
  destruct occurrences as [|occ occs] eqn:Eocc; [done|].
  unfold liftc, say. cbn [console_of cin cout disk_of].
  rewrite Hdispatch. reflexivity.
Qed.

Lemma eof_during_follow_up_exits_witness :
  let m : gmap str UserKeyword :=
    {[ lit "foo" := {| snippet := lit "x = {a};" ++ nl; params := [(lit "a", lit "1")] |} ]} in
  let d := {| file := None; writable := true |} in
  let w := {| console_of := {| cin := [lit "foo"]; cout := [] |}; disk_of := d |} in
  let w1 := {| console_of := {| cin := []; cout := lit "Enter keyword(s)> " |};
               disk_of := d |} in
  let c3 := {| cin := [];
               cout := lit "Enter keyword(s)> " ++ nl
                       ++ lit "Detected occurrences in order: [1] 'foo'(token 1)" ++ nl ++ nl
                       ++ lit "--- Asking about keyword occurrence 1: 'foo' (token 1) ---" ++ nl
                       ++ lit "[occurrence 1 (token 1)] Value for parameter 'a' [1]: " |} in
  define_unknown_tokens (tokenize (lit "foo")) m w1 = (Ok m, w1)
  /\ main_step idle_handler m w =
     (Return 0,
      {| console_of := {| cin := cin c3; cout := cout c3 ++ eof_followup_message |};
         disk_of := disk_of w1 |}).
Proof.
  intros m d w w1 c3.
  assert (Hdefine : define_unknown_tokens (tokenize (lit "foo")) m w1 = (Ok m, w1))
    by (vm_compute; reflexivity).
  split; [exact Hdefine|].
  apply (eof_during_follow_up_exits idle_handler m m w w1 (lit "foo") []
           "f"%char (lit "oo") c3).
  - reflexivity.
  - vm_compute; reflexivity.
  - discriminate.
  - discriminate.
  - exact Hdefine.
  - vm_compute. discriminate.
  - vm_compute. reflexivity.
Defined.

(** * Further properties *)

(** ** [trim], [normalize_token], [split_csv], [tokenize], [tail_name] *)

Lemma strip_front_split p s :
  exists t, s = t ++ strip_front p s /\ Forall (fun c => p c = true) t.
Proof.
  induction s as [|c s [t [IH1 IH2]]]; simpl.
  - by exists [].
  - destruct (p c) eqn:E.
    + exists (c :: t). split; [simpl; by f_equal|by constructor].
    + by exists [].
Qed.

Lemma strip_back_split p s :
  exists t, s = strip_back p s ++ t /\ Forall (fun c => p c = true) t.
Proof.
  unfold strip_back. destruct (strip_front_split p (rev s)) as [t [H1 H2]].
  exists (rev t). split.
  - by rewrite <- rev_app_distr, <- H1, rev_involutive.
  - by apply Forall_rev.
Qed.

Lemma strip_both_split p s :
  exists a b, s = a ++ strip_back p (strip_front p s) ++ b
              /\ Forall (fun c => p c = true) a /\ Forall (fun c => p c = true) b.
Proof.
  destruct (strip_front_split p s) as [a [Ha Hpa]].
  destruct (strip_back_split p (strip_front p s)) as [b [Hb Hpb]].
  exists a, b. split; [|done]. by rewrite <- Hb.
Qed.

Lemma strip_both_head p s c s' :
  strip_back p (strip_front p s) = c :: s' -> p c = false.
Proof.
  intros Hs. destruct (strip_back_prefix p (strip_front p s)) as [t Ht].
  rewrite Hs in Ht. simpl in Ht. by apply strip_front_head in Ht.
Qed.

Lemma strip_both_idempotent p s :
  strip_back p (strip_front p (strip_back p (strip_front p s)))
  = strip_back p (strip_front p s).
Proof.
  rewrite strip_front_id by apply strip_both_head.
  apply strip_back_id. intros c. apply strip_back_last.
Qed.

(** X1. [trim] removes a run of whitespace at each end and nothing else:
    the input is the result between two runs of whitespace characters, the
    result neither starts nor ends with whitespace, and trimming again
    changes nothing. *)
Theorem trim_removes_outer_whitespace (s : str) :
  (exists a b, s = a ++ trim s ++ b
               /\ Forall (fun c => isspace c = true) a
               /\ Forall (fun c => isspace c = true) b)
  /\ head_ok (trim s) /\ last_ok (trim s)
  /\ trim (trim s) = trim s.
Proof.
  split; [apply strip_both_split|]. split; [|split].
  - intros c s'. apply strip_both_head.
  - intros c. apply strip_back_last.
  - apply strip_both_idempotent.
Qed.

Lemma ispunct_tolower c : ispunct (tolower c) = ispunct c.
Proof. destruct c as [[] [] [] [] [] [] [] []]; reflexivity. Qed.

Lemma tolower_not_upper c : between 65 90 (code (tolower c)) = false.
Proof. destruct c as [[] [] [] [] [] [] [] []]; reflexivity. Qed.

Lemma tolower_idempotent c : tolower (tolower c) = tolower c.
Proof. destruct c as [[] [] [] [] [] [] [] []]; reflexivity. Qed.

Lemma strip_front_map p (f : ascii -> ascii) s :
  (forall c, p (f c) = p c) ->
  strip_front p (map f s) = map f (strip_front p s).
Proof.
  intros Hf. induction s as [|c s IH]; simpl; [done|].
  rewrite Hf. by destruct (p c).
Qed.

Lemma strip_back_map p (f : ascii -> ascii) s :
  (forall c, p (f c) = p c) ->
  strip_back p (map f s) = map f (strip_back p s).
Proof.
  intros Hf. unfold strip_back.
  by rewrite <- map_rev, strip_front_map, map_rev.
Qed.

(** X2. [normalize_token] yields a normal form: normalising twice is
    normalising once, and the result has no upper-case letter and no
    punctuation character at either end. *)
Theorem normalize_token_normal_form (t : str) :
  normalize_token (normalize_token t) = normalize_token t
  /\ Forall (fun c => between 65 90 (code c) = false) (normalize_token t)
  /\ (forall c s', normalize_token t = c :: s' -> ispunct c = false)
  /\ (forall c, last (normalize_token t) = Some c -> ispunct c = false).
Proof.
  unfold normalize_token.
  set (u := strip_back ispunct (strip_front ispunct t)).
  assert (Hu : strip_back ispunct (strip_front ispunct u) = u)
    by apply strip_both_idempotent.
  split; [|split; [|split]].
  - rewrite strip_front_map, strip_back_map by apply ispunct_tolower.
    rewrite Hu, map_map. apply map_ext. intros c. apply tolower_idempotent.
  - apply Forall_map, Forall_forall. intros c _. apply tolower_not_upper.
  - intros c s' Hm. destruct u as [|c0 u'] eqn:Eu; [done|].
    injection Hm as <- _. rewrite ispunct_tolower.
    exact (strip_both_head ispunct t c0 u' Eu).
  - intros c Hl. change (map tolower u) with (tolower <$> u) in Hl.
    rewrite fmap_last in Hl. destruct (last u) as [c0|] eqn:El; [|done].
    injection Hl as <-. rewrite ispunct_tolower.
    exact (strip_back_last ispunct (strip_front ispunct t) c0 El).
Qed.

Lemma trim_keeps_absent c s : c ∉ s -> c ∉ trim s.
Proof.
  intros Hc Hin. apply Hc.
  destruct (strip_both_split isspace s) as (a & b & Hs & _).
  fold (trim s) in Hs. rewrite Hs. set_solver.
Qed.

(** X3. Every item that [split_csv] returns is trimmed and holds no comma;
    a text without a comma is one item, its trimmed self, and the empty
    text has no item. *)
Theorem split_csv_items (s : str) :
  Forall (fun item => trim item = item /\ "," ∉ item) (split_csv s)
  /\ ("," ∉ s -> s <> [] -> split_csv s = [trim s])
  /\ split_csv [] = [].
Proof.
  split; [|split; [|done]].
  - unfold split_csv. apply Forall_map.
    eapply Forall_impl; [apply getlines_on_no_delim|].
    intros item Hitem. simpl. split; [apply trim_idempotent|].
    by apply trim_keeps_absent.
  - intros Hc Hs. unfold split_csv. by rewrite getlines_on_single.
Qed.

Lemma tokenize_nonspace_head c s : isspace c = false -> tokenize (c :: s) <> [].
Proof.
  intros Hc. simpl. rewrite Hc. destruct s as [|c' s]; [done|].
  destruct (isspace c'); [done|]. by destruct (tokenize (c' :: s)).
Qed.

Lemma tokenize_space_app a w b :
  isspace w = true -> tokenize (a ++ w :: b) = tokenize a ++ tokenize b.
Proof.
  intros Hw. induction a as [|c a IH].
  - simpl. by rewrite Hw.
  - change ((c :: a) ++ w :: b) with (c :: (a ++ w :: b)).
    cbn [tokenize]. destruct (isspace c) eqn:Ec; [exact IH|].
    destruct a as [|c' a].
    + change ([] ++ w :: b) with (w :: b) in *. cbv iota. rewrite Hw.
      by rewrite IH.
    + change ((c' :: a) ++ w :: b) with (c' :: (a ++ w :: b)) in *. cbv iota.
      destruct (isspace c') eqn:Ec'; [by rewrite IH|].
      rewrite IH. pose proof (tokenize_nonspace_head c' a Ec') as Hne.
      by destruct (tokenize (c' :: a)).
Qed.

Lemma tokenize_word t :
  t <> [] -> Forall (fun c => isspace c = false) t -> tokenize t = [t].
Proof.
  intros Hne Ht. induction Ht as [|c t Hc Ht IH]; [done|].
  cbn [tokenize]. rewrite Hc. destruct t as [|c' t]; [done|].
  inversion Ht as [|? ? Hc' _]; subst. rewrite Hc'. by rewrite IH.
Qed.

Lemma tokenize_leading a s :
  Forall (fun c => isspace c = true) a -> tokenize (a ++ s) = tokenize s.
Proof. induction 1 as [|c a Hc _ IH]; [done|]. simpl. by rewrite Hc. Qed.

Lemma tokenize_spaces b : Forall (fun c => isspace c = true) b -> tokenize b = [].
Proof. intros Hb. rewrite <- (app_nil_r b). by rewrite tokenize_leading. Qed.

Lemma tokenize_trailing s b :
  Forall (fun c => isspace c = true) b -> tokenize (s ++ b) = tokenize s.
Proof.
  intros Hb. destruct Hb as [|w b Hw Hb]; [by rewrite app_nil_r|].
  rewrite tokenize_space_app by done.
  by rewrite (tokenize_spaces b Hb), app_nil_r.
Qed.

(** X4. Whitespace only separates tokens: a whitespace character splits
    the token list of a line in two, and whitespace around a line does not
    change its tokens (nor, therefore, their positions). *)
Theorem tokenize_splits_at_whitespace :
  (forall a w b, isspace w = true -> tokenize (a ++ w :: b) = tokenize a ++ tokenize b)
  /\ (forall s, tokenize (trim s) = tokenize s).
Proof.
  split; [apply tokenize_space_app|].
  intros s. destruct (strip_both_split isspace s) as (a & b & Hs & Ha & Hb).
  fold (trim s) in Hs. rewrite Hs at 2.
  by rewrite tokenize_leading, tokenize_trailing.
Qed.

(** X5. Words that are not empty and hold no whitespace, each followed by
    one blank, are read back by [tokenize] as the same list of words. *)
Theorem tokenize_reads_back_words (ws : list str) :
  Forall (fun t => t <> [] /\ Forall (fun c => isspace c = false) t) ws ->
  tokenize (concat (map (fun t => t ++ lit " ") ws)) = ws.
Proof.
  induction 1 as [|t ws [Hne Ht] _ IH]; [done|].
  cbn [map concat]. rewrite <- app_assoc.
  change (lit " " ++ ?r) with (" " :: r).
  rewrite tokenize_space_app by done. by rewrite tokenize_word, IH.
Qed.

Lemma tokenize_reads_back_words_witness :
  Forall (fun t => t <> [] /\ Forall (fun c => isspace c = false) t)
         [lit "for"; lit "(int"; lit "i=0;)"]
  /\ tokenize (lit "for (int i=0;) ") = [lit "for"; lit "(int"; lit "i=0;)"].
Proof.
  assert (H : Forall (fun t => t <> [] /\ Forall (fun c => isspace c = false) t)
                     [lit "for"; lit "(int"; lit "i=0;)"]).
  { repeat (constructor; [split; [discriminate|repeat constructor]|]). constructor. }
  split; [exact H|].
  exact (tokenize_reads_back_words [lit "for"; lit "(int"; lit "i=0;)"] H).
Defined.

Lemma occurs_at_cons tok c s k :
  occurs_at tok (c :: s) (S k) <-> occurs_at tok s k.
Proof. rewrite !occurs_at_starts_with. simpl. split; intros [? ?]; split; [lia|done|lia|done]. Qed.

Lemma rfind_aux_None tok s : forall i,
  rfind_aux tok s i = None -> forall k, ~ occurs_at tok s k.
Proof.
  induction s as [|c s IH]; intros i H k Hk.
  - simpl in H. destruct (starts_with tok []) eqn:E; [done|].
    apply occurs_at_starts_with in Hk as [Hle Hst].
    simpl in Hle. assert (k = 0) as -> by lia. simpl in Hst. congruence.
  - cbn [rfind_aux] in H. destruct (rfind_aux tok s (S i)) eqn:Er; [done|].
    destruct (starts_with tok (c :: s)) eqn:E; [done|].
    destruct k as [|k].
    + apply occurs_at_starts_with in Hk as [_ Hst]. simpl in Hst. congruence.
    + apply occurs_at_cons in Hk. exact (IH _ Er k Hk).
Qed.

Lemma rfind_aux_Some tok s : forall i p,
  rfind_aux tok s i = Some p ->
  exists pre rest, s = pre ++ tok ++ rest /\ p = i + length pre /\
    forall k, length pre < k -> ~ occurs_at tok s k.
Proof.
  induction s as [|c s IH]; intros i p H.
  - simpl in H. destruct (starts_with tok []) eqn:E; [|done]. injection H as <-.
    apply starts_with_true in E as [r Hr]. exists [], r. split; [done|].
    split; [simpl; lia|]. intros k Hk Ho.
    apply occurs_at_starts_with in Ho as [Hle _]. simpl in *. lia.
  - cbn [rfind_aux] in H. destruct (rfind_aux tok s (S i)) as [j|] eqn:Er.
    + injection H as <-. destruct (IH _ _ Er) as (pre & rest & Hs & Hj & Hlast).
      exists (c :: pre), rest. split; [by rewrite Hs|]. split; [simpl; lia|].
      intros k Hk Ho. destruct k as [|k]; [simpl in Hk; lia|].
      apply occurs_at_cons in Ho. apply (Hlast k); [simpl in Hk; lia|done].
    + destruct (starts_with tok (c :: s)) eqn:E; [|done]. injection H as <-.
      apply starts_with_true in E as [r Hr]. exists [], r.
      split; [done|]. split; [simpl; lia|]. intros k Hk Ho.
      destruct k as [|k]; [simpl in Hk; lia|].
      apply occurs_at_cons in Ho. exact (rfind_aux_None _ _ _ Er k Ho).
Qed.

Lemma occurs_at_drop tok s n k :
  n <= length s -> occurs_at tok (drop n s) k -> occurs_at tok s (n + k).
Proof.
  intros Hn. rewrite !occurs_at_starts_with. rewrite length_drop, drop_drop.
  intros [? ?]. split; [lia|done].
Qed.

(** X6. [tail_name] returns a suffix of its argument in which [::] does
    not occur; an argument without [::] is returned unchanged, and
    [a::b] gives [b] when [b] holds no [::] and does not start with a
    colon. *)
Theorem tail_name_is_last_component (qualified : str) :
  (exists pre, qualified = pre ++ tail_name qualified)
  /\ free_of (lit "::") (tail_name qualified)
  /\ (free_of (lit "::") qualified -> tail_name qualified = qualified)
  /\ (forall a b, qualified = a ++ lit "::" ++ b ->
        free_of (lit "::") b -> head b <> Some ":" -> tail_name qualified = b).
Proof.
  unfold tail_name, rfind, substr_from.
  destruct (rfind_aux (lit "::") qualified 0) as [p|] eqn:Er.
  - apply rfind_aux_Some in Er as (pre & rest & Hq & Hp & Hlast). simpl in Hp. subst p.
    assert (Hdrop : drop (length pre + 2) qualified = rest).
    { rewrite Hq. rewrite drop_app_add'; [|done].
      rewrite (drop_app_length' (lit "::") rest 2); done. }
    rewrite Hdrop. split; [|split; [|split]].
    + exists (pre ++ lit "::"). by rewrite <- app_assoc.
    + intros k Ho. apply (Hlast (length pre + 2 + k)); [lia|].
      rewrite <- Hdrop in Ho. apply occurs_at_drop in Ho; [done|].
      rewrite Hq, !length_app. simpl. lia.
    + intros Hfree. exfalso. apply (Hfree (length pre)). by exists pre, rest.
    + intros a b Hab Hb Hhead.
      assert (Ha : occurs_at (lit "::") qualified (length a)) by (by exists a, b).
      assert (Hpre : occurs_at (lit "::") qualified (length pre)) by (by exists pre, rest).
      destruct (decide (length pre = length a)) as [Heq|Hne].
      * rewrite Hab in Hq. apply app_inj_1 in Hq as [_ Hq]; [|done].
        by apply app_inv_head in Hq.
      * exfalso. destruct (decide (length pre < length a)) as [Hlt|Hge].
        { exact (Hlast _ Hlt Ha). }
        apply occurs_at_starts_with in Hpre as [_ Hst].
        rewrite Hab in Hst.
        destruct (decide (length pre = S (length a))) as [H1|H1].
        -- rewrite H1 in Hst.
           replace (S (length a)) with (length a + 1) in Hst by lia.
           rewrite drop_app_add' in Hst by done.
           change (drop 1 (lit "::" ++ b)) with (":" :: b) in Hst.
           apply starts_with_true in Hst as [r Hr].
           destruct b as [|c b]; [done|]. injection Hr as -> _. by apply Hhead.
        -- apply (Hb (length pre - length a - 2)).
           apply occurs_at_starts_with. split.
           ++ assert (length pre + 2 <= length qualified).
              { rewrite Hq, !length_app. simpl. lia. }
              rewrite Hab, !length_app in H. simpl in H. lia.
           ++ replace (length pre) with (length a + (2 + (length pre - length a - 2))) in Hst by lia.
              rewrite drop_app_add' in Hst by done.
              by rewrite <- drop_drop in Hst.
  - pose proof (rfind_aux_None _ _ _ Er) as Hnone.
    split; [by exists []|]. split; [exact Hnone|]. split; [done|].
    intros a b Hab _ _. exfalso. apply (Hnone (length a)). by exists a, b.
Qed.

(** ** Include keys and the assembler *)

Lemma normalize_include_trimmed s front r back :
  trim s = s -> s = front :: r -> last s = Some back ->
  normalize_include_for_key s =
  if Ascii.eqb front "<" && Ascii.eqb back ">" then s
  else if Ascii.eqb front dquote && Ascii.eqb back dquote then s
  else lit "<" ++ s ++ lit ">".
Proof.
  intros Hs Es El. unfold normalize_include_for_key. cbv zeta. rewrite Hs.
  subst s. by rewrite El.
Qed.

Lemma bracketed_trimmed s : trim (lit "<" ++ s ++ lit ">") = lit "<" ++ s ++ lit ">".
Proof.
  apply trim_id.
  - intros c s' H. by injection H as <- _.
  - intros c H. change (lit "<" ++ s ++ lit ">") with (("<" :: s) ++ [">"]) in H.
    rewrite last_snoc in H. by injection H as <-.
Qed.

(** X7. [normalize_include_for_key] yields a normal form: applying it to
    its own result changes nothing. The key is empty exactly when the
    trimmed input is, and a key that is not empty is enclosed in angle
    brackets or in double quotes. *)
Theorem include_key_normal_form (raw : str) :
  let k := normalize_include_for_key raw in
  normalize_include_for_key k = k
  /\ (k = [] <-> trim raw = [])
  /\ (k <> [] ->
      (head k = Some "<" /\ last k = Some ">")
      \/ (head k = Some dquote /\ last k = Some dquote)).
Proof.
  cbv zeta. pose proof (trim_idempotent raw) as Hs.
  unfold normalize_include_for_key at 2 3 4 5 6 7 8 9. cbv zeta.
  revert Hs. generalize (trim raw). intros s Hs.
  destruct s as [|front r] eqn:Es; [done|].
  destruct (last (front :: r)) as [back|] eqn:El; [|by apply last_None in El].
  rewrite <- Es in *.
  assert (Hhead : head s = Some front) by (by rewrite Es).
  assert (Hne : s <> []) by (by rewrite Es).
  destruct (Ascii.eqb front "<" && Ascii.eqb back ">") eqn:E1;
    [|destruct (Ascii.eqb front dquote && Ascii.eqb back dquote) eqn:E2].
  - split; [|split; [done|]].
    + by rewrite (normalize_include_trimmed s front r back Hs Es El), E1.
    + intros _. left. apply andb_true_iff in E1 as [Ha Hb].
      apply Ascii.eqb_eq in Ha, Hb. by subst front back.
  - split; [|split; [done|]].
    + by rewrite (normalize_include_trimmed s front r back Hs Es El), E1, E2.
    + intros _. right. apply andb_true_iff in E2 as [Ha Hb].
      apply Ascii.eqb_eq in Ha, Hb. by subst front back.
  - assert (Hl : last (lit "<" ++ s ++ lit ">") = Some ">").
    { change (lit "<" ++ s ++ lit ">") with (("<" :: s) ++ [">"]). apply last_snoc. }
    split; [|split; [done|]].
    + by rewrite (normalize_include_trimmed _ "<" (s ++ lit ">") ">"
                    (bracketed_trimmed s) eq_refl Hl).
    + intros _. left. by split.
Qed.

Lemma include_key_idempotent raw :
  normalize_include_for_key (normalize_include_for_key raw)
  = normalize_include_for_key raw.
Proof. exact (proj1 (include_key_normal_form raw)). Qed.

(** X8. The assembled program depends on the collected includes only
    through the set of their texts: order and repetition of the collected
    list do not change the program. *)
Theorem program_depends_on_include_set
    (body_lines extra_top incs incs' : list str) :
  (forall h, h ∈ incs <-> h ∈ incs') ->
  make_program_from_body_lines body_lines incs extra_top
  = make_program_from_body_lines body_lines incs' extra_top.
Proof.
  intros Hset. unfold make_program_from_body_lines.
  assert (include_keys incs = include_keys incs') as ->; [|done].
  apply set_eq. intros k. rewrite !elem_of_include_keys.
  split; intros (h & Hh & Hk); exists h; (split; [by apply Hset|done]).
Qed.

Lemma program_depends_on_include_set_witness :
  (forall h, h ∈ [lit "<map>"; lit "vector"; lit "<map>"] <-> h ∈ [lit "vector"; lit "<map>"])
  /\ make_program_from_body_lines [lit "f();"] [lit "<map>"; lit "vector"; lit "<map>"] []
     = make_program_from_body_lines [lit "f();"] [lit "vector"; lit "<map>"] [].
Proof.
  assert (H : forall h, h ∈ [lit "<map>"; lit "vector"; lit "<map>"]
                        <-> h ∈ [lit "vector"; lit "<map>"]).
  { intros h. rewrite !elem_of_cons. tauto. }
  split; [exact H|].
  exact (program_depends_on_include_set [lit "f();"] [] _ _ H).
Defined.

(** X9. The assembler gives the same program for a list of includes and
    for the sorted list of keys it derives from it, and the core include,
    spelled with or without its brackets, adds nothing to a list. *)
Theorem assembled_includes_are_stable (body_lines extra_top incs : list str) :
  make_program_from_body_lines body_lines (set_elements (include_keys incs)) extra_top
  = make_program_from_body_lines body_lines incs extra_top
  /\ make_program_from_body_lines body_lines
       (lit "<iostream>" :: lit "iostream" :: incs) extra_top
     = make_program_from_body_lines body_lines incs extra_top.
Proof.
  unfold make_program_from_body_lines. split.
  - assert (include_keys (set_elements (include_keys incs)) = include_keys incs)
      as ->; [|done].
    apply set_eq. intros k. rewrite !elem_of_include_keys. split.
    + intros (h & Hh & Hk & Hkept). apply elem_of_set_elements in Hh.
      apply elem_of_include_keys in Hh as (h0 & Hh0 & -> & _).
      rewrite include_key_idempotent in Hk. by exists h0.
    + intros (h & Hh & Hk & Hkept). exists k. split; [|split; [|done]].
      * apply elem_of_set_elements, elem_of_include_keys. by exists h.
      * subst k. by rewrite include_key_idempotent.
  - assert (include_keys (lit "<iostream>" :: lit "iostream" :: incs) = include_keys incs)
      as ->; [|done].
    apply set_eq. intros k. rewrite !elem_of_include_keys. split.
    + intros (h & Hh & Hk & Hne & Hio). exists h. split; [|done].
      apply elem_of_cons in Hh as [->|Hh]; [by subst k|].
      apply elem_of_cons in Hh as [->|Hh]; [by subst k|done].
    + intros (h & Hh & Hk). exists h. split; [|done]. rewrite !elem_of_cons. by right; right.
Qed.

(** ** The loader on a file of complete blocks *)

Lemma load_step_skip m line :
  no_opener line -> load_step (outside m) line = outside m.
Proof.
  intros Hno. unfold load_step, outside. cbn [in_entry negb].
  destruct (starts_with (lit "===KEYWORD:") line) eqn:Est; [|done].
  destruct (marker_field line) as [f|] eqn:Ef; [|done].
  exfalso. apply (Hno (trim f)). split; [done|]. by exists f.
Qed.

Lemma load_skip ls : forall m,
  Forall no_opener ls -> fold_left load_step ls (outside m) = outside m.
Proof.
  induction ls as [|l ls IH]; intros m Hls; [done|].
  inversion Hls as [|? ? Hl Hrest]; subst. simpl.
  rewrite load_step_skip by done. by apply IH.
Qed.

Lemma load_blocks blocks : forall m rest,
  Forall well_formed_block blocks ->
  fold_left load_step (concat (map block_text blocks) ++ rest) (outside m) =
  fold_left load_step rest
    (outside (fold_left (fun m b => <[block_key b := block_entry (block_lines b)]> m)
                        blocks m)).
Proof.
  induction blocks as [|b blocks IH]; intros m rest Hwf; [done|].
  inversion Hwf as [|? ? (Hskip & Hopen & Hend) Hrest]; subst.
  cbn [map concat fold_left]. unfold block_text at 1.
  rewrite <- !app_assoc. rewrite fold_left_app, load_skip by done.
  change (fold_left load_step ((opener b :: block_lines b ++ [END_MARK])
                               ++ concat (map block_text blocks) ++ rest) (outside m))
    with (fold_left load_step ((opener b :: block_lines b ++ [END_MARK])
                               ++ (concat (map block_text blocks) ++ rest)) (outside m)).
  rewrite fold_left_app, (load_block _ _ _ _ Hopen Hend). by apply IH.
Qed.

(** X10. On a file made of complete blocks, with lines that open no block
    before, between and after them, the loader stores one entry per block,
    under the trimmed name of its opening line, with the parameters and the
    body its lines accumulate; the blocks are stored in file order, so of
    two blocks with one name the later one is kept. *)
Theorem load_file_of_complete_blocks
    (content : str) (blocks : list file_block) (trailing : list str) :
  getlines content = concat (map block_text blocks) ++ trailing ->
  Forall well_formed_block blocks ->
  Forall no_opener trailing ->
  load_user_keywords (Some content)
  = fold_left (fun m b => <[block_key b := block_entry (block_lines b)]> m) blocks ∅.
Proof.
  intros Hlines Hwf Htrail. unfold load_user_keywords. rewrite Hlines.
  change loader_init with (outside ∅).
  rewrite load_blocks by done. by rewrite load_skip.
Qed.

Lemma no_opener_plain line :
  starts_with (lit "===KEYWORD:") line = false -> no_opener line.
Proof. intros H key [Hst _]. congruence. Qed.

Lemma load_file_of_complete_blocks_witness :
  let content :=
    lit "# my macros" ++ nl
    ++ lit "===KEYWORD:a===" ++ nl ++ lit "x" ++ nl ++ lit "===END===" ++ nl
    ++ nl
    ++ lit "===KEYWORD: a ===" ++ nl ++ lit "===PARAMS:p=1===" ++ nl ++ lit "y" ++ nl
    ++ lit "===END===" ++ nl
    ++ lit "===END===" ++ nl in
  let blocks :=
    [ {| skipped := [lit "# my macros"]; opener := lit "===KEYWORD:a===";
         block_key := lit "a"; block_lines := [lit "x"] |};
      {| skipped := [[]]; opener := lit "===KEYWORD: a ===";
         block_key := lit "a";
         block_lines := [lit "===PARAMS:p=1==="; lit "y"] |} ] in
  getlines content = concat (map block_text blocks) ++ [lit "===END==="]
  /\ Forall well_formed_block blocks
  /\ Forall no_opener [lit "===END==="]
  /\ load_user_keywords (Some content)
     = {[ lit "a" := {| snippet := lit "y" ++ nl; params := [(lit "p", lit "1")] |} ]}.
Proof.
  intros content blocks.
  assert (H1 : getlines content = concat (map block_text blocks) ++ [lit "===END==="])
    by (vm_compute; reflexivity).
  assert (H2 : Forall well_formed_block blocks).
  { constructor; [|constructor; [|constructor]].
    - split; [|split].
      + constructor; [|constructor]. apply no_opener_plain. reflexivity.
      + split; [reflexivity|]. exists (lit "a"). split; reflexivity.
      + cbn [block_lines]. intros H. apply list_elem_of_singleton in H. discriminate H.
    - split; [|split].
      + constructor; [|constructor]. apply no_opener_plain. reflexivity.
      + split; [reflexivity|]. exists (lit " a "). split; reflexivity.
      + cbn [block_lines]. intros H.
        apply elem_of_cons in H as [H|H]; [discriminate H|].
        apply list_elem_of_singleton in H. discriminate H. }
  assert (H3 : Forall no_opener [lit "===END==="]).
  { constructor; [|constructor]. apply no_opener_plain. reflexivity. }
  split; [exact H1|]. split; [exact H2|]. split; [exact H3|].
  rewrite (load_file_of_complete_blocks content blocks [lit "===END==="] H1 H2 H3).
  vm_compute. reflexivity.
Defined.

(** ** Parameter lists *)

Lemma no_char_before c pre post :
  (forall k, k < length pre -> ~ occurs_at [c] (pre ++ [c] ++ post) k) -> c ∉ pre.
Proof.
  intros H Hin. apply list_elem_of_split in Hin as (l1 & l2 & ->).
  apply (H (length l1)).
  - rewrite length_app. simpl. lia.
  - exists l1, (l2 ++ [c] ++ post). split; [|done].
    by rewrite <- !app_assoc.
Qed.

Lemma no_char_free c s : free_of [c] s -> c ∉ s.
Proof.
  intros H Hin. apply list_elem_of_split in Hin as (l1 & l2 & ->).
  apply (H (length l1)). by exists l1, l2.
Qed.

Lemma parse_param_storable p pp :
  newline ∉ p -> "," ∉ p -> parse_param p = Some pp -> storable_param pp.
Proof.
  intros Hnl Hcomma. unfold parse_param. cbv zeta.
  destruct (find (lit "=") p 0) as [e|] eqn:Ef.
  - apply find_Some in Ef as (pre & rest & Hp & He & _ & Hfirst).
    rewrite drop_0 in Hp, Hfirst. simpl in He. subst e.
    assert (Hpre : substr p 0 (length pre) = pre).
    { unfold substr. rewrite drop_0, Hp. by rewrite take_app_length. }
    assert (Hrest : substr_from p (length pre + 1) = rest).
    { unfold substr_from. rewrite Hp. rewrite drop_app_add' by done. done. }
    rewrite Hpre, Hrest.
    assert (Heq : "=" ∉ pre).
    { apply (no_char_before "=" pre rest). intros k Hk.
      specialize (Hfirst k Hk). rewrite Hp in Hfirst. exact Hfirst. }
    assert (Hin_pre : forall c, c ∉ p -> c ∉ pre).
    { intros c Hc Hin. apply Hc. rewrite Hp. set_solver. }
    assert (Hin_rest : forall c, c ∉ p -> c ∉ rest).
    { intros c Hc Hin. apply Hc. rewrite Hp. set_solver. }
    destruct (trim pre) as [|c name] eqn:En; [done|]. intros H. injection H as <-.
    rewrite <- En. unfold storable_param. cbn [fst snd].
    rewrite !trim_idempotent.
    repeat split; try done; try (apply trim_keeps_absent; auto).
    by rewrite En.
  - assert (Heq : "=" ∉ p) by (apply no_char_free, free_of_find; exact Ef).
    destruct (trim p) as [|c name] eqn:En; [done|]. intros H. injection H as <-.
    rewrite <- En. unfold storable_param. cbn [fst snd].
    rewrite !trim_idempotent.
    repeat split; try done; try (apply trim_keeps_absent; auto);
      try apply not_elem_of_nil.
    by rewrite En.
Qed.

(** X11. Whatever one line of text holds, the parameters [parse_params]
    reads from it have names that are not empty and hold no [=] or [,],
    and names and defaults that are trimmed; written out by the saver's
    loop and parsed again they are the same list. *)
Theorem parsed_params_are_stable (paramstr : str) :
  newline ∉ paramstr ->
  Forall storable_param (parse_params paramstr)
  /\ parse_params (join_params (parse_params paramstr)) = parse_params paramstr.
Proof.
  intros Hnl.
  assert (H : Forall storable_param (parse_params paramstr)).
  { apply Forall_forall. intros pp Hpp. unfold parse_params in Hpp.
    apply list_elem_of_omap in Hpp as (p & Hp & Hparse).
    unfold split_csv in Hp.
    change (map trim ?l) with (trim <$> l) in Hp.
    apply list_elem_of_fmap in Hp as (x & -> & Hx).
    pose proof (getlines_on_no_delim "," paramstr) as Hno.
    rewrite Forall_forall in Hno. specialize (Hno x Hx).
    assert (Hnlx : newline ∉ x).
    { intros Hin. apply Hnl. clear -Hx Hin. revert x Hx Hin.
      induction paramstr as [|c s IH]; intros x Hx Hin; simpl in Hx.
      - by apply elem_of_nil in Hx.
      - destruct (Ascii.eqb c ",").
        + apply elem_of_cons in Hx as [->|Hx]; [by apply elem_of_nil in Hin|].
          right. by apply (IH x).
        + destruct (getlines_on "," s) as [|l ls] eqn:E.
          * apply list_elem_of_singleton in Hx as ->.
            apply list_elem_of_singleton in Hin as ->. left.
          * apply elem_of_cons in Hx as [->|Hx].
            -- apply elem_of_cons in Hin as [->|Hin]; [left|].
               right. apply (IH l); [left|done].
            -- right. apply (IH x); [by right|done]. }
    apply (parse_param_storable (trim x) pp); [| |done];
      by apply trim_keeps_absent. }
  split; [exact H|]. by apply parse_params_join.
Qed.

Lemma parsed_params_are_stable_witness :
  (newline ∉ lit " a = 1 ,,=x, b=c=d ,e")
  /\ parse_params (lit " a = 1 ,,=x, b=c=d ,e")
     = [(lit "a", lit "1"); (lit "b", lit "c=d"); (lit "e", [])]
  /\ Forall storable_param (parse_params (lit " a = 1 ,,=x, b=c=d ,e")).
Proof.
  assert (H : newline ∉ lit " a = 1 ,,=x, b=c=d ,e").
  { apply newline_not_in_literal. vm_compute. reflexivity. }
  split; [exact H|]. split; [vm_compute; reflexivity|].
  exact (proj1 (parsed_params_are_stable _ H)).
Defined.

(** ** Expansion and normalisation *)

Lemma replace_all_absent s tok repl : free_of tok s -> replace_all s tok repl = s.
Proof.
  intros Hfree. unfold replace_all. destruct tok as [|c tok]; [done|].
  cbn [replace_all_loop]. by rewrite (proj2 (find_0_None _ _) Hfree).
Qed.

Lemma substitute_params_absent ps values s :
  Forall (fun pp => free_of (placeholder (fst pp)) s) ps ->
  substitute_params ps values s = s.
Proof.
  unfold substitute_params. induction 1 as [|pp ps Hpp _ IH]; [done|].
  cbn [fold_left]. by rewrite replace_all_absent.
Qed.

(** X12. A text in which no placeholder of the declared parameters occurs
    is left unchanged by the expansion, whatever values are supplied; so
    is a text when no parameter is declared. *)
Theorem expansion_without_placeholders
    (ps : list (str * str)) (values : gmap str str) (s : str) :
  Forall (fun pp => free_of (placeholder (fst pp)) s) ps ->
  substitute_params ps values s = s
  /\ substitute_params [] values s = s.
Proof. intros H. split; [by apply substitute_params_absent|reflexivity]. Qed.

Lemma expansion_without_placeholders_witness :
  Forall (fun pp => free_of (placeholder (fst pp)) (lit "{ return a; } // b"))
         [(lit "a", lit "1"); (lit "b", lit "2")]
  /\ substitute_params [(lit "a", lit "1"); (lit "b", lit "2")]
       {[ lit "a" := lit "7" ]} (lit "{ return a; } // b")
     = lit "{ return a; } // b".
Proof.
  assert (H : Forall (fun pp => free_of (placeholder (fst pp)) (lit "{ return a; } // b"))
                     [(lit "a", lit "1"); (lit "b", lit "2")]).
  { constructor; [|constructor; [|constructor]]; apply free_of_find; reflexivity. }
  split; [exact H|].
  exact (proj1 (expansion_without_placeholders _ {[ lit "a" := lit "7" ]} _ H)).
Defined.

Lemma strip_front_leading p a s :
  Forall (fun c => p c = true) a -> strip_front p (a ++ s) = strip_front p s.
Proof. induction 1 as [|c a Hc _ IH]; [done|]. simpl. by rewrite Hc. Qed.

Lemma strip_front_all p a : Forall (fun c => p c = true) a -> strip_front p a = [].
Proof. intros H. rewrite <- (app_nil_r a). by rewrite strip_front_leading. Qed.

Lemma strip_front_app p s b :
  strip_front p s <> [] -> strip_front p (s ++ b) = strip_front p s ++ b.
Proof.
  induction s as [|c s IH]; [done|]. simpl. destruct (p c); [exact IH|done].
Qed.

Lemma strip_back_trailing p s b :
  Forall (fun c => p c = true) b -> strip_back p (s ++ b) = strip_back p s.
Proof.
  intros Hb. unfold strip_back. rewrite rev_app_distr.
  rewrite strip_front_leading; [done|]. by apply Forall_rev.
Qed.

Lemma normalize_token_decorated pre t post :
  Forall (fun c => ispunct c = true) pre ->
  Forall (fun c => ispunct c = true) post ->
  normalize_token (pre ++ t ++ post) = normalize_token t.
Proof.
  intros Hpre Hpost. unfold normalize_token. f_equal.
  rewrite strip_front_leading by done.
  destruct (strip_front ispunct t) as [|c u] eqn:Et.
  - destruct (strip_front_split ispunct t) as (a & Ha & Hpa).
    rewrite Et, app_nil_r in Ha. subst a.
    rewrite strip_front_all; [done|]. by apply Forall_app.
  - rewrite strip_front_app by (by rewrite Et). rewrite Et.
    by apply strip_back_trailing.
Qed.

Lemma keywords_normal :
  forallb (fun k => bool_decide (normalize_token k = k /\ k <> [])) cpp17_keyword_list = true.
Proof. vm_compute. reflexivity. Qed.

(** X13. Punctuation around a token does not change what it is taken for:
    a built-in keyword wrapped in punctuation characters normalises to the
    keyword itself and is recognised, whatever the store holds. *)
Theorem decorated_keyword_is_recognised
    (k pre post : str) (user_keywords : gmap str UserKeyword) :
  k ∈ cpp17_keywords ->
  Forall (fun c => ispunct c = true) pre ->
  Forall (fun c => ispunct c = true) post ->
  normalize_token (pre ++ k ++ post) = k
  /\ recognised cpp17_keywords user_keywords (pre ++ k ++ post)
  /\ forall i, build_occurrences cpp17_keywords user_keywords i [pre ++ k ++ post]
               = [(k, int_of_size (i + 1))].
Proof.
  intros Hk Hpre Hpost.
  assert (Hnorm : normalize_token k = k /\ k <> []).
  { pose proof keywords_normal as Hall. rewrite forallb_forall in Hall.
    apply (bool_decide_eq_true_1 _). apply Hall. apply list_elem_of_In.
    with_strategy transparent [cpp17_keywords] unfold cpp17_keywords in Hk.
    by apply elem_of_list_to_set in Hk. }
  destruct Hnorm as [Hnorm Hne].
  assert (Hn : normalize_token (pre ++ k ++ post) = k)
    by (by rewrite normalize_token_decorated).
  assert (Hrec : recognised cpp17_keywords user_keywords (pre ++ k ++ post)).
  { unfold recognised. rewrite Hn. split; [exact Hne|]. left. exact Hk. }
  split; [exact Hn|]. split; [exact Hrec|].
  intros i. rewrite build_occurrences_cons.
  destruct (decide (recognised cpp17_keywords user_keywords (pre ++ k ++ post)))
    as [_|Hno]; [|exact (False_ind _ (Hno Hrec))].
  rewrite Hn. reflexivity.
Qed.

Lemma decorated_keyword_is_recognised_witness :
  (lit "while" ∈ cpp17_keywords)
  /\ normalize_token (lit "(" ++ lit "while" ++ lit ");") = lit "while"
  /\ recognised cpp17_keywords ∅ (lit "(" ++ lit "while" ++ lit ");").
Proof.
  assert (Hk : lit "while" ∈ cpp17_keywords).
  { apply (bool_decide_eq_true_1 (lit "while" ∈ cpp17_keywords)).
    vm_compute. reflexivity. }
  assert (Hpre : Forall (fun c => ispunct c = true) (lit "(")).
  { repeat constructor. }
  assert (Hpost : Forall (fun c => ispunct c = true) (lit ");")).
  { repeat constructor. }
  split; [exact Hk|].
  pose proof (decorated_keyword_is_recognised (lit "while") (lit "(") (lit ");") ∅
                Hk Hpre Hpost) as (H1 & H2 & _).
  split; [exact H1|exact H2].
Defined.

(** ** Prompts *)

Lemma ask_any prompt def c line rest :
  cin c = line :: rest ->
  ask prompt def c =
  (Ok (answer def line), {| cin := rest; cout := cout c ++ ask_prompt prompt def |}).
Proof.
  intros Hc. unfold ask, prompt_opt, bind, print, getline_or_throw.
  cbn [cin cout]. rewrite Hc. by destruct line.
Qed.

Lemma ask_eof prompt def c :
  cin c = [] ->
  ask prompt def c = (EOFExit, {| cin := []; cout := cout c ++ ask_prompt prompt def |}).
Proof.
  intros Hc. unfold ask, prompt_opt, bind, print, getline_or_throw.
  cbn [cin cout]. by rewrite Hc.
Qed.

(** X14. [ask] prints the prompt with the default in brackets and reads
    one line: the line is the answer unless it is empty, in which case the
    default is; at end of input the prompt is still printed and [EOFExit]
    is raised. *)
Theorem ask_reads_one_line (prompt def : str) (c : console) :
  match cin c with
  | [] =>
      ask prompt def c
      = (EOFExit, {| cin := []; cout := cout c ++ prompt ++ lit " [" ++ def ++ lit "]: " |})
  | line :: rest =>
      ask prompt def c
      = (Ok (if decide (line = []) then def else line),
         {| cin := rest; cout := cout c ++ prompt ++ lit " [" ++ def ++ lit "]: " |})
  end.
Proof.
  destruct (cin c) as [|line rest] eqn:Hc.
  - by apply ask_eof.
  - rewrite (ask_any prompt def c line rest Hc). by destruct line.
Qed.

Lemma read_body_loop_dot ls : forall out acc rest,
  lit "." ∉ ls ->
  read_body_loop (ls ++ lit "." :: rest) out acc =
  (Ok (acc ++ ls), {| cin := rest; cout := out ++ body_prompts (S (length ls)) |}).
Proof.
  induction ls as [|l ls IH]; intros out acc rest Hno.
  - rewrite app_nil_l. cbn [read_body_loop]. rewrite decide_True by done.
    unfold body_prompts. simpl. by rewrite ?app_nil_r.
  - apply not_elem_of_cons in Hno as [Hl Hno].
    rewrite <- app_comm_cons. cbn [read_body_loop]. rewrite decide_False by done.
    rewrite IH by done. rewrite <- !app_assoc. reflexivity.
Qed.

Lemma read_body_loop_eof input : forall out acc,
  lit "." ∉ input ->
  read_body_loop input out acc =
  (EOFExit, {| cin := []; cout := out ++ body_prompts (S (length input)) |}).
Proof.
  induction input as [|l ls IH]; intros out acc Hno.
  - unfold body_prompts. simpl. by rewrite ?app_nil_r.
  - apply not_elem_of_cons in Hno as [Hl Hno].
    cbn [read_body_loop]. rewrite decide_False by done.
    rewrite IH by done. rewrite <- !app_assoc. reflexivity.
Qed.

Lemma read_multiline_body_dot instruction c ls rest :
  cin c = ls ++ lit "." :: rest -> lit "." ∉ ls ->
  read_multiline_body instruction c =
  (Ok ls, {| cin := rest;
             cout := cout c ++ instruction ++ nl ++ body_prompts (S (length ls)) |}).
Proof.
  intros Hc Hno. unfold read_multiline_body. rewrite Hc.
  rewrite read_body_loop_dot by done. by rewrite <- !app_assoc.
Qed.

(** X15. [read_multiline_body] returns the lines that precede the first
    line holding a single dot and leaves what follows it unread; one [> ]
    is printed per line read. When no such line comes, all input is
    consumed and [EOFExit] is raised: the lines read so far are lost. *)
Theorem read_multiline_body_reads_to_dot (instruction : str) (c : console) :
  (forall ls rest, cin c = ls ++ lit "." :: rest -> lit "." ∉ ls ->
     read_multiline_body instruction c =
     (Ok ls, {| cin := rest;
                cout := cout c ++ instruction ++ nl ++ body_prompts (S (length ls)) |}))
  /\ (lit "." ∉ cin c ->
      read_multiline_body instruction c =
      (EOFExit, {| cin := [];
                   cout := cout c ++ instruction ++ nl
                           ++ body_prompts (S (length (cin c))) |})).
Proof.
  split.
  - intros ls rest. apply read_multiline_body_dot.
  - intros Hno. unfold read_multiline_body.
    rewrite read_body_loop_eof by done. by rewrite <- !app_assoc.
Qed.

(** ** Defining a keyword *)

Lemma liftc_run {A : Type} (m : io A) w a c' :
  m (console_of w) = (Ok a, c') ->
  liftc m w = (Ok a, {| console_of := c'; disk_of := disk_of w |}).
Proof. intros H. unfold liftc. by rewrite H. Qed.

Lemma parse_params_blank params_line :
  match params_line with
  | [] => []
  | _ :: _ => parse_params params_line
  end = parse_params params_line.
Proof. by destruct params_line. Qed.

Lemma define_keyword_run name m w params_line body_lines rest :
  cin (console_of w) = params_line :: body_lines ++ lit "." :: rest ->
  lit "." ∉ body_lines ->
  let m' := <[name := {| snippet := unlines body_lines;
                         params := parse_params params_line |}]> m in
  define_keyword name m w =
  (Ok m',
   {| console_of :=
        {| cin := rest;
           cout := cout (console_of w)
                   ++ define_keyword_output name params_line body_lines
                        (writable (disk_of w)) |};
      disk_of := snd (save_user_keywords m' (disk_of w)) |}).
Proof.
  intros Hc Hno m'. unfold define_keyword.
  erewrite bind_step; [|apply liftc_run, ask_any; exact Hc].
  cbv zeta.
  assert (Ha : answer [] params_line = params_line) by (by destruct params_line).
  rewrite Ha, parse_params_blank.
  erewrite bind_step; [|apply liftc_run; reflexivity].
  erewrite bind_step;
    [|apply liftc_run; apply read_multiline_body_dot; [reflexivity|exact Hno]].
  fold m'. unfold bind at 1, save_keywords, save_user_keywords.
  cbn [console_of disk_of cin cout].
  unfold define_keyword_output.
  destruct (writable (disk_of w)); unfold bind, liftc, print, ret;
    cbn [console_of disk_of cin cout fst snd]; rewrite <- !app_assoc; reflexivity.
Qed.

(** X16. [define_keyword] reads one line of parameters and the body lines
    up to the dot, and stores the macro under the given name, replacing an
    entry of that name. The body is not examined (a body with
    [int main(] is stored like any other). The new store is returned
    whether or not the file could be written: when it cannot, the file is
    left as it was and only a message tells. *)
Theorem define_keyword_stores_unchecked
    (name : str) (m : gmap str UserKeyword) (w : world)
    (params_line : str) (body_lines : list str) (rest : list str) :
  cin (console_of w) = params_line :: body_lines ++ lit "." :: rest ->
  lit "." ∉ body_lines ->
  let m' := <[name := {| snippet := unlines body_lines;
                         params := parse_params params_line |}]> m in
  exists w',
    define_keyword name m w = (Ok m', w')
    /\ console_of w'
       = {| cin := rest;
            cout := cout (console_of w)
                    ++ define_keyword_output name params_line body_lines
                         (writable (disk_of w)) |}
    /\ (writable (disk_of w) = true ->
        disk_of w' = {| file := Some (save_text m'); writable := true |})
    /\ (writable (disk_of w) = false -> disk_of w' = disk_of w).
Proof.
  intros Hc Hno m'. eexists. split; [by apply define_keyword_run|].
  cbn [console_of disk_of]. split; [reflexivity|].
  unfold save_user_keywords. split; intros ->; reflexivity.
Qed.

Lemma define_keyword_stores_unchecked_witness :
  let w := {| console_of := {| cin := [lit "n=3"; lit "int main() {"; lit "}"; lit ".";
                                       lit "next"];
                               cout := [] |};
              disk_of := {| file := Some (lit "old"); writable := false |} |} in
  let m' : gmap str UserKeyword :=
    {[ lit "k" := {| snippet := lit "int main() {" ++ nl ++ lit "}" ++ nl;
                     params := [(lit "n", lit "3")] |} ]} in
  exists w',
    define_keyword (lit "k") ∅ w = (Ok m', w')
    /\ cin (console_of w') = [lit "next"]
    /\ disk_of w' = {| file := Some (lit "old"); writable := false |}.
Proof.
  intros w m'.
  destruct (define_keyword_stores_unchecked (lit "k") ∅ w (lit "n=3")
              [lit "int main() {"; lit "}"] [lit "next"])
    as (w' & Hrun & Hcon & _ & Hdisk).
  - reflexivity.
  - intros H. apply elem_of_cons in H as [H|H]; [discriminate H|].
    apply list_elem_of_singleton in H. discriminate H.
  - exists w'. split; [exact Hrun|]. split; [by rewrite Hcon|].
    by apply Hdisk.
Defined.

(** ** Built-in handlers *)

(** X17. The fallback handler returns the pasted lines as they are, as
    body lines: no include is extracted, no placeholder is expanded. When
    one of them holds [int main(], the whole text becomes one item of the
    top section and the body is one comment. The context is returned
    unchanged in both cases. *)
Theorem handle_generic_with_body_keeps_lines
    (ctx : Context) (kw tag : str) (c : console) (ls rest : list str) :
  cin c = ls ++ lit "." :: rest ->
  lit "." ∉ ls ->
  exists out,
    handle_generic_with_body ctx kw tag c =
    (Ok (if has_main_line ls
         then {| includes := []; top := [unlines ls];
                 body := [lit "// (" ++ tag
                          ++ lit ") User provided a full program above; no extra main content added."] |}
         else {| includes := []; top := []; body := ls |},
         ctx),
     {| cin := rest; cout := cout c ++ out |}).
Proof.
  intros Hc Hno. unfold handle_generic_with_body.
  eexists. unfold bind at 1, print.
  erewrite bind_step; [|apply read_multiline_body_dot; [exact Hc|exact Hno]].
  cbn [cin cout]. destruct (has_main_line ls); unfold ret;
    rewrite <- !app_assoc; reflexivity.
Qed.

Lemma handle_generic_with_body_keeps_lines_witness :
  exists out,
    handle_generic_with_body empty_context (lit "typeid") (lit "t")
      {| cin := [lit "#include <typeinfo>"; lit "cout << {x};"; lit "."; lit "more"];
         cout := [] |}
    = (Ok ({| includes := []; top := [];
              body := [lit "#include <typeinfo>"; lit "cout << {x};"] |},
           empty_context),
       {| cin := [lit "more"]; cout := [] ++ out |}).
Proof.
  apply (handle_generic_with_body_keeps_lines empty_context (lit "typeid") (lit "t")
           {| cin := [lit "#include <typeinfo>"; lit "cout << {x};"; lit "."; lit "more"];
              cout := [] |}
           [lit "#include <typeinfo>"; lit "cout << {x};"] [lit "more"]).
  - reflexivity.
  - intros H. apply elem_of_cons in H as [H|H]; [discriminate H|].
    apply list_elem_of_singleton in H. discriminate H.
Defined.

(** X18. [handle_type_like] reads a name and an initial value (an empty
    line takes the default) and declares the variable through
    [declare_variable]: the name used in the declaration and in the
    output statement is not in the context before, is the requested name
    when that is free, and is recorded with the keyword as its type. *)
Theorem handle_type_like_declares_fresh_name
    (ctx : Context) (kw tag : str) (c : console) (l1 l2 : str) (rest : list str) :
  cin c = l1 :: l2 :: rest ->
  (Z.of_nat (size (vars ctx)) + 1 < INT_MAX)%Z ->
  let name := answer (lit "x") l1 in
  let init := answer (type_like_default kw) l2 in
  exists unique ctx' out,
    handle_type_like ctx kw tag c =
    (Ok (Some ({| includes := []; top := [];
                  body := [lit "// (" ++ tag ++ lit ") Demonstrate type: " ++ kw;
                           kw ++ lit " " ++ unique ++ lit " = " ++ init ++ lit ";";
                           cout_named unique (lit " = ")] |},
               ctx')),
     {| cin := rest; cout := cout c ++ out |})
    /\ vars ctx !! unique = None
    /\ (vars ctx !! name = None -> unique = name)
    /\ vars ctx' = <[unique := kw]> (vars ctx)
    /\ last_var ctx' = unique.
Proof.
  intros Hc Hsize name init.
  destruct (declare_variable_spec ctx kw name init Hsize)
    as (unique & Hdecl & Hfree & Hsame & _).
  eexists unique, _, _. unfold handle_type_like.
  erewrite bind_step; [|apply ask_any; exact Hc].
  erewrite bind_step; [|apply ask_any; reflexivity].
  fold name. fold init. rewrite Hdecl. unfold ret. cbn [cin cout last_var vars].
  split; [rewrite <- !app_assoc; reflexivity|]. cbn [vars last_var]. done.
Qed.

Lemma handle_type_like_declares_fresh_name_witness :
  let ctx := {| vars := {[ lit "x" := lit "int" ]}; types := ∅;
                last_var := lit "x"; last_type := []; meta := ∅ |} in
  let c := {| cin := [[]; []; lit "more"]; cout := [] |} in
  (Z.of_nat (size (vars ctx)) + 1 < INT_MAX)%Z
  /\ (exists unique ctx' out,
        handle_type_like ctx (lit "double") (lit "t") c
        = (Ok (Some ({| includes := []; top := [];
                        body := [lit "// (" ++ lit "t" ++ lit ") Demonstrate type: "
                                 ++ lit "double";
                                 lit "double" ++ lit " " ++ unique ++ lit " = "
                                 ++ lit "3.14" ++ lit ";";
                                 cout_named unique (lit " = ")] |},
                     ctx')),
           {| cin := [lit "more"]; cout := cout c ++ out |})
        /\ vars ctx !! unique = None)
  /\ fst (handle_type_like ctx (lit "double") (lit "t") c)
     = Ok (Some ({| includes := []; top := [];
                    body := [lit "// (t) Demonstrate type: double";
                             lit "double x1 = 3.14;";
                             cout_named (lit "x1") (lit " = ")] |},
                 {| vars := {[ lit "x" := lit "int"; lit "x1" := lit "double" ]};
                    types := ∅; last_var := lit "x1"; last_type := []; meta := ∅ |})).
Proof.
  intros ctx c.
  assert (Hsize : (Z.of_nat (size (vars ctx)) + 1 < INT_MAX)%Z) by (vm_compute; reflexivity).
  split; [exact Hsize|]. split; [|vm_compute; reflexivity].
  destruct (handle_type_like_declares_fresh_name ctx (lit "double") (lit "t")
              c [] [] [lit "more"] eq_refl Hsize)
    as (unique & ctx' & out & Hrun & Hfree & _).
  exists unique, ctx', out. split; [exact Hrun|exact Hfree].
Defined.

(** X19. [handle_auto] offers the variable declared last as initializer
    ([42] when there is none) and avoids names of the context as
    [declare_variable] does; the name it settles on is recorded with type
    [auto] and becomes the last variable. *)
Theorem handle_auto_uses_last_variable
    (ctx : Context) (tag : str) (c : console) (l1 l2 : str) (rest : list str) :
  cin c = l1 :: l2 :: rest ->
  (Z.of_nat (size (vars ctx)) + 1 < INT_MAX)%Z ->
  let init := answer (if decide (last_var ctx = []) then lit "42" else last_var ctx) l1 in
  let name := answer (lit "v") l2 in
  exists unique ctx' out,
    handle_auto ctx tag c =
    (Ok (Some ({| includes := []; top := [];
                  body := [lit "// (" ++ tag ++ lit ") Demonstrate auto (type deduction)";
                           lit "auto " ++ unique ++ lit " = " ++ init ++ lit ";";
                           cout_named unique (lit " (deduced) = ")] |},
               ctx')),
     {| cin := rest; cout := cout c ++ out |})
    /\ vars ctx !! unique = None
    /\ (vars ctx !! name = None -> unique = name)
    /\ vars ctx' = <[unique := lit "auto"]> (vars ctx)
    /\ last_var ctx' = unique.
Proof.
  intros Hc Hsize init name.
  destruct (declare_variable_spec ctx (lit "auto") name init Hsize)
    as (unique & Hdecl & Hfree & Hsame & _).
  unfold declare_variable in Hdecl.
  destruct (probe_name (S (size (vars ctx))) (vars ctx) name name 1) as [n| |] eqn:Hprobe;
    [|discriminate Hdecl|discriminate Hdecl].
  assert (n = unique) as -> by (injection Hdecl as _ _ Hn; exact Hn).
  eexists unique, _, _. unfold handle_auto. cbv zeta.
  assert (Hdef : match last_var ctx with [] => lit "42" | _ :: _ => last_var ctx end
                 = if decide (last_var ctx = []) then lit "42" else last_var ctx)
    by (by destruct (last_var ctx)).
  rewrite Hdef.
  erewrite bind_step; [|apply ask_any; exact Hc].
  erewrite bind_step; [|apply ask_any; reflexivity].
  fold name. fold init. rewrite Hprobe. unfold ret. cbn [cin cout].
  split; [rewrite <- !app_assoc; reflexivity|]. cbn [vars last_var]. done.
Qed.

Lemma handle_auto_uses_last_variable_witness :
  let ctx := {| vars := {[ lit "v" := lit "int" ]}; types := ∅;
                last_var := lit "v"; last_type := []; meta := ∅ |} in
  let c := {| cin := [[]; []]; cout := [] |} in
  (Z.of_nat (size (vars ctx)) + 1 < INT_MAX)%Z
  /\ (exists unique ctx' out,
        handle_auto ctx (lit "t") c
        = (Ok (Some ({| includes := []; top := [];
                        body := [lit "// (" ++ lit "t" ++ lit ") Demonstrate auto (type deduction)";
                                 lit "auto " ++ unique ++ lit " = " ++ lit "v" ++ lit ";";
                                 cout_named unique (lit " (deduced) = ")] |},
                     ctx')),
           {| cin := []; cout := cout c ++ out |})
        /\ vars ctx !! unique = None)
  /\ fst (handle_auto ctx (lit "t") c)
     = Ok (Some ({| includes := []; top := [];
                    body := [lit "// (t) Demonstrate auto (type deduction)";
                             lit "auto v1 = v;";
                             cout_named (lit "v1") (lit " (deduced) = ")] |},
                 {| vars := {[ lit "v" := lit "int"; lit "v1" := lit "auto" ]};
                    types := ∅; last_var := lit "v1"; last_type := []; meta := ∅ |})).
Proof.
  intros ctx c.
  assert (Hsize : (Z.of_nat (size (vars ctx)) + 1 < INT_MAX)%Z) by (vm_compute; reflexivity).
  split; [exact Hsize|]. split; [|vm_compute; reflexivity].
  destruct (handle_auto_uses_last_variable ctx (lit "t") c [] [] [] eq_refl Hsize)
    as (unique & ctx' & out & Hrun & Hfree & _).
  exists unique, ctx', out. split; [exact Hrun|exact Hfree].
Defined.

(** ** Occurrences of a macro *)

Lemma ask_params_run tag ps : forall values c answers rest,
  cin c = answers ++ rest -> length answers = length ps ->
  exists out,
    ask_params tag ps values c =
    (Ok (collect_values ps answers values), {| cin := rest; cout := cout c ++ out |}).
Proof.
  induction ps as [|pp ps IH]; intros values c answers rest Hc Hlen.
  - destruct answers; [|done]. exists []. unfold ask_params, ret, collect_values.
    simpl. rewrite app_nil_r. simpl in Hc. rewrite <- Hc. by destruct c.
  - destruct answers as [|a answers]; [done|]. injection Hlen as Hlen.
    cbn [ask_params]. change ((a :: answers) ++ rest) with (a :: (answers ++ rest)) in Hc.
    erewrite bind_step; [|apply ask_any; exact Hc].
    destruct (IH (<[pp.1 := answer pp.2 a]> values)
                 {| cin := answers ++ rest;
                    cout := cout c ++ ask_prompt (lit "[" ++ tag ++ lit "] Value for parameter '"
                                                   ++ pp.1 ++ lit "'") pp.2 |}
                 answers rest eq_refl Hlen) as [out Hout].
    rewrite Hout. cbn [cout]. eexists. rewrite <- app_assoc. reflexivity.
Qed.

Lemma collect_values_absent ps : forall answers values (k : str),
  k ∉ ps.*1 -> collect_values ps answers values !! k = values !! k.
Proof.
  induction ps as [|pp ps IH]; intros answers values k Hk; [done|].
  destruct answers as [|a answers]; [done|].
  apply not_elem_of_cons in Hk as [Hne Hk].
  unfold collect_values. cbn [zip zip_with fold_left fst snd].
  fold (collect_values ps answers (<[pp.1 := answer pp.2 a]> values)).
  rewrite IH by done. by rewrite lookup_insert_ne.
Qed.

Lemma collect_values_lookup ps : forall answers values j pp a,
  NoDup ps.*1 -> ps !! j = Some pp -> answers !! j = Some a ->
  collect_values ps answers values !! pp.1 = Some (answer pp.2 a).
Proof.
  induction ps as [|p0 ps IH]; intros answers values j pp a Hnd Hj Ha; [done|].
  destruct answers as [|a0 answers]; [done|].
  apply NoDup_cons in Hnd as [Hnot Hnd].
  unfold collect_values. cbn [zip zip_with fold_left fst snd].
  fold (collect_values ps answers (<[p0.1 := answer p0.2 a0]> values)).
  destruct j as [|j].
  - injection Hj as ->. injection Ha as ->.
    rewrite collect_values_absent by done. by rewrite lookup_insert_eq.
  - by apply (IH answers _ j).
Qed.

(** X20. For an occurrence of a stored macro the dispatcher asks one line
    per declared parameter, in declared order, and calls no built-in
    handler; the fragment is the expansion of the macro under the values
    read (an empty line stands for the stored default) and the context is
    returned unchanged. *)
Theorem macro_occurrence_asks_each_parameter
    (handler : str -> Context -> str -> io (Parts * Context))
    (kw : str) (ctx : Context) (occurrence_index pos : Z)
    (user_keywords : gmap str UserKeyword) (uk : UserKeyword)
    (c : console) (answers rest : list str) :
  user_keywords !! kw = Some uk ->
  cin c = answers ++ rest ->
  length answers = length (params uk) ->
  let tag := occurrence_tag occurrence_index pos in
  let values := collect_values (params uk) answers ∅ in
  (exists out,
     generate_parts_for_keyword_occurrence handler kw ctx occurrence_index pos
       user_keywords c
     = (Ok (parts_from_user_snippet_with_params uk values tag, ctx),
        {| cin := rest; cout := cout c ++ out |}))
  /\ (NoDup (params uk).*1 ->
      forall j pp a, params uk !! j = Some pp -> answers !! j = Some a ->
        param_value values pp = answer (snd pp) a).
Proof.
  intros Hkw Hc Hlen tag values. split.
  - unfold generate_parts_for_keyword_occurrence. cbv zeta. rewrite Hkw.
    destruct (ask_params_run tag (params uk) ∅ c answers rest Hc Hlen) as [out Hout].
    exists out. erewrite bind_step; [|exact Hout]. reflexivity.
  - intros Hnd j pp a Hj Ha. unfold param_value, values.
    by rewrite (collect_values_lookup _ _ _ j pp a Hnd Hj Ha).
Qed.

Lemma macro_occurrence_asks_each_parameter_witness :
  let uk := {| snippet := lit "swap({a}, {b});" ++ nl;
               params := [(lit "a", lit "x"); (lit "b", lit "y")] |} in
  let m : gmap str UserKeyword := {[ lit "swp" := uk ]} in
  let c := {| cin := [lit "p"; []; lit "next"]; cout := [] |} in
  m !! lit "swp" = Some uk
  /\ (exists out,
        generate_parts_for_keyword_occurrence idle_handler (lit "swp") empty_context 1 1 m c
        = (Ok (parts_from_user_snippet_with_params uk
                 (collect_values (params uk) [lit "p"; []] ∅) (occurrence_tag 1 1),
               empty_context),
           {| cin := [lit "next"]; cout := cout c ++ out |}))
  /\ body (parts_from_user_snippet_with_params uk
             (collect_values (params uk) [lit "p"; []] ∅) (occurrence_tag 1 1))
     = [snippet_header (occurrence_tag 1 1); lit "swap(p, y);"].
Proof.
  intros uk m c.
  assert (Hm : m !! lit "swp" = Some uk) by (vm_compute; reflexivity).
  split; [exact Hm|]. split; [|vm_compute; reflexivity].
  exact (proj1 (macro_occurrence_asks_each_parameter idle_handler (lit "swp")
                  empty_context 1 1 m uk c [lit "p"; []] [lit "next"]
                  Hm eq_refl eq_refl)).
Defined.

(** ** Aggregation *)

Lemma bind_Ok {S A B : Type} (m : prog S A) (k : A -> prog S B) s b s' :
  bind m k s = (Ok b, s') ->
  exists a s1, m s = (Ok a, s1) /\ k a s1 = (Ok b, s').
Proof.
  unfold bind. destruct (m s) as [[a|] s1] eqn:E; [|discriminate].
  intros H. by exists a, s1.
Qed.

Lemma fold_append_parts ps : forall acc,
  includes (fold_left append_parts ps acc) = includes acc ++ concat (map includes ps)
  /\ top (fold_left append_parts ps acc) = top acc ++ concat (map top ps)
  /\ body (fold_left append_parts ps acc) = body acc ++ concat (map body ps).
Proof.
  induction ps as [|p ps IH]; intros acc.
  - simpl. by rewrite !app_nil_r.
  - cbn [fold_left map concat]. destruct (IH (append_parts acc p)) as (-> & -> & ->).
    unfold append_parts. cbn [includes top body]. by rewrite <- !app_assoc.
Qed.

(** X21. When the dispatch loop completes, the aggregate is the initial
    aggregate followed by one fragment per occurrence, in the order of the
    occurrences: each fragment is what the dispatcher returned for that
    occurrence, and nothing is merged, dropped or reordered at this
    stage. *)
Theorem dispatch_all_appends_in_order
    (handler : str -> Context -> str -> io (Parts * Context))
    (user_keywords : gmap str UserKeyword) (occurrences : list (str * Z)) :
  forall (i : nat) (ctx : Context) (aggregated : Parts) (c : console)
         (result : Parts) (c' : console),
  dispatch_all handler user_keywords occurrences i ctx aggregated c = (Ok result, c') ->
  exists fragments,
    Forall2 (fun occ p =>
               exists ctx0 j c0 ctx1 c1,
                 generate_parts_for_keyword_occurrence handler (fst occ) ctx0 j (snd occ)
                   user_keywords c0 = (Ok (p, ctx1), c1))
            occurrences fragments
    /\ result = fold_left append_parts fragments aggregated
    /\ includes result = includes aggregated ++ concat (map includes fragments)
    /\ top result = top aggregated ++ concat (map top fragments)
    /\ body result = body aggregated ++ concat (map body fragments).
Proof.
  induction occurrences as [|occ occs IH]; intros i ctx acc c result c' H.
  - injection H as <- _. exists []. split; [constructor|]. split; [done|].
    simpl. by rewrite !app_nil_r.
  - cbn [dispatch_all] in H. cbv zeta in H.
    apply bind_Ok in H as (? & c1 & _ & H).
    apply bind_Ok in H as ([p ctx1] & c2 & Hgen & H).
    apply bind_Ok in H as (? & c3 & _ & H).
    apply IH in H as (ps & Hall & Hres & _).
    exists (p :: ps). split; [|split; [exact Hres|]].
    + constructor; [|exact Hall]. by exists ctx, (int_of_size (i + 1)), c1, ctx1, c2.
    + rewrite Hres. apply (fold_append_parts (p :: ps) acc).
Qed.

Lemma dispatch_all_appends_in_order_witness :
  let uk := {| snippet := lit "f({a});" ++ nl; params := [(lit "a", lit "0")] |} in
  let m : gmap str UserKeyword := {[ lit "k" := uk ]} in
  let c := {| cin := [lit "1"; lit "2"]; cout := [] |} in
  exists result c',
    dispatch_all idle_handler m [(lit "k", 1%Z); (lit "k", 2%Z)] 0 empty_context
      empty_parts c = (Ok result, c')
    /\ (exists fragments,
          length fragments = 2
          /\ body result = body empty_parts ++ concat (map body fragments))
    /\ body result
       = [snippet_header (occurrence_tag 1 1); lit "f(1);";
          snippet_header (occurrence_tag 2 2); lit "f(2);"].
Proof.
  intros uk m c.
  destruct (dispatch_all idle_handler m [(lit "k", 1%Z); (lit "k", 2%Z)] 0 empty_context
              empty_parts c) as [[result|] c'] eqn:Hrun;
    [|vm_compute in Hrun; discriminate Hrun].
  exists result, c'. split; [reflexivity|].
  destruct (dispatch_all_appends_in_order idle_handler m _ _ _ _ _ _ _ Hrun)
    as (fragments & Hall & _ & _ & _ & Hbody).
  split.
  - exists fragments. split; [|exact Hbody].
    apply Forall2_length in Hall. by rewrite <- Hall.
  - vm_compute in Hrun. injection Hrun as <- _. reflexivity.
Defined.

(** ** [:edit] *)

Lemma pair_of_fst {A B : Type} (p : A * B) (a : A) : fst p = a -> p = (a, snd p).
Proof. intros <-. by destruct p. Qed.








(** ** Store and file *)

Lemma liftc_disk {A : Type} (m : io A) w r w' :
  liftc m w = (r, w') -> disk_of w' = disk_of w.
Proof.
  unfold liftc. destruct (m (console_of w)) as [r0 c']. by intros [= _ <-].
Qed.

Lemma save_keywords_disk m w ok w' :
  writable (disk_of w) = true ->
  save_keywords m w = (Ok ok, w') -> disk_of w' = saved_as m.
Proof.
  intros Hw. unfold save_keywords, save_user_keywords. rewrite Hw.
  by intros [= _ <-].
Qed.

Lemma in_step_trans m d m1 d1 m2 d2 :
  in_step m d m1 d1 -> in_step m1 d1 m2 d2 -> in_step m d m2 d2.
Proof.
  intros [[-> ->]|H1] [[-> ->]|H2]; unfold in_step; auto.
Qed.

Lemma in_step_writable m d m1 d1 :
  writable d = true -> in_step m d m1 d1 -> writable d1 = true.
Proof. intros Hw [[_ ->]| ->]; [exact Hw|reflexivity]. Qed.

Lemma define_keyword_disk name m w m' w' :
  writable (disk_of w) = true ->
  define_keyword name m w = (Ok m', w') -> disk_of w' = saved_as m'.
Proof.
  intros Hw H. unfold define_keyword in H.
  apply bind_Ok in H as (pl & w1 & H1 & H). apply liftc_disk in H1.
  cbv zeta in H.
  apply bind_Ok in H as (? & w2 & H2 & H). apply liftc_disk in H2.
  apply bind_Ok in H as (ls & w3 & H3 & H). apply liftc_disk in H3.
  apply bind_Ok in H as (ok & w4 & H4 & H).
  apply bind_Ok in H as (? & w5 & H5 & H). apply liftc_disk in H5.
  injection H as <- <-. rewrite H5.
  apply save_keywords_disk in H4; [exact H4|]. by rewrite H3, H2, H1.
Qed.

Lemma define_unknown_tokens_in_step tokens : forall m w m' w',
  writable (disk_of w) = true ->
  define_unknown_tokens tokens m w = (Ok m', w') ->
  in_step m (disk_of w) m' (disk_of w').
Proof.
  induction tokens as [|raw rest IH]; intros m w m' w' Hw H;
    cbn [define_unknown_tokens] in H.
  - injection H as <- <-. by left.
  - cbv zeta in H. destruct (normalize_token raw) as [|c n]; [exact (IH _ _ _ _ Hw H)|].
    destruct (negb (bool_decide (c :: n ∈ cpp17_keywords))
              && negb (bool_decide (is_Some (m !! (c :: n))))
              && (isalpha c || Ascii.eqb c "_")); [|exact (IH _ _ _ _ Hw H)].
    apply bind_Ok in H as (choice & w1 & H1 & H). apply liftc_disk in H1.
    rewrite <- H1 in Hw. rewrite <- H1.
    destruct (is_yes choice).
    + destruct (bool_decide (c :: n ∈ cpp17_keywords)).
      * apply bind_Ok in H as (? & w2 & H2 & H). apply liftc_disk in H2.
        rewrite <- H2 in Hw. rewrite <- H2. exact (IH _ _ _ _ Hw H).
      * apply bind_Ok in H as (m1 & w2 & H2 & H).
        apply define_keyword_disk in H2; [|exact Hw].
        apply (in_step_trans _ _ m1 (disk_of w2)); [by right|].
        apply IH; [by rewrite H2|exact H].
    + apply bind_Ok in H as (? & w2 & H2 & H). apply liftc_disk in H2.
      rewrite <- H2 in Hw. rewrite <- H2. exact (IH _ _ _ _ Hw H).
Qed.

Lemma add_flow_in_step kwset m w m' w' :
  writable (disk_of w) = true ->
  add_flow kwset m w = (Ok (Continue m'), w') ->
  in_step m (disk_of w) m' (disk_of w').
Proof.
  intros Hw H. unfold add_flow in H.
  apply bind_Ok in H as (name & w1 & H1 & H). apply liftc_disk in H1.
  rewrite <- H1 in Hw. rewrite <- H1. cbv zeta in H.
  destruct (normalize_token name) as [|c n].
  { apply bind_Ok in H as (? & w2 & H2 & H). apply liftc_disk in H2.
    injection H as <- <-. left. by split. }
  destruct (bool_decide (c :: n ∈ kwset)).
  { apply bind_Ok in H as (? & w2 & H2 & H). apply liftc_disk in H2.
    injection H as <- <-. left. by split. }
  apply bind_Ok in H as (proceed & w2 & H2 & H).
  assert (Hd2 : disk_of w2 = disk_of w1).
  { destruct (bool_decide (is_Some (m !! (c :: n)))).
    - apply bind_Ok in H2 as (over & w3 & H3 & H2). apply liftc_disk in H3.
      destruct (is_yes over).
      + injection H2 as _ <-. exact H3.
      + apply bind_Ok in H2 as (? & w4 & H4 & H2). apply liftc_disk in H4.
        injection H2 as _ <-. by rewrite H4.
    - by injection H2 as _ <-. }
  destruct proceed.
  - apply bind_Ok in H as (m1 & w3 & H3 & H). injection H as <- <-.
    right. apply define_keyword_disk in H3; [exact H3|]. by rewrite Hd2.
  - injection H as <- <-. left. by split.
Qed.

Lemma edit_flow_in_step arg m w m' w' :
  writable (disk_of w) = true ->
  edit_flow arg m w = (Ok (Continue m'), w') ->
  in_step m (disk_of w) m' (disk_of w').
Proof.
  intros Hw H. unfold edit_flow in H.
  apply bind_Ok in H as (key & w1 & H1 & H).
  assert (Hd1 : disk_of w1 = disk_of w).
  { destruct arg; [by apply liftc_disk in H1|by injection H1 as _ <-]. }
  rewrite <- Hd1 in Hw. rewrite <- Hd1. clear H1 Hd1.
  destruct key as [|c key].
  { apply bind_Ok in H as (? & w2 & H2 & H). apply liftc_disk in H2.
    injection H as <- <-. left. by split. }
  destruct (m !! (c :: key)) as [uk|].
  2:{ apply bind_Ok in H as (? & w2 & H2 & H). apply liftc_disk in H2.
      injection H as <- <-. left. by split. }
  apply bind_Ok in H as (? & w2 & H2 & H). apply liftc_disk in H2.
  apply bind_Ok in H as (ps1 & w3 & H3 & H). apply liftc_disk in H3.
  apply bind_Ok in H as (ps2 & w4 & H4 & H). apply liftc_disk in H4.
  apply bind_Ok in H as (? & w5 & H5 & H). apply liftc_disk in H5.
  apply bind_Ok in H as (rs & w6 & H6 & H). apply liftc_disk in H6.
  apply bind_Ok in H as (snip & w7 & H7 & H).
  assert (Hd7 : disk_of w7 = disk_of w6).
  { destruct (is_yes rs).
    - apply bind_Ok in H7 as (? & w8 & H8 & H7). apply liftc_disk in H8.
      apply bind_Ok in H7 as (? & w9 & H9 & H7). apply liftc_disk in H9.
      injection H7 as _ <-. by rewrite H9.
    - by injection H7 as _ <-. }
  cbv zeta in H.
  apply bind_Ok in H as (ok & w8 & H8 & H).
  apply bind_Ok in H as (? & w9 & H9 & H). apply liftc_disk in H9.
  injection H as <- <-. right. rewrite H9.
  apply save_keywords_disk in H8; [exact H8|].
  by rewrite Hd7, H6, H5, H4, H3, H2.
Qed.

Lemma cmd_remove_in_step key m w m' w' :
  writable (disk_of w) = true ->
  cmd_remove key m w = (Continue m', w') ->
  in_step m (disk_of w) m' (disk_of w').
Proof.
  intros Hw H. unfold cmd_remove in H. apply no_try_continue in H.
  destruct key as [|c key].
  { apply bind_Ok in H as (? & w2 & H2 & H). apply liftc_disk in H2.
    injection H as <- <-. left. by split. }
  cbv zeta in H. destruct (m !! normalize_token (c :: key)).
  - apply bind_Ok in H as (ok & w2 & H2 & H).
    apply bind_Ok in H as (? & w3 & H3 & H). apply liftc_disk in H3.
    injection H as <- <-. right. rewrite H3.
    by apply save_keywords_disk in H2.
  - apply bind_Ok in H as (? & w2 & H2 & H). apply liftc_disk in H2.
    injection H as <- <-. left. by split.
Qed.

Lemma run_command_in_step trimmed m w m' w' :
  writable (disk_of w) = true ->
  run_command trimmed m w = (Continue m', w') ->
  in_step m (disk_of w) m' (disk_of w').
Proof.
  intros Hw. unfold run_command. cbv zeta.
  repeat match goal with
         | |- context [if ?b || ?c then _ else _] => destruct (b || c)
         | |- context [if bool_decide ?P then _ else _] => destruct (bool_decide P)
         end.
  - unfold cmd_add. intros H%try_catch_eof_continue.
    exact (add_flow_in_step _ _ _ _ _ Hw H).
  - intros [= <- <-]. left. by split.
  - intros H%no_try_continue.
    apply bind_Ok in H as (term & w1 & H1 & H).
    assert (Hd1 : disk_of w1 = disk_of w).
    { destruct (nth 1 (tokenize trimmed) []);
        [by apply liftc_disk in H1|by injection H1 as _ <-]. }
    apply bind_Ok in H as (? & w2 & H2 & H). apply liftc_disk in H2.
    injection H as <- <-. left. split; [reflexivity|]. by rewrite H2.
  - unfold cmd_edit. intros H%no_try_continue.
    exact (edit_flow_in_step _ _ _ _ _ Hw H).
  - apply cmd_remove_in_step. exact Hw.
  - intros [= <- <-]. left. by split.
  - intros [= <- <-]. left. by split.
Qed.

Lemma process_line_in_step handler trimmed m w m' w' :
  writable (disk_of w) = true ->
  process_line handler trimmed m w = (Continue m', w') ->
  in_step m (disk_of w) m' (disk_of w').
Proof.
  intros Hw. unfold process_line. cbv zeta.
  destruct (define_unknown_tokens (tokenize trimmed) m w) as [[m1|] w1] eqn:E;
    [|intros H; discriminate H].
  pose proof (define_unknown_tokens_in_step _ _ _ _ _ Hw E) as Hstep.
  destruct (build_occurrences cpp17_keywords m1 0 (tokenize trimmed)) as [|occ occs].
  - intros [= <- <-]. exact Hstep.
  - destruct (liftc _ _) as [[agg|] w3] eqn:El; [|intros H; discriminate H].
    apply liftc_disk in El. intros [= <- <-]. cbn [say disk_of] in *.
    rewrite El. exact Hstep.
Qed.

(** X23. With a keyword file that can be written, every pass through the
    main loop that continues either leaves the store and the file as they
    were or leaves in the file exactly what the saver writes for the new
    store: no change of the store goes unsaved, and a file that held the
    saved store before the pass holds it after. *)
Theorem store_and_file_stay_in_step
    (handler : str -> Context -> str -> io (Parts * Context))
    (m m' : gmap str UserKeyword) (w w' : world) :
  writable (disk_of w) = true ->
  main_step handler m w = (Continue m', w') ->
  ((m' = m /\ disk_of w' = disk_of w)
   \/ disk_of w' = {| file := Some (save_text m'); writable := true |})
  /\ (file (disk_of w) = Some (save_text m) ->
      file (disk_of w') = Some (save_text m'))
  /\ writable (disk_of w') = true.
Proof.
  intros Hw H.
  assert (Hstep : in_step m (disk_of w) m' (disk_of w')).
  { revert H. unfold main_step. cbv zeta.
    destruct (cin (console_of (say (lit "Enter keyword(s)> ") w))) as [|line rest];
      [intros H; discriminate H|].
    destruct (trim line) as [|c t] eqn:Et; [intros [= <- <-]; left; by split|].
    destruct (Ascii.eqb c ":").
    - apply run_command_in_step. exact Hw.
    - destruct (bool_decide (c :: t = lit "exit")); [intros H; discriminate H|].
      apply process_line_in_step. exact Hw. }
  split; [exact Hstep|]. split.
  - intros Hfile. destruct Hstep as [[-> ->]| ->]; [exact Hfile|reflexivity].
  - exact (in_step_writable _ _ _ _ Hw Hstep).
Qed.

Lemma store_and_file_stay_in_step_witness :
  let w := {| console_of := {| cin := [lit ":add"; lit "hello"; []; lit "cout << 1;"; lit "."];
                               cout := [] |};
              disk_of := {| file := None; writable := true |} |} in
  let m' : gmap str UserKeyword :=
    {[ lit "hello" := {| snippet := lit "cout << 1;" ++ nl; params := [] |} ]} in
  writable (disk_of w) = true
  /\ fst (main_step idle_handler ∅ w) = Continue m'
  /\ disk_of (snd (main_step idle_handler ∅ w))
     = {| file := Some (save_text m'); writable := true |}.
Proof.
  intros w m'.
  assert (H : main_step idle_handler ∅ w = (Continue m', snd (main_step idle_handler ∅ w))).
  { apply pair_of_fst. vm_compute. reflexivity. }
  split; [reflexivity|]. split; [by rewrite H|].
  destruct (store_and_file_stay_in_step idle_handler ∅ m' w _ eq_refl H)
    as ([[Hm _]|Hd] & _ & _); [|exact Hd].
  exfalso. apply (f_equal (fun x : gmap str UserKeyword => x !! lit "hello")) in Hm.
  vm_compute in Hm. discriminate Hm.
Defined.

(** ** [:search] *)




(** ** From definition to expansion *)

Lemma scan_lines_includes ls : forall p,
  Forall (fun l => is_include_line l = false) ls ->
  includes (fold_left scan_line ls p) = includes p.
Proof.
  induction ls as [|l ls IH]; intros p Hls; [done|].
  inversion Hls as [|? ? Hl Hrest]; subst. cbn [fold_left]. rewrite IH by done.
  unfold is_include_line in Hl. apply orb_false_iff in Hl as [H1 H2].
  unfold scan_line. cbv zeta. by rewrite H1, H2.
Qed.

Lemma plain_macro_parts ls ps values tag :
  Forall (fun l => (newline ∉ l) /\ is_include_line l = false) ls ->
  Forall (fun pp => free_of (placeholder (fst pp)) (unlines ls)) ps ->
  free_of (lit "int main(") (unlines ls) ->
  parts_from_user_snippet_with_params {| snippet := unlines ls; params := ps |} values tag
  = {| includes := []; top := []; body := snippet_header tag :: ls |}.
Proof.
  intros Hls Hps Hmain. unfold parts_from_user_snippet_with_params.
  cbn [snippet params]. cbv zeta. rewrite substitute_params_absent by done.
  rewrite (proj2 (find_0_None _ _) Hmain).
  rewrite getlines_unlines by (eapply Forall_impl; [exact Hls|]; by intros l [? _]).
  assert (Hno : Forall (fun l => is_include_line l = false) ls)
    by (eapply Forall_impl; [exact Hls|]; by intros l [_ ?]).
  destruct (scan_lines_body ls empty_parts) as [Hb Ht].
  rewrite (scan_lines_includes ls empty_parts Hno), Hb, Ht.
  cbn [includes top body empty_parts].
  f_equal. f_equal. clear -Hno. induction Hno as [|l ls Hl _ IH]; [done|].
  rewrite app_nil_l in *. rewrite filter_cons_True by done. by rewrite IH.
Qed.

(** X25. A macro as [define_keyword] stores it, whose lines are not
    include directives and hold no placeholder of its parameters and no
    [int main(], expands to a header comment followed by exactly the lines
    that were entered, with no include and nothing for the top section. *)
Theorem defined_macro_expands_to_its_lines
    (ls : list str) (ps : list (str * str)) (values : gmap str str) (tag : str) :
  Forall (fun l => (newline ∉ l) /\ is_include_line l = false) ls ->
  Forall (fun pp => free_of (placeholder (fst pp)) (unlines ls)) ps ->
  free_of (lit "int main(") (unlines ls) ->
  let p := parts_from_user_snippet_with_params
             {| snippet := unlines ls; params := ps |} values tag in
  p = {| includes := []; top := []; body := snippet_header tag :: ls |}
  /\ forall acc, body (append_parts acc p) = body acc ++ snippet_header tag :: ls.
Proof.
  intros Hls Hps Hmain p. unfold p. rewrite plain_macro_parts by done.
  split; reflexivity.
Qed.

Lemma defined_macro_expands_to_its_lines_witness :
  let ls := [lit "int t = a;"; lit "  a = b;  "; []; lit "b = t;"] in
  Forall (fun l => (newline ∉ l) /\ is_include_line l = false) ls
  /\ parts_from_user_snippet_with_params
       {| snippet := unlines ls; params := [(lit "x", lit "1")] |} ∅ (lit "t")
     = {| includes := []; top := []; body := snippet_header (lit "t") :: ls |}.
Proof.
  intros ls.
  assert (Hls : Forall (fun l => (newline ∉ l) /\ is_include_line l = false) ls).
  { repeat (constructor;
            [split; [apply newline_not_in_literal; vm_compute; reflexivity|reflexivity]|]).
    constructor. }
  split; [exact Hls|].
  apply (defined_macro_expands_to_its_lines ls [(lit "x", lit "1")] ∅ (lit "t") Hls).
  - constructor; [|constructor]. apply free_of_find. vm_compute. reflexivity.
  - apply free_of_find. vm_compute. reflexivity.
Defined.

(** ** One line, one program *)

Lemma set_elements_empty : set_elements (include_keys []) = [].
Proof. vm_compute. reflexivity. Qed.

(** X26. An input line that is the name of a stored macro without
    parameters, whose lines are plain, is answered without reading any
    further input and without changing the store or the file: the program
    printed has the core include only, an empty top section and, in
    [main], the header comment of occurrence 1 followed by the lines of the
    macro. *)
Theorem plain_macro_line_prints_program
    (handler : str -> Context -> str -> io (Parts * Context))
    (m : gmap str UserKeyword) (w : world) (kw : str) (ls : list str) :
  kw <> [] ->
  Forall (fun c => isspace c = false) kw ->
  normalize_token kw = kw ->
  m !! kw = Some {| snippet := unlines ls; params := [] |} ->
  Forall (fun l => (newline ∉ l) /\ is_include_line l = false) ls ->
  free_of (lit "int main(") (unlines ls) ->
  exists before,
    process_line handler kw m w =
    (Continue m,
     say (before ++ program_banner
          ++ program_layout [] (snippet_header (occurrence_tag 1 1) :: ls) []
          ++ nl
          ++ lit "Copy the program into a .cpp file and compile: g++ -std=c++17 yourfile.cpp"
          ++ nl ++ nl) w).
Proof.
  intros Hne Hkw Hnorm Hm Hls Hmain.
  unfold process_line. cbv zeta. rewrite (tokenize_word kw Hne Hkw).
  assert (Hdefine : define_unknown_tokens [kw] m w = (Ok m, w)).
  { assert (Hs : is_Some (m !! kw)) by (rewrite Hm; by eexists).
    cbn [define_unknown_tokens]. cbv zeta. rewrite Hnorm.
    destruct kw as [|c kw']; [exact (False_ind _ (Hne eq_refl))|].
    destruct (bool_decide (is_Some (m !! (c :: kw')))) eqn:E.
    - destruct (negb (bool_decide (c :: kw' ∈ cpp17_keywords))); reflexivity.
    - apply bool_decide_eq_false in E. exact (False_ind _ (E Hs)). }
  rewrite Hdefine.
  assert (Hocc : build_occurrences cpp17_keywords m 0 [kw] = [(kw, 1%Z)]).
  { rewrite build_occurrences_cons.
    rewrite decide_True; [by rewrite Hnorm|].
    unfold recognised. rewrite Hnorm. split; [exact Hne|]. right. by eexists. }
  rewrite Hocc.
  assert (Hparts : parts_from_user_snippet_with_params
                     {| snippet := unlines ls; params := [] |} ∅ (occurrence_tag 1 1)
                   = {| includes := []; top := [];
                        body := snippet_header (occurrence_tag 1 1) :: ls |}).
  { apply plain_macro_parts; [exact Hls|constructor|exact Hmain]. }
  cbn [dispatch_all]. cbv zeta.
  unfold liftc, bind, print, generate_parts_for_keyword_occurrence.
  cbn [fst snd]. rewrite Hm. cbn [params ask_params]. unfold ret, bind.
  change (int_of_size (0 + 1)) with 1%Z. rewrite Hparts.
  cbn [say console_of disk_of cin cout append_parts empty_parts includes top body fst].
  rewrite !app_nil_l.
  unfold make_program_from_body_lines, program_layout. rewrite set_elements_empty.
  exists (nl ++ lit "Detected occurrences in order:" ++ detected_text 0 [(kw, 1%Z)]
          ++ nl ++ nl
          ++ lit "--- Asking about keyword occurrence " ++ to_string 1
          ++ lit ": '" ++ kw ++ lit "' (token " ++ to_string 1 ++ lit ") ---" ++ nl
          ++ nl).
  unfold say. cbn [console_of disk_of cin cout].
  rewrite <- !app_assoc. reflexivity.
Qed.


Lemma plain_macro_line_prints_program_witness :
  let m : gmap str UserKeyword :=
    {[ lit "hello" := {| snippet := unlines [lit "cout << 1;"]; params := [] |} ]} in
  let w := {| console_of := {| cin := [lit "next"]; cout := [] |};
              disk_of := {| file := None; writable := false |} |} in
  normalize_token (lit "hello") = lit "hello"
  /\ m !! lit "hello" = Some {| snippet := unlines [lit "cout << 1;"]; params := [] |}
  /\ exists before,
       process_line idle_handler (lit "hello") m w =
       (Continue m,
        say (before ++ program_banner
             ++ program_layout [] [snippet_header (occurrence_tag 1 1); lit "cout << 1;"] []
             ++ nl
             ++ lit "Copy the program into a .cpp file and compile: g++ -std=c++17 yourfile.cpp"
             ++ nl ++ nl) w).
Proof.
  intros m w.
  assert (Hnorm : normalize_token (lit "hello") = lit "hello") by reflexivity.
  assert (Hm : m !! lit "hello"
               = Some {| snippet := unlines [lit "cout << 1;"]; params := [] |})
    by (vm_compute; reflexivity).
  split; [exact Hnorm|]. split; [exact Hm|].
  apply (plain_macro_line_prints_program idle_handler m w (lit "hello") [lit "cout << 1;"]).
  - discriminate.
  - repeat constructor.
  - exact Hnorm.
  - exact Hm.
  - constructor; [|constructor].
    split; [apply newline_not_in_literal; vm_compute; reflexivity|reflexivity].
  - apply free_of_find. vm_compute. reflexivity.
Defined.

(** ** What leaves the store and the file alone *)

Lemma liftc_ask_Ok prompt def w a w1 :
  liftc (ask prompt def) w = (Ok a, w1) ->
  exists line, cin (console_of w) = line :: cin (console_of w1)
               /\ a = answer def line /\ disk_of w1 = disk_of w.
Proof.
  unfold liftc. destruct (cin (console_of w)) as [|line rest] eqn:Hc.
  - rewrite (ask_eof _ _ _ Hc). intros H. discriminate H.
  - rewrite (ask_any _ _ _ _ _ Hc). intros [= <- <-]. by exists line.
Qed.

Lemma liftc_print_Ok s w r w1 :
  liftc (print s) w = (r, w1) ->
  r = Ok tt /\ cin (console_of w1) = cin (console_of w) /\ disk_of w1 = disk_of w.
Proof. unfold liftc, print. by intros [= <- <-]. Qed.

(** X27. The store changes on an ordinary input line only when an offer
    to define a token is answered with [y] or [Y]: when no line that
    remains on the input is such an answer (an empty line counts as the
    default, skip), the loop over the unknown tokens returns the store it
    was given and leaves the file as it was. *)
Theorem skipped_tokens_define_nothing (tokens : list str) :
  forall (m m' : gmap str UserKeyword) (w w' : world),
  Forall (fun line => is_yes (answer (lit "s") line) = false) (cin (console_of w)) ->
  define_unknown_tokens tokens m w = (Ok m', w') ->
  m' = m /\ disk_of w' = disk_of w.
Proof.
  induction tokens as [|raw rest IH]; intros m m' w w' Hall H;
    cbn [define_unknown_tokens] in H.
  - by injection H as <- <-.
  - cbv zeta in H. destruct (normalize_token raw) as [|c n]; [exact (IH _ _ _ _ Hall H)|].
    destruct (negb (bool_decide (c :: n ∈ cpp17_keywords))
              && negb (bool_decide (is_Some (m !! (c :: n))))
              && (isalpha c || Ascii.eqb c "_")); [|exact (IH _ _ _ _ Hall H)].
    apply bind_Ok in H as (choice & w1 & H1 & H).
    apply liftc_ask_Ok in H1 as (line & Hc & -> & Hd1).
    rewrite Hc in Hall. inversion Hall as [|? ? Hline Hrest]; subst.
    rewrite Hline in H.
    apply bind_Ok in H as (? & w2 & H2 & H).
    apply liftc_print_Ok in H2 as (_ & Hc2 & Hd2).
    rewrite <- Hc2 in Hrest. destruct (IH _ _ _ _ Hrest H) as [-> Hd].
    split; [reflexivity|]. by rewrite Hd, Hd2, Hd1.
Qed.

Lemma skipped_tokens_define_nothing_witness :
  let w := {| console_of := {| cin := [lit "n"; []; lit "later"]; cout := [] |};
              disk_of := {| file := Some (lit "kept"); writable := true |} |} in
  Forall (fun line => is_yes (answer (lit "s") line) = false) (cin (console_of w))
  /\ fst (define_unknown_tokens [lit "foo"; lit "int"; lit "bar"] ∅ w) = Ok ∅
  /\ disk_of (snd (define_unknown_tokens [lit "foo"; lit "int"; lit "bar"] ∅ w))
     = disk_of w.
Proof.
  intros w.
  assert (Hall : Forall (fun line => is_yes (answer (lit "s") line) = false)
                        (cin (console_of w))).
  { repeat (constructor; [reflexivity|]). constructor. }
  assert (H : define_unknown_tokens [lit "foo"; lit "int"; lit "bar"] ∅ w
              = (Ok ∅, snd (define_unknown_tokens [lit "foo"; lit "int"; lit "bar"] ∅ w))).
  { apply pair_of_fst. vm_compute. reflexivity. }
  split; [exact Hall|]. split; [by rewrite H|].
  exact (proj2 (skipped_tokens_define_nothing _ ∅ ∅ w _ Hall H)).
Defined.











(** ** Command arguments *)

Lemma command_tokens cmd arg :
  cmd <> [] -> Forall (fun c => isspace c = false) cmd ->
  arg <> [] -> Forall (fun c => isspace c = false) arg ->
  tokenize (cmd ++ lit " " ++ arg) = [cmd; arg].
Proof.
  intros Hc1 Hc2 Ha1 Ha2. change (lit " " ++ arg) with (" " :: arg).
  rewrite tokenize_space_app by reflexivity. by rewrite !tokenize_word.
Qed.

(** X29. [:remove] looks its argument up by normalised name, [:edit] by
    the name as typed: for an argument that differs from a stored name
    only by case or by punctuation around it, [:remove] deletes the entry
    and [:edit] reports that there is no such keyword and changes
    nothing. *)
Theorem remove_normalises_its_argument_edit_does_not
    (m : gmap str UserKeyword) (w : world) (arg : str) :
  arg <> [] ->
  Forall (fun c => isspace c = false) arg ->
  is_Some (m !! normalize_token arg) ->
  m !! arg = None ->
  fst (run_command (lit ":remove" ++ lit " " ++ arg) m w)
  = Continue (delete (normalize_token arg) m)
  /\ run_command (lit ":edit" ++ lit " " ++ arg) m w
     = (Continue m, say (lit "No such custom keyword '" ++ arg ++ lit "'." ++ nl) w).
Proof.
  intros Hne Hns [uk Hnorm] Hraw. split.
  - unfold run_command. cbv zeta.
    rewrite (command_tokens (lit ":remove") arg) by first [done | repeat constructor].
    cbn [nth].
    change (bool_decide (lit ":remove" = lit ":add")) with false.
    change (bool_decide (lit ":remove" = lit ":define")) with false.
    change (bool_decide (lit ":remove" = lit ":list")) with false.
    change (bool_decide (lit ":remove" = lit ":search")) with false.
    change (bool_decide (lit ":remove" = lit ":edit")) with false.
    change (bool_decide (lit ":remove" = lit ":remove")) with true.
    cbn [orb]. unfold cmd_remove, no_try.
    destruct arg as [|c arg']; [exact (False_ind _ (Hne eq_refl))|]. cbv zeta.
    rewrite Hnorm. unfold bind, save_keywords, liftc, print, ret.
    destruct (save_user_keywords _ _). reflexivity.
  - unfold run_command. cbv zeta.
    rewrite (command_tokens (lit ":edit") arg) by first [done | repeat constructor].
    cbn [nth].
    change (bool_decide (lit ":edit" = lit ":add")) with false.
    change (bool_decide (lit ":edit" = lit ":define")) with false.
    change (bool_decide (lit ":edit" = lit ":list")) with false.
    change (bool_decide (lit ":edit" = lit ":search")) with false.
    change (bool_decide (lit ":edit" = lit ":edit")) with true.
    cbn [orb]. unfold cmd_edit, no_try, edit_flow.
    destruct arg as [|c arg']; [exact (False_ind _ (Hne eq_refl))|].
    unfold bind at 1, ret at 1. rewrite Hraw.
    unfold bind, liftc, print, ret, say. reflexivity.
Qed.

Lemma remove_normalises_its_argument_edit_does_not_witness :
  let m : gmap str UserKeyword :=
    {[ lit "swp" := {| snippet := lit "x;" ++ nl; params := [] |} ]} in
  let w := {| console_of := {| cin := []; cout := [] |};
              disk_of := {| file := None; writable := true |} |} in
  is_Some (m !! normalize_token (lit "Swp,"))
  /\ m !! lit "Swp," = None
  /\ fst (run_command (lit ":remove" ++ lit " " ++ lit "Swp,") m w) = Continue ∅
  /\ fst (run_command (lit ":edit" ++ lit " " ++ lit "Swp,") m w) = Continue m.
Proof.
  intros m w.
  assert (H1 : is_Some (m !! normalize_token (lit "Swp,"))) by (by eexists).
  assert (H2 : m !! lit "Swp," = None) by (vm_compute; reflexivity).
  assert (H0 : Forall (fun c => isspace c = false) (lit "Swp,")) by (repeat constructor).
  destruct (remove_normalises_its_argument_edit_does_not m w (lit "Swp,")
              ltac:(discriminate) H0 H1 H2) as [Hr He].
  split; [exact H1|]. split; [exact H2|]. split.
  - rewrite Hr; f_equal; vm_compute; reflexivity.
  - by rewrite He.
Defined.
